(** * Lidify acquisition and concurrency layer: a shallow embedding

    The development follows the backend sources:
    - [utils/distributedLock.ts]: modules [Redis] and [DistributedLock];
    - [services/discovery/optimisticBatchUpdate.ts]: module
      [OptimisticBatchUpdate];
    - the [MessageParser] class of the peer-network wire codec: module
      [WireCodec];
    - the Lidarr webhook route: module [Webhook];
    - the job de-duplication of the acquisition service: module
      [Acquisition].
    The properties of each are proved in the module of the same name with
    the suffix [Facts].

    Asynchronous functions are modelled as state transformers over the state
    of the external store they talk to; an awaited call either returns a
    value or throws. Concurrency is modelled by interleaving the atomic
    store operations of the callers. *)

From Stdlib Require Import ZArith Lia Bool Ascii String DecimalString.
From stdpp Require Import gmap strings list fin_maps.

Open Scope string_scope.
Open Scope list_scope.
Open Scope Z_scope.

Set Warnings "-clear-no-such-hyp".

(** ** Outcomes of awaited calls *)

(** A JavaScript error value, as far as the code inspects it: Prisma errors
    carry a [code]; [message] may be missing on foreign objects. *)
Record js_error := Error { code : option string; message : option string }.

Definition mkError (msg : string) : js_error :=
  {| code := None; message := Some msg |}.

Inductive outcome (A : Type) : Type :=
| Returned (a : A)
| Thrown (e : js_error).
Arguments Returned {A} a.
Arguments Thrown {A} e.

Definition is_thrown {A} (o : outcome A) : bool :=
  match o with Thrown _ => true | Returned _ => false end.

(** State-and-exception monad for [async] code against a store of type [S]. *)
Definition M (S A : Type) : Type := S -> outcome A * S.

Definition ret {S A} (a : A) : M S A := fun s => (Returned a, s).
Definition throw {S A} (e : js_error) : M S A := fun s => (Thrown e, s).
Definition bind {S A B} (m : M S A) (k : A -> M S B) : M S B :=
  fun s => match m s with
           | (Returned a, s1) => k a s1
           | (Thrown e, s1) => (Thrown e, s1)
           end.
(** [try { body } catch (e) { handler e }] *)
Definition try_catch {S A} (body : M S A) (handler : js_error -> M S A) : M S A :=
  fun s => match body s with
           | (Returned a, s1) => (Returned a, s1)
           | (Thrown e, s1) => handler e s1
           end.
(** [try { return await body } finally { await fin }]: the finaliser always
    runs; when it throws, its error replaces the outcome of the body. *)
Definition try_finally {S A B} (body : M S A) (fin : M S B) : M S A :=
  fun s => match body s with
           | (r, s1) => match fin s1 with
                        | (Returned _, s2) => (r, s2)
                        | (Thrown e, s2) => (Thrown e, s2)
                        end
           end.

(** ** Hexadecimal rendering of bytes ([Buffer.toString('hex')]) *)

Definition hex_digit (n : N) : ascii :=
  match n with
  | 0%N => "0" | 1%N => "1" | 2%N => "2" | 3%N => "3"
  | 4%N => "4" | 5%N => "5" | 6%N => "6" | 7%N => "7"
  | 8%N => "8" | 9%N => "9" | 10%N => "a" | 11%N => "b"
  | 12%N => "c" | 13%N => "d" | 14%N => "e" | _ => "f"
  end%char.

Fixpoint to_hex (bs : list Byte.byte) : string :=
  match bs with
  | [] => EmptyString
  | b :: rest =>
      String (hex_digit (Byte.to_N b / 16))
        (String (hex_digit (Byte.to_N b mod 16)) (to_hex rest))
  end.

(** ** The coordination store (Redis), as far as the lock uses it *)

Module Redis.

(** A key holds a value until its expiry instant (milliseconds). *)
Record entry := Entry { value : string; expires_at : Z }.

Record store := Store { keys : gmap string entry; clock : Z }.

(** What [GET] sees: expired entries are gone. *)
Definition get (s : store) (k : string) : option string :=
  match keys s !! k with
  | Some e => if clock s <? expires_at e then Some (value e) else None
  | None => None
  end.

(** How a single command fares on the way to the store and back:
    [Healthy] executes and answers; [Unreachable] never reaches the store;
    [ReplyLost] executes but the answer is lost. The client call throws in
    the last two cases. *)
Inductive fault := Healthy | Unreachable | ReplyLost.

Inductive set_reply := ReplyOK | ReplyNull.

Definition connection_error : js_error := mkError "Connection is closed".
Definition invalid_expire : js_error :=
  mkError "ERR invalid expire time in 'set' command".

(** Server side of [SET k v PX ttl NX]. *)
Definition exec_set_nx_px (k v : string) (ttl : Z) (s : store)
  : outcome set_reply * store :=
  if ttl <=? 0 then (Thrown invalid_expire, s)
  else match get s k with
       | Some _ => (Returned ReplyNull, s)
       | None =>
           (Returned ReplyOK,
            {| keys := <[k := Entry v (clock s + ttl)]> (keys s);
               clock := clock s |})
       end.

(** Server side of the release script:
    [if redis.call("get", KEYS[1]) == ARGV[1] then return redis.call("del", KEYS[1]) else return 0 end]. *)
Definition exec_release_script (k arg : string) (s : store)
  : outcome Z * store :=
  match get s k with
  | Some v =>
      if String.eqb v arg
      then (Returned 1, {| keys := delete k (keys s); clock := clock s |})
      else (Returned 0, s)
  | None => (Returned 0, s)
  end.

(** Client side of a command. *)
Definition call {A} (f : fault) (cmd : store -> outcome A * store)
  : M store A :=
  fun s => match f with
           | Healthy => cmd s
           | Unreachable => (Thrown connection_error, s)
           | ReplyLost => (Thrown connection_error, snd (cmd s))
           end.

Definition set_nx_px (f : fault) (k v : string) (ttl : Z) : M store set_reply :=
  call f (exec_set_nx_px k v ttl).

Definition eval_release (f : fault) (k arg : string) : M store Z :=
  call f (exec_release_script k arg).

(** Passage of time. *)
Definition elapse (ms : N) (s : store) : store :=
  {| keys := keys s; clock := clock s + Z.of_N ms |}.

End Redis.

(** ** utils/distributedLock.ts *)

Module DistributedLock.
Import Redis.

Record DistributedLock := { lockValue : string }.

(** [constructor]: [this.lockValue = randomBytes(16).toString('hex')];
    the sixteen random bytes are supplied by the environment. *)
Definition new_DistributedLock (randomBytes16 : list Byte.byte) : DistributedLock :=
  {| lockValue := to_hex randomBytes16 |}.

Definition lockKey (key : string) : string := "lock:" +:+ key.

Definition acquire (this : DistributedLock) (key : string) (ttlMs : Z)
    (f : fault) : M store bool :=
  try_catch
    (bind (set_nx_px f (lockKey key) (lockValue this) ttlMs)
          (fun result =>
             ret (match result with ReplyOK => true | ReplyNull => false end)))
    (fun _ => ret false).

Definition release (this : DistributedLock) (key : string)
    (f : fault) : M store bool :=
  try_catch
    (bind (eval_release f (lockKey key) (lockValue this))
          (fun result => ret (result =? 1)))
    (fun _ => ret false).

Definition lock_unavailable (key : string) : js_error :=
  mkError ("Failed to acquire lock: " +:+ key).

Definition withLock {T} (this : DistributedLock) (key : string) (ttlMs : Z)
    (callback : M store T) (fa fr : fault) : M store T :=
  bind (acquire this key ttlMs fa)
       (fun acquired =>
          if negb acquired then throw (lock_unavailable key)
          else try_finally callback (release this key fr)).

(** The module's singleton; its token is drawn once when the module loads. *)
Definition distributedLock (randomBytes16 : list Byte.byte) : DistributedLock :=
  new_DistributedLock randomBytes16.

(** *** Histories of lock calls by concurrent callers

    Every [acquire] and [release] is one atomic command of the store, so a
    concurrent execution is a sequence of such calls (by any instances, on
    any keys) interleaved with the passage of time. *)
Inductive lock_call :=
| CallAcquire (who : DistributedLock) (key : string) (ttlMs : Z) (f : fault)
| CallRelease (who : DistributedLock) (key : string) (f : fault)
| Elapse (ms : N).

Definition run_call (c : lock_call) (s : store) : option bool * store :=
  match c with
  | CallAcquire who key ttl f =>
      match acquire who key ttl f s with
      | (Returned b, s1) => (Some b, s1)
      | (Thrown _, s1) => (None, s1)
      end
  | CallRelease who key f =>
      match release who key f s with
      | (Returned b, s1) => (Some b, s1)
      | (Thrown _, s1) => (None, s1)
      end
  | Elapse ms => (None, elapse ms s)
  end.

Fixpoint run_calls (cs : list lock_call) (s : store) : store :=
  match cs with
  | [] => s
  | c :: rest => run_calls rest (snd (run_call c s))
  end.

(** Number of [acquire] calls on [key] that returned [true]. *)
Fixpoint wins (key : string) (cs : list lock_call) (s : store) : nat :=
  match cs with
  | [] => 0%nat
  | c :: rest =>
      let won :=
        match c with
        | CallAcquire _ key' _ _ =>
            if String.eqb key' key
            then match fst (run_call c s) with Some true => 1%nat | _ => 0%nat end
            else 0%nat
        | _ => 0%nat
        end in
      (won + wins key rest (snd (run_call c s)))%nat
  end.

(** The history contains no [release] of [key], and no lock on [key]
    expires while it runs. *)
Fixpoint no_release_or_expiry (key : string) (cs : list lock_call) (s : store) : bool :=
  match cs with
  | [] => true
  | c :: rest =>
      let s1 := snd (run_call c s) in
      match c with
      | CallRelease _ key' _ => negb (String.eqb key' key)
      | Elapse _ =>
          match get s (lockKey key) with
          | Some _ => bool_decide (is_Some (get s1 (lockKey key)))
          | None => true
          end
      | CallAcquire _ _ _ _ => true
      end && no_release_or_expiry key rest s1
  end.

(** The release guarantee of [withLock] read for every callback: once the
    lock was taken, the call ends with the callback's outcome, the key is
    free, and a fresh [acquire] with a valid TTL on a healthy store wins. *)
Definition withLock_frees_for_every_callback : Prop :=
  forall (T : Type) (this : DistributedLock) (key : string) (ttlMs : Z)
         (callback : M store T) (s : store),
    fst (acquire this key ttlMs Healthy s) = Returned true ->
    let done := withLock this key ttlMs callback Healthy Healthy s in
    fst done = fst (callback (snd (acquire this key ttlMs Healthy s))) /\
    get (snd done) (lockKey key) = None /\
    forall who ttl', 0 < ttl' ->
      fst (acquire who key ttl' Healthy (snd done)) = Returned true.

(** Sample instances and stores used in the examples. *)
Definition lockA : DistributedLock := new_DistributedLock (repeat Byte.x0a 16).
Definition lockB : DistributedLock := new_DistributedLock (repeat Byte.x0b 16).
Definition empty_store : store := {| keys := ∅; clock := 0 |}.

(** A callback that outlives a 100 ms lock while another instance takes
    the key. *)
Definition overrunning_callback : M store bool :=
  fun s => acquire lockB "job" 5000 Healthy (elapse 150 s).

End DistributedLock.

(** ** The peer-network wire codec: class [MessageParser] *)

Module WireCodec.

Definition byte_val (b : Byte.byte) : Z := Z.of_N (Byte.to_N b).

(** [buf[i]] on a Node [Buffer]: [undefined] outside [0, length). *)
Definition byte_at (buf : list Byte.byte) (i : Z) : option Z :=
  if i <? 0 then None else byte_val <$> buf !! Z.to_nat i.

Definition len (buf : list Byte.byte) : Z := Z.of_nat (length buf).

Definition out_of_range : js_error :=
  {| code := Some "ERR_OUT_OF_RANGE";
     message := Some "The value of offset is out of range." |}.

(** [Buffer.readUInt8(offset)] *)
Definition readUInt8 (buf : list Byte.byte) (offset : Z) : outcome Z :=
  match byte_at buf offset with
  | Some val => Returned val
  | None => Thrown out_of_range
  end.

(** [Buffer.readUInt32LE(offset)]: the first and the last byte are
    bounds-checked, then
    [first + this[++offset] * 2 ** 8 + this[++offset] * 2 ** 16 + last * 2 ** 24]. *)
Definition readUInt32LE (buf : list Byte.byte) (offset : Z) : outcome Z :=
  match byte_at buf offset, byte_at buf (offset + 3) with
  | Some first, Some last =>
      Returned (first
                + default 0 (byte_at buf (offset + 1)) * 2 ^ 8
                + default 0 (byte_at buf (offset + 2)) * 2 ^ 16
                + last * 2 ^ 24)
  | _, _ => Thrown out_of_range
  end.

(** [Buffer.readBigUInt64LE(offset)]: two 32-bit halves, [lo + (hi << 32n)]. *)
Definition readBigUInt64LE (buf : list Byte.byte) (offset : Z) : outcome Z :=
  match byte_at buf offset, byte_at buf (offset + 7) with
  | Some first, Some last =>
      let lo := first
                + default 0 (byte_at buf (offset + 1)) * 2 ^ 8
                + default 0 (byte_at buf (offset + 2)) * 2 ^ 16
                + default 0 (byte_at buf (offset + 3)) * 2 ^ 24 in
      let hi := default 0 (byte_at buf (offset + 4))
                + default 0 (byte_at buf (offset + 5)) * 2 ^ 8
                + default 0 (byte_at buf (offset + 6)) * 2 ^ 16
                + last * 2 ^ 24 in
      Returned (lo + Z.shiftl hi 32)
  | _, _ => Thrown out_of_range
  end.

(** The byte span that [Buffer.toString(encoding, start, end)] renders:
    [start] is clamped to 0, [end] to the length, and an empty or inverted
    range gives the empty string. *)
Definition toString_span (buf : list Byte.byte) (start end_ : Z) : list Byte.byte :=
  let start' := if start <=? 0 then 0 else start in
  if (0 <? start') && (start' >=? len buf) then []
  else
    let end' := if end_ >? len buf then len buf else end_ in
    if end' <=? start' then []
    else take (Z.to_nat (end' - start')) (drop (Z.to_nat start') buf).

Record MessageParser := { data : list Byte.byte; pointer : Z }.

(** [constructor(data)] *)
Definition new_MessageParser (data : list Byte.byte) : MessageParser :=
  {| data := data; pointer := 0 |}.

Definition set_pointer (this : MessageParser) (p : Z) : MessageParser :=
  {| data := data this; pointer := p |}.

Definition underflow (what : string) : js_error :=
  mkError ("Buffer underflow: cannot read " +:+ what).

(** A fixed-width read: check, read at the cursor, advance. *)
Definition read_fixed (width : Z) (what : string)
    (read : list Byte.byte -> Z -> outcome Z) : M MessageParser Z :=
  fun this =>
    if pointer this + width >? len (data this)
    then (Thrown (underflow what), this)
    else match read (data this) (pointer this) with
         | Returned value => (Returned value, set_pointer this (pointer this + width))
         | Thrown e => (Thrown e, this)
         end.

Definition int8 : M MessageParser Z := read_fixed 1 "int8" readUInt8.
Definition int32 : M MessageParser Z := read_fixed 4 "int32" readUInt32LE.
Definition int64 : M MessageParser Z := read_fixed 8 "int64" readBigUInt64LE.

Definition rawHexStr (size : Z) : M MessageParser string :=
  fun this =>
    if pointer this + size >? len (data this)
    then (Thrown (underflow "raw hex string"), this)
    else (Returned (to_hex (toString_span (data this) (pointer this)
                              (pointer this + size))),
          set_pointer this (pointer this + size)).

Section Utf8.
(** The runtime's UTF-8 decoder and its string type. *)
Variable text : Type.
Variable utf8 : list Byte.byte -> text.

Definition str : M MessageParser text :=
  fun this =>
    if pointer this + 4 >? len (data this)
    then (Thrown (underflow "string length"), this)
    else match readUInt32LE (data this) (pointer this) with
         | Thrown e => (Thrown e, this)
         | Returned size =>
             let this1 := set_pointer this (pointer this + 4) in
             if pointer this1 + size >? len (data this1)
             then (Thrown (underflow "string data"), this1)
             else (Returned (utf8 (toString_span (data this1) (pointer this1)
                                     (pointer this1 + size))),
                   set_pointer this1 (pointer this1 + size))
         end.
End Utf8.

(** *** Reference reading of the wire format *)

(** Little-endian value of a byte span. *)
Fixpoint le_value (bs : list Byte.byte) : Z :=
  match bs with
  | [] => 0
  | b :: rest => byte_val b + 256 * le_value rest
  end.

(** The [n] bytes at the cursor. *)
Definition span (this : MessageParser) (n : Z) : list Byte.byte :=
  take (Z.to_nat n) (drop (Z.to_nat (pointer this)) (data this)).

Definition remaining (this : MessageParser) : Z :=
  len (data this) - pointer this.

(** The [n] bytes at offset [p] of a buffer. *)
Definition bytes_at (buf : list Byte.byte) (p n : Z) : list Byte.byte :=
  take (Z.to_nat n) (drop (Z.to_nat p) buf).

(** *** The read contract *)

(** What the contract asks of a read that needs [width] bytes at [this],
    [result] being what the read answered and the parser it left. With
    fewer than [width] bytes remaining: the underflow error, the cursor
    where it was. Otherwise: the value decoded from the [width] bytes at
    the cursor, all of them, and the cursor [width] further. The buffer
    stays the same either way. *)
Definition reads_as {A} (result : outcome A * MessageParser) (this : MessageParser)
    (width : Z) (what : string) (decode : list Byte.byte -> A) : Prop :=
  data result.2 = data this /\
  if remaining this <? width
  then result.1 = Thrown (underflow what) /\ pointer result.2 = pointer this
  else result.1 = Returned (decode (span this width)) /\
       length (span this width) = Z.to_nat width /\
       pointer result.2 = pointer this + width.

(** The same for [str]: the four-byte length prefix is checked first, the
    declared payload length second, with the cursor then past the prefix. *)
Definition str_reads_as {text} (utf8 : list Byte.byte -> text)
    (result : outcome text * MessageParser) (this : MessageParser) : Prop :=
  data result.2 = data this /\
  if remaining this <? 4
  then result.1 = Thrown (underflow "string length") /\ pointer result.2 = pointer this
  else
    let n := le_value (span this 4) in
    let payload := bytes_at (data this) (pointer this + 4) n in
    if remaining this - 4 <? n
    then result.1 = Thrown (underflow "string data") /\
         pointer result.2 = pointer this + 4
    else result.1 = Returned (utf8 payload) /\
         length payload = Z.to_nat n /\
         pointer result.2 = pointer this + 4 + n.

Definition read_contract (text : Type) (utf8 : list Byte.byte -> text)
    (this : MessageParser) (size : Z) : Prop :=
  reads_as (int8 this) this 1 "int8" le_value /\
  reads_as (int32 this) this 4 "int32" le_value /\
  reads_as (int64 this) this 8 "int64" le_value /\
  str_reads_as utf8 (str text utf8 this) this /\
  reads_as (rawHexStr size this) this size "raw hex string" to_hex.

(** The contract read for every buffer and every cursor position, the
    requested width of [rawHexStr] being a width. *)
Definition read_contract_at_every_cursor : Prop :=
  forall (text : Type) (utf8 : list Byte.byte -> text) (this : MessageParser) (size : Z),
    0 <= size -> read_contract text utf8 this size.

(** A parser on two bytes whose cursor a [rawHexStr(-1)] has moved in
    front of the buffer. *)
Definition rewound : MessageParser :=
  snd (rawHexStr (-1) (new_MessageParser [Byte.x01; Byte.x02])).

End WireCodec.

(** ** services/discovery/optimisticBatchUpdate.ts *)

Module OptimisticBatchUpdate.

(** [String.prototype.includes] *)
Fixpoint includes (hay needle : string) : bool :=
  String.prefix needle hay
  || match hay with
     | EmptyString => false
     | String _ rest => includes rest needle
     end.

(** A number inside a template literal. *)
Definition show_Z (z : Z) : string := NilZero.string_of_int (Z.to_int z).

(** A possibly missing string inside a template literal. *)
Definition show_message (m : option string) : string := default "undefined" m.

(** A row of the [discoveryBatch] table, as far as updates touch it. *)
Record Batch := {
  status : string;
  totalAlbums : Z;
  completedAlbums : Z;
  failedAlbums : Z;
  finalSongCount : option Z;
  errorMessage : option string;
  completedAt : option Z;
  version : option Z
}.

Record BatchUpdateData := {
  d_status : option string;
  d_totalAlbums : option Z;
  d_completedAlbums : option Z;
  d_failedAlbums : option Z;
  d_finalSongCount : option Z;
  d_errorMessage : option (option string);
  d_completedAt : option Z
}.

Record BatchUpdateResult := {
  success : bool;
  r_version : option Z;
  retries : Z;
  error : option string
}.

Record UpdateOptions := { maxRetries : option Z; retryDelayMs : option Z }.

Definition DEFAULT_MAX_RETRIES : Z := 10.
Definition DEFAULT_RETRY_DELAY_MS : Z := 50.

Abbreviation table := (gmap string Batch).

(** [data: { ...data, version: nextVersion }]: the fields present in
    [data] overwrite the row's, the others stay. *)
Definition write_row (d : BatchUpdateData) (nextVersion : Z) (row : Batch) : Batch :=
  {| status := default (status row) (d_status d);
     totalAlbums := default (totalAlbums row) (d_totalAlbums d);
     completedAlbums := default (completedAlbums row) (d_completedAlbums d);
     failedAlbums := default (failedAlbums row) (d_failedAlbums d);
     finalSongCount :=
       match d_finalSongCount d with Some n => Some n | None => finalSongCount row end;
     errorMessage := default (errorMessage row) (d_errorMessage d);
     completedAt :=
       match d_completedAt d with Some t => Some t | None => completedAt row end;
     version := Some nextVersion |}.

(** The Prisma client. A call may fail with an error of the environment's
    choosing before it reaches the table ([Some e]). *)
Definition record_not_found : js_error :=
  {| code := Some "P2025";
     message := Some "An operation failed because it depends on one or more records that were required but not found. Record to update not found." |}.

(** [findUnique({ where: { id }, select: { version: true } })] *)
Definition findUnique (fault : option js_error) (id : string) (db : table)
  : outcome (option (option Z)) :=
  match fault with
  | Some e => Thrown e
  | None => Returned (version <$> db !! id)
  end.

(** [update({ where: { id, version }, data })]: rewrites the row that has
    this id and this version, and rejects with P2025 when there is none. *)
Definition update (fault : option js_error) (id : string) (whereVersion : Z)
    (d : BatchUpdateData) (nextVersion : Z) (db : table)
  : outcome Batch * table :=
  match fault with
  | Some e => (Thrown e, db)
  | None =>
      match db !! id with
      | Some row =>
          if bool_decide (version row = Some whereVersion)
          then let row' := write_row d nextVersion row in
               (Returned row', <[id := row']> db)
          else (Thrown record_not_found, db)
      | None => (Thrown record_not_found, db)
      end
  end.

(** *** One call of [updateBatchStatus] as a task

    The call suspends at each [await]; between two suspension points it
    runs alone. *)
Inductive point :=
| LoopHead                       (* about to test [retries <= maxRetries] *)
| HaveCurrent (currentVersion : Z) (* [findUnique] answered; about to [update] *)
| Backoff                        (* sleeping [retryDelayMs * Math.random()] *)
| Finished (r : BatchUpdateResult).

Record task := {
  batchId : string;
  data : BatchUpdateData;
  options : UpdateOptions;
  t_retries : Z;
  at_ : point
}.

Definition t_maxRetries (t : task) : Z :=
  default DEFAULT_MAX_RETRIES (maxRetries (options t)).

(** Entry of the call: [let retries = 0] and the first loop test ahead. *)
Definition updateBatchStatus (batchId : string) (data : BatchUpdateData)
    (options : UpdateOptions) : task :=
  {| batchId := batchId; data := data; options := options;
     t_retries := 0; at_ := LoopHead |}.

Definition goto (t : task) (retries : Z) (p : point) : task :=
  {| batchId := batchId t; data := data t; options := options t;
     t_retries := retries; at_ := p |}.

Definition isVersionConflict (e : js_error) : bool :=
  bool_decide (code e = Some "P2025")
  || match message e with
     | Some m => includes m "Record to update not found"
     | None => false
     end.

(** The [catch] block. *)
Definition on_error (t : task) (e : js_error) : task :=
  if isVersionConflict e then
    let retries := t_retries t + 1 in
    if retries >? t_maxRetries t then
      goto t retries
        (Finished {| success := false; r_version := None; retries := retries;
                     error := Some ("Max retries reached after "
                                    +:+ show_Z (t_maxRetries t) +:+ " attempts") |})
    else goto t retries Backoff
  else
    goto t (t_retries t)
      (Finished {| success := false; r_version := None; retries := t_retries t;
                   error := Some ("Unexpected error: " +:+ show_message (message e)) |}).

(** One step of the task against the table; the boolean tells whether the
    step rewrote the row. *)
Definition updateBatchStatus_step (t : task) (fault : option js_error) (db : table)
  : task * table * bool :=
  match at_ t with
  | LoopHead =>
      if t_retries t <=? t_maxRetries t then
        match findUnique fault (batchId t) db with
        | Thrown e => (on_error t e, db, false)
        | Returned None =>
            (goto t (t_retries t)
               (Finished {| success := false; r_version := None;
                            retries := t_retries t;
                            error := Some ("Batch " +:+ batchId t +:+ " not found") |}),
             db, false)
        | Returned (Some current_version) =>
            (goto t (t_retries t) (HaveCurrent (default 0 current_version)), db, false)
        end
      else
        (goto t (t_retries t)
           (Finished {| success := false; r_version := None; retries := t_retries t;
                        error := Some "Update loop exited unexpectedly" |}),
         db, false)
  | HaveCurrent currentVersion =>
      let nextVersion := currentVersion + 1 in
      match update fault (batchId t) currentVersion (data t) nextVersion db with
      | (Returned updated, db') =>
          (goto t (t_retries t)
             (Finished {| success := true;
                          r_version := Some (default nextVersion (version updated));
                          retries := t_retries t; error := None |}),
           db', true)
      | (Thrown e, db') => (on_error t e, db', false)
      end
  | Backoff => (goto t (t_retries t) LoopHead, db, false)
  | Finished _ => (t, db, false)
  end.

(** *** Concurrent calls

    The calls in flight share the table; a schedule names, turn by turn,
    the call that runs its next step and the fault that step meets. [log]
    records which call rewrote a row, in order. *)
Record system := { db : table; tasks : list task; log : list nat }.

Definition turn (i : nat) (fault : option js_error) (σ : system) : system :=
  match tasks σ !! i with
  | None => σ
  | Some t =>
      match updateBatchStatus_step t fault (db σ) with
      | (t', db', wrote) =>
          {| db := db'; tasks := <[i := t']> (tasks σ);
             log := if wrote then log σ ++ [i] else log σ |}
      end
  end.

Fixpoint run (schedule : list (nat * option js_error)) (σ : system) : system :=
  match schedule with
  | [] => σ
  | (i, fault) :: rest => run rest (turn i fault σ)
  end.

Definition result_of (t : task) : option BatchUpdateResult :=
  match at_ t with Finished r => Some r | _ => None end.

Definition succeeded (t : task) : bool :=
  match at_ t with Finished r => success r | _ => false end.

(** The row after the writes of the calls in [order], one after another. *)
Definition replay (calls : list task) (order : list nat) (row : Batch) : Batch :=
  foldl (fun r i =>
           match calls !! i with
           | Some t => write_row (data t) (default 0 (version r) + 1) r
           | None => r
           end) row order.

(** Number of turns given to call [i]. *)
Definition turns (i : nat) (schedule : list (nat * option js_error)) : nat :=
  length (filter (fun e => e.1 = i) schedule).

(** Turns after which a call has surely returned. *)
Definition budget (t : task) : nat :=
  let rounds := Z.to_nat (t_maxRetries t + 1 - t_retries t) in
  match at_ t with
  | Finished _ => 0
  | HaveCurrent _ => 3 * rounds + 1
  | LoopHead => 3 * rounds + 2
  | Backoff => 3 * rounds + 3
  end%nat.

(** A single caller whose every [update] is rejected as a version
    conflict: read, rejected write, back-off, over and over. *)
Definition always_conflicting (rounds : nat) : list (nat * option js_error) :=
  mjoin (replicate rounds [(0%nat, None); (0%nat, Some record_not_found); (0%nat, None)]).

(** *** Auxiliary notions for the properties below *)

Definition max_retries_result (o : UpdateOptions) : BatchUpdateResult :=
  let m := default DEFAULT_MAX_RETRIES (maxRetries o) in
  {| success := false; r_version := None; retries := m + 1;
     error := Some ("Max retries reached after " +:+ show_Z m +:+ " attempts") |}.

Definition sample_batch : Batch :=
  {| status := "downloading"; totalAlbums := 0; completedAlbums := 0;
     failedAlbums := 0; finalSongCount := None; errorMessage := None;
     completedAt := None; version := Some 0 |}.

Definition no_change : BatchUpdateData :=
  {| d_status := None; d_totalAlbums := None; d_completedAlbums := None;
     d_failedAlbums := None; d_finalSongCount := None; d_errorMessage := None;
     d_completedAt := None |}.

(** The value a field ends with when the updates named in [order] are
    applied one after another: the one given by the last of them that sets
    the field, and the initial value when none does. *)
Definition last_set {A} (field : BatchUpdateData -> option A)
    (updates : list BatchUpdateData) (order : list nat) (initial : A) : A :=
  default initial (last (omap (fun i => updates !! i ≫= field) order)).

(** Every field of [row] carries the updates named in [order]: each
    update's fields are in the row unless a later one of [order] has
    overwritten them, and a field no update sets is as in [row0]. *)
Definition fields_applied (updates : list BatchUpdateData) (order : list nat)
    (row0 row : Batch) : Prop :=
  status row = last_set d_status updates order (status row0) /\
  totalAlbums row = last_set d_totalAlbums updates order (totalAlbums row0) /\
  completedAlbums row = last_set d_completedAlbums updates order (completedAlbums row0) /\
  failedAlbums row = last_set d_failedAlbums updates order (failedAlbums row0) /\
  finalSongCount row
  = last_set (fun d => Some <$> d_finalSongCount d) updates order (finalSongCount row0) /\
  errorMessage row = last_set d_errorMessage updates order (errorMessage row0) /\
  completedAt row
  = last_set (fun d => Some <$> d_completedAt d) updates order (completedAt row0).

(** What holds of the shared record at every moment of a concurrent
    run: it is the initial row after the logged writes, its version
    counts them, and the log lists, once each, the calls that succeeded. *)
Record consistent (id : string) (row0 : Batch) (calls : list task)
    (σ : system) : Prop := {
  c_args : forall i t, tasks σ !! i = Some t ->
             batchId t = id /\ exists t0, calls !! i = Some t0 /\ data t = data t0;
  c_row : db σ !! id = Some (replay calls (log σ) row0);
  c_version : version (replay calls (log σ) row0)
              = Some (Z.of_nat (length (log σ)));
  c_nodup : NoDup (log σ);
  c_log : forall i, i ∈ log σ <-> exists t, tasks σ !! i = Some t /\ succeeded t = true
}.

Definition set_completed (n : Z) : BatchUpdateData :=
  {| d_status := None; d_totalAlbums := None; d_completedAlbums := Some n;
     d_failedAlbums := None; d_finalSongCount := None; d_errorMessage := None;
     d_completedAt := None |}.

Definition set_failed (n : Z) : BatchUpdateData :=
  {| d_status := None; d_totalAlbums := None; d_completedAlbums := None;
     d_failedAlbums := Some n; d_finalSongCount := None; d_errorMessage := None;
     d_completedAt := None |}.

Definition default_options : UpdateOptions :=
  {| maxRetries := None; retryDelayMs := None |}.

(** Both calls read version 0; the first writes, the second is rejected,
    backs off, reads again and writes. *)
Definition racing_schedule : list (nat * option js_error) :=
  [(0, None); (1, None); (0, None); (1, None); (1, None); (1, None); (1, None)]%nat.

End OptimisticBatchUpdate.

(** ** The Lidarr webhook route *)

Module Webhook.

(** The request body, as far as the route reads it. *)
Record payload := {
  eventType : string;
  downloadId : option string;
  p_message : option string
}.

Record request := { x_webhook_secret : option string; body : payload }.

Record settings := {
  lidarrEnabled : bool;
  lidarrUrl : option string;
  lidarrApiKey : option string;
  lidarrWebhookSecret : option string
}.

(** JavaScript truthiness of a possibly missing string. *)
Definition truthy (v : option string) : bool :=
  match v with
  | Some v => negb (String.eqb v "")
  | None => false
  end.

Inductive reply :=
| Ignored                       (* 202 { success, ignored, reason } *)
| Unauthorized                  (* 401 { error } *)
| Stored (eventId : string)     (* 200 { success: true, eventId } *)
| Failed.                       (* 500 { error } *)

(** What the route does to the outside, in order. *)
Inductive effect :=
| GetSystemSettings
| StoreEvent (source type_ : string) (p : payload)
| Respond (r : reply)
| OnDownloadGrabbed (p : payload)
| OnDownloadComplete (p : payload)
| OnImportFailed (p : payload)
| QueueCleanerStart
| FindJob (jobId : string)
| ScanQueueAdd (downloadId : option string)
| MarkProcessed (eventId : string) (correlationId : option string)
| MarkFailed (eventId : string) (reason : option string)
| LogError (where_ : string) (reason : option string)
| Metrics (event_type status : string)
| Rejected (error : js_error).   (* the call just made threw [error] *)

Definition is_response (e : effect) : bool :=
  match e with Respond _ => true | _ => false end.

(** Code that performs effects and returns or throws. *)
Definition W (A : Type) : Type := outcome A * list effect.

Definition retW {A} (a : A) : W A := (Returned a, []).
Definition bindW {A B} (m : W A) (k : A -> W B) : W B :=
  match m with
  | (Returned a, t1) => let '(r, t2) := k a in (r, t1 ++ t2)
  | (Thrown e, t1) => (Thrown e, t1)
  end.
Definition catchW {A} (m : W A) (handler : js_error -> W A) : W A :=
  match m with
  | (Returned a, t1) => (Returned a, t1)
  | (Thrown e, t1) => let '(r, t2) := handler e in (r, t1 ++ t2)
  end.
(** An awaited call of a collaborator: it is performed and answers as the
    environment has it; a thrown error is noted in the trace. *)
Definition perform {A} (e : effect) (answer : outcome A) : W A :=
  (answer, e :: match answer with
                | Thrown error => [Rejected error]
                | Returned _ => []
                end).
Definition emit (e : effect) : W unit := (Returned tt, [e]).

(** The collaborators of the route and how they answer. *)
Record env := {
  getSystemSettings : outcome (option settings);
  storeEvent : string -> string -> payload -> outcome string;
  onDownloadGrabbed : payload -> outcome (bool * option string);
  onDownloadComplete : payload -> outcome (option string);
  onImportFailed : payload -> outcome (option string);
  queueCleaner_start : outcome unit;
  findJob : string -> outcome unit;
  scanQueue_add : option string -> outcome unit;
  markProcessed : string -> option string -> outcome unit;
  markFailed : string -> option string -> outcome unit
}.

Section Route.
Variable E : env.

Definition handleGrab (p : payload) : W (option string) :=
  if negb (truthy (downloadId p)) then retW None
  else
    bindW (perform (OnDownloadGrabbed p) (onDownloadGrabbed E p))
      (fun result =>
         if result.1 then
           bindW (perform QueueCleanerStart (queueCleaner_start E))
                 (fun _ => retW result.2)
         else retW None).

Definition handleDownload (p : payload) : W (option string) :=
  if negb (truthy (downloadId p)) then retW None
  else
    bindW (perform (OnDownloadComplete p) (onDownloadComplete E p))
      (fun jobId =>
         match jobId with
         | Some j =>
             if truthy jobId then
               bindW (perform (FindJob j) (findJob E j))
                 (fun _ =>
                    bindW (perform (ScanQueueAdd jobId) (scanQueue_add E jobId))
                      (fun _ => retW jobId))
             else
               bindW (perform (ScanQueueAdd None) (scanQueue_add E None))
                 (fun _ => retW None)
         | None =>
             bindW (perform (ScanQueueAdd None) (scanQueue_add E None))
               (fun _ => retW None)
         end).

Definition handleImportFailure (p : payload) : W (option string) :=
  if negb (truthy (downloadId p)) then retW None
  else perform (OnImportFailed p) (onImportFailed E p).

(** The [switch (eventType)] of [processWebhookEvent]. *)
Inductive branch := GrabCase | DownloadCase | FailureCase | HealthCase | DefaultCase.

Definition switch (eventType : string) : branch :=
  if String.eqb eventType "Grab" then GrabCase
  else if String.eqb eventType "Download" then DownloadCase
  else if String.eqb eventType "AlbumDownload" then DownloadCase
  else if String.eqb eventType "TrackRetag" then DownloadCase
  else if String.eqb eventType "Rename" then DownloadCase
  else if String.eqb eventType "ImportFailure" then FailureCase
  else if String.eqb eventType "DownloadFailed" then FailureCase
  else if String.eqb eventType "DownloadFailure" then FailureCase
  else if String.eqb eventType "Health" then HealthCase
  else if String.eqb eventType "HealthIssue" then HealthCase
  else if String.eqb eventType "HealthRestored" then HealthCase
  else if String.eqb eventType "Test" then HealthCase
  else DefaultCase.

(** The [try] block of [processWebhookEvent]. *)
Definition process_try (eventId eventType : string) (p : payload) : W unit :=
  bindW (match switch eventType with
         | GrabCase => handleGrab p
         | DownloadCase => handleDownload p
         | FailureCase => handleImportFailure p
         | HealthCase => retW None
         | DefaultCase => retW None
         end)
        (fun correlationId =>
           perform (MarkProcessed eventId correlationId)
                   (markProcessed E eventId correlationId)).

(** [try { ... } catch (error) { status = 'failed'; ... markFailed ... }
    finally { metrics }]: [status] is 'success' unless the [catch] block
    was entered. *)
Definition processWebhookEvent (eventId eventType : string) (p : payload) : W unit :=
  match process_try eventId eventType p with
  | (Returned _, t1) =>
      (Returned tt, t1 ++ [Metrics eventType "success"])
  | (Thrown error, t1) =>
      let '(r, t2) :=
        bindW (emit (LogError "[WEBHOOK] Event processing failed:" (message error)))
              (fun _ => perform (MarkFailed eventId (message error))
                                (markFailed E eventId (message error))) in
      (r, t1 ++ t2 ++ [Metrics eventType "failed"])
  end.

(** [router.post("/lidarr", async (req, res) => ...)] *)
Definition post_lidarr (req : request) : W unit :=
  catchW
    (bindW (perform GetSystemSettings (getSystemSettings E))
       (fun st =>
          let enabled :=
            match st with
            | Some st => lidarrEnabled st && truthy (lidarrUrl st)
                         && truthy (lidarrApiKey st)
            | None => false
            end in
          if negb enabled then emit (Respond Ignored)
          else
            let secret := st ≫= lidarrWebhookSecret in
            if truthy secret
               && (negb (truthy (x_webhook_secret req))
                   || negb (bool_decide (x_webhook_secret req = secret)))
            then emit (Respond Unauthorized)
            else
              let eventType := eventType (body req) in
              bindW (perform (StoreEvent "lidarr" eventType (body req))
                             (storeEvent E "lidarr" eventType (body req)))
                (fun storedEvent_id =>
                   bindW (emit (Respond (Stored storedEvent_id)))
                     (fun _ =>
                        catchW (processWebhookEvent storedEvent_id eventType (body req))
                          (fun error =>
                             emit (LogError "[WEBHOOK] Failed to process event"
                                            (message error)))))))
    (fun error =>
       bindW (emit (LogError "Webhook error:" (message error)))
             (fun _ => emit (Respond Failed))).

(** The request passes the route's guards: Lidarr is configured and the
    secret, when one is set, matches. *)
Definition accepted (req : request) : bool :=
  match getSystemSettings E with
  | Returned (Some st) =>
      lidarrEnabled st && truthy (lidarrUrl st) && truthy (lidarrApiKey st)
      && negb (truthy (lidarrWebhookSecret st)
               && (negb (truthy (x_webhook_secret req))
                   || negb (bool_decide (x_webhook_secret req = lidarrWebhookSecret st))))
  | _ => false
  end.

End Route.

(** The recording guarantee read for every error of the processing: whatever
    a call made during [processWebhookEvent] throws is handed to
    [markFailed] for the event. *)
Definition every_processing_error_reaches_markFailed : Prop :=
  forall (E : env) (eventId type_ : string) (p : payload) (error : js_error),
    Rejected error ∈ snd (processWebhookEvent E eventId type_ p) ->
    MarkFailed eventId (message error) ∈ snd (processWebhookEvent E eventId type_ p).

(** A configured instance whose download manager is down. *)
Definition lidarr_settings : settings :=
  {| lidarrEnabled := true; lidarrUrl := Some "http://lidarr:8686";
     lidarrApiKey := Some "key"; lidarrWebhookSecret := Some "s3cret" |}.

Definition manager_down : js_error := mkError "download manager unavailable".

Definition failing_env : env :=
  {| getSystemSettings := Returned (Some lidarr_settings);
     storeEvent := fun _ _ _ => Returned "evt-1";
     onDownloadGrabbed := fun _ => Thrown manager_down;
     onDownloadComplete := fun _ => Thrown manager_down;
     onImportFailed := fun _ => Thrown manager_down;
     queueCleaner_start := Returned tt;
     findJob := fun _ => Returned tt;
     scanQueue_add := fun _ => Returned tt;
     markProcessed := fun _ _ => Returned tt;
     markFailed := fun _ _ => Returned tt |}.

Definition store_down : js_error := mkError "event store unavailable".

(** The same, with the event store failing as well. *)
Definition all_down_env : env :=
  {| getSystemSettings := Returned (Some lidarr_settings);
     storeEvent := fun _ _ _ => Returned "evt-1";
     onDownloadGrabbed := fun _ => Thrown manager_down;
     onDownloadComplete := fun _ => Thrown manager_down;
     onImportFailed := fun _ => Thrown manager_down;
     queueCleaner_start := Returned tt;
     findJob := fun _ => Returned tt;
     scanQueue_add := fun _ => Returned tt;
     markProcessed := fun _ _ => Thrown store_down;
     markFailed := fun _ _ => Thrown store_down |}.

Definition grab_request : request :=
  {| x_webhook_secret := Some "s3cret";
     body := {| eventType := "Grab"; downloadId := Some "dl-7"; p_message := None |} |}.

End Webhook.

(** ** Job de-duplication of the acquisition service *)

Module Acquisition.

Inductive job_status := pending | processing | completed | failed.

Definition terminal (s : job_status) : bool :=
  match s with completed | failed => true | pending | processing => false end.

(** Modelled from the spec: the job table is not among the sources; section 3
    gives a job its identity (ownerId, batchId, targetId) and its status. *)
Definition tuple : Type := string * string * string.

Record DownloadJob := {
  id : nat;
  identity : tuple;
  status : job_status
}.

Definition active_for (k : tuple) (j : DownloadJob) : bool :=
  bool_decide (identity j = k) && negb (terminal (status j)).

(** The first non-terminal job of the tuple, if any. *)
Definition find_active (k : tuple) (jobs : list DownloadJob) : option DownloadJob :=
  List.find (active_for k) jobs.

(** An id the table does not hold yet. *)
Definition fresh_id (jobs : list DownloadJob) : nat :=
  S (foldr Nat.max 0%nat (id <$> jobs)).

Definition new_job (k : tuple) (jobs : list DownloadJob) : DownloadJob :=
  {| id := fresh_id jobs; identity := k; status := pending |}.

(** Where a call of [createDownloadJob] stands. *)
Inductive point :=
| Waiting                      (* wants the lock of its tuple *)
| Checking                     (* holds the lock; about to look for an active job *)
| Inserting                    (* holds the lock; found none; about to insert *)
| Releasing (j : DownloadJob)  (* holds the lock; about to release it *)
| Resolved (j : DownloadJob).

Record call := { key : tuple; at_ : point }.

Record system := {
  jobs : list DownloadJob;
  locks : gset tuple;
  calls : list call
}.

(** Modelled from the spec: [createDownloadJob] itself is not among the
    sources (only the manual script that calls it is). Following section
    4.6, a call takes the lock keyed by its (owner, batch, target) tuple,
    which it can only do while nobody holds it; under the lock it looks for
    an existing non-terminal job of the tuple, returns it unchanged when
    there is one and inserts a new job row otherwise; then it releases the
    lock. The look-up and the insert are two operations on the table. *)
Definition createDownloadJob_step (c : call) (jobs : list DownloadJob) (locks : gset tuple)
  : call * list DownloadJob * gset tuple :=
  match at_ c with
  | Waiting =>
      if bool_decide (key c ∈ locks) then (c, jobs, locks)
      else ({| key := key c; at_ := Checking |}, jobs, {[ key c ]} ∪ locks)
  | Checking =>
      match find_active (key c) jobs with
      | Some existing => ({| key := key c; at_ := Releasing existing |}, jobs, locks)
      | None => ({| key := key c; at_ := Inserting |}, jobs, locks)
      end
  | Inserting =>
      let j := new_job (key c) jobs in
      ({| key := key c; at_ := Releasing j |}, jobs ++ [j], locks)
  | Releasing j =>
      ({| key := key c; at_ := Resolved j |}, jobs, locks ∖ {[ key c ]})
  | Resolved _ => (c, jobs, locks)
  end.

(** Modelled from the spec: a fresh call of [createDownloadJob(target, owner)]
    for the tuple, before it has taken the lock. *)
Definition createDownloadJob (k : tuple) : call := {| key := k; at_ := Waiting |}.

Definition turn (i : nat) (σ : system) : system :=
  match calls σ !! i with
  | None => σ
  | Some c =>
      match createDownloadJob_step c (jobs σ) (locks σ) with
      | (c', jobs', locks') =>
          {| jobs := jobs'; locks := locks'; calls := <[i := c']> (calls σ) |}
      end
  end.

Fixpoint run (schedule : list nat) (σ : system) : system :=
  match schedule with
  | [] => σ
  | i :: rest => run rest (turn i σ)
  end.

Definition resolved (c : call) : option DownloadJob :=
  match at_ c with Resolved j => Some j | _ => None end.

Definition in_critical_section (c : call) : bool :=
  match at_ c with
  | Checking | Inserting | Releasing _ => true
  | Waiting | Resolved _ => false
  end.

(** Two calls for the same tuple against a table, nobody holding the lock. *)
Definition two_calls (k : tuple) (jobs0 : list DownloadJob) : system :=
  {| jobs := jobs0; locks := ∅;
     calls := [createDownloadJob k; createDownloadJob k] |}.

(** Turns that let both calls finish from wherever they stand. *)
Definition drain : list nat := [0; 0; 0; 0; 1; 1; 1; 1; 0; 0; 0; 0]%nat.

(** *** Auxiliary notions for the properties below *)

(** Either nothing was inserted yet, or the one new row was. *)
Definition phase (k : tuple) (jobs0 : list DownloadJob) (σ : system) : Prop :=
  (jobs σ = jobs0 /\
   forall i c, calls σ !! i = Some c ->
     match at_ c with
     | Inserting => find_active k jobs0 = None
     | Releasing j | Resolved j => find_active k jobs0 = Some j
     | _ => True
     end)
  \/
  (find_active k jobs0 = None /\
   jobs σ = jobs0 ++ [new_job k jobs0] /\
   forall i c, calls σ !! i = Some c ->
     match at_ c with
     | Inserting => False
     | Releasing j | Resolved j => j = new_job k jobs0
     | _ => True
     end).

(** What holds at every moment of a run of calls for the tuple [k] that
    started on the table [jobs0]. *)
Record inv (k : tuple) (jobs0 : list DownloadJob) (σ : system) : Prop := {
  inv_key : forall i c, calls σ !! i = Some c -> key c = k;
  inv_lock : k ∈ locks σ <->
             exists i c, calls σ !! i = Some c /\ in_critical_section c = true;
  inv_mutex : forall i j ci cj,
      calls σ !! i = Some ci -> calls σ !! j = Some cj ->
      in_critical_section ci = true -> in_critical_section cj = true -> i = j;
  inv_phase : phase k jobs0 σ
}.

(** Steps left to a call that is not kept waiting. *)
Definition steps_left (c : call) : nat :=
  match at_ c with
  | Waiting => 4 | Checking => 3 | Inserting => 2 | Releasing _ => 1 | Resolved _ => 0
  end.

Definition album : tuple := ("test-user", "test-batch", "test-mbid").

Definition finished_job : DownloadJob :=
  {| id := 1; identity := album; status := completed |}.

End Acquisition.

(** ** Sequences of reads on a [MessageParser] *)

Module WireCodecReads.
Import WireCodec.

(** A cursor inside the buffer, or at its end. *)
Definition in_buffer (this : MessageParser) : Prop :=
  0 <= pointer this <= len (data this).

(** One call of a read method; [ReadRawHex] carries its [size] argument. *)
Inductive read := ReadInt8 | ReadInt32 | ReadInt64 | ReadStr | ReadRawHex (size : N).

Section Utf8.
Variable text : Type.
Variable utf8 : list Byte.byte -> text.

(** The parser after the call, whether it returned or threw. *)
Definition after_read (r : read) (this : MessageParser) : MessageParser :=
  match r with
  | ReadInt8 => snd (int8 this)
  | ReadInt32 => snd (int32 this)
  | ReadInt64 => snd (int64 this)
  | ReadStr => snd (str text utf8 this)
  | ReadRawHex size => snd (rawHexStr (Z.of_N size) this)
  end.

Definition after_reads (rs : list read) (this : MessageParser) : MessageParser :=
  foldl (fun p r => after_read r p) this rs.

End Utf8.

End WireCodecReads.

(** ** Calls of [updateBatchStatus] one after another *)

Module OptimisticBatchUpdateRuns.
Import OptimisticBatchUpdate.

(** A call that meets no fault and has the table to itself for its two
    turns: the read and the write. *)
Definition alone (id : string) (d : BatchUpdateData) (o : UpdateOptions)
    (dbv : table) : system :=
  run [(0%nat, None); (0%nat, None)]
      {| db := dbv; tasks := [updateBatchStatus id d o]; log := [] |}.

(** [await updateBatchStatus(id, d1); await updateBatchStatus(id, d2); ...]:
    the table at the end and what each call returned. *)
Fixpoint one_after_another (id : string)
    (requests : list (BatchUpdateData * UpdateOptions)) (dbv : table)
  : table * list (option BatchUpdateResult) :=
  match requests with
  | [] => (dbv, [])
  | rq :: rest =>
      let σ := alone id rq.1 rq.2 dbv in
      let '(dbv', results) := one_after_another id rest (db σ) in
      (dbv', (result_of <$> tasks σ) ++ results)
  end.

Definition succeeded_with (version : Z) : BatchUpdateResult :=
  {| success := true; r_version := Some version; retries := 0; error := None |}.

(** What holds of a call at each of its points: the retry counter is never
    negative, is within the budget wherever the loop test was passed, and a
    result is either a success with a version and no error, or a failure
    with an error and no version. *)
Definition sound (t : task) : Prop :=
  0 <= t_retries t /\
  match at_ t with
  | LoopHead => t_retries t = 0 \/ t_retries t <= t_maxRetries t
  | HaveCurrent _ => t_retries t <= t_maxRetries t
  | Backoff => t_retries t <= t_maxRetries t
  | Finished r =>
      retries r = t_retries t /\
      (t_retries t = 0 \/ t_retries t <= t_maxRetries t + 1) /\
      (success r = true ->
       t_retries t <= t_maxRetries t /\ is_Some (r_version r) /\ error r = None) /\
      (success r = false -> r_version r = None /\ is_Some (error r))
  end.

End OptimisticBatchUpdateRuns.

(** ** Reading the traces of the webhook route *)

Module WebhookTraces.
Import Webhook.

Definition is_metrics (e : effect) : bool :=
  match e with Metrics _ _ => true | _ => false end.

Definition is_mark_failed (e : effect) : bool :=
  match e with MarkFailed _ _ => true | _ => false end.

Definition is_mark_processed (e : effect) : bool :=
  match e with MarkProcessed _ _ => true | _ => false end.

(** A callback of the download manager. *)
Definition is_manager_call (e : effect) : bool :=
  match e with
  | OnDownloadGrabbed _ | OnDownloadComplete _ | OnImportFailed _ => true
  | _ => false
  end.

(** Anything done for an event: storing it, a handler's call, a mark. *)
Definition touches_event (e : effect) : bool :=
  match e with
  | StoreEvent _ _ _ | OnDownloadGrabbed _ | OnDownloadComplete _ | OnImportFailed _
  | QueueCleanerStart | FindJob _ | ScanQueueAdd _
  | MarkProcessed _ _ | MarkFailed _ _ | Metrics _ _ => true
  | _ => false
  end.

Definition count (f : effect -> bool) (trace : list effect) : nat :=
  length (List.filter f trace).

(** Lidarr is switched on and configured: the first guard of the route. *)
Definition configured (st : option settings) : bool :=
  match st with
  | Some st => lidarrEnabled st && truthy (lidarrUrl st) && truthy (lidarrApiKey st)
  | None => false
  end.

End WebhookTraces.

(** ** The data cleanup job *)

Module DataCleanup.

(** The rows of the three tables, as far as the cleanup reads them. Dates
    are instants in milliseconds; [completedAt] may be NULL. *)
Record DownloadJobRow := { job_id : nat; job_status : string; job_completedAt : option Z }.
Record WebhookEventRow := { event_id : nat; processed : bool; createdAt : Z }.
Record DiscoveryBatchRow := { batch_id : nat; batch_status : string; batch_completedAt : option Z }.

Record database := {
  downloadJob : list DownloadJobRow;
  webhookEvent : list WebhookEventRow;
  discoveryBatch : list DiscoveryBatchRow
}.

Record retention := { r_downloadJobs : Z; r_webhookEvents : Z; r_discoveryBatches : Z }.

Definition RETENTION_DAYS : retention :=
  {| r_downloadJobs := 30; r_webhookEvents := 30; r_discoveryBatches := 60 |}.

(** [{ lt: cutoff }] on a nullable column: NULL never matches. *)
Definition lt_date (d : option Z) (cutoff : Z) : bool :=
  match d with Some t => t <? cutoff | None => false end.

(** The [where] clauses of the three [deleteMany] calls. *)
Definition old_job (cutoff : Z) (j : DownloadJobRow) : bool :=
  (String.eqb (job_status j) "completed" || String.eqb (job_status j) "failed")
  && lt_date (job_completedAt j) cutoff.

Definition old_event (cutoff : Z) (e : WebhookEventRow) : bool :=
  processed e && (createdAt e <? cutoff).

Definition old_batch (cutoff : Z) (b : DiscoveryBatchRow) : bool :=
  String.eqb (batch_status b) "completed" && lt_date (batch_completedAt b) cutoff.

(** [deleteMany({ where })]: removes the matching rows and answers their
    number, unless the call fails before it reaches the table. *)
Definition deleteMany {A} (fault : option js_error) (matches : A -> bool) (rows : list A)
  : outcome Z * list A :=
  match fault with
  | Some e => (Thrown e, rows)
  | None => (Returned (Z.of_nat (length (List.filter matches rows))),
             List.filter (fun r => negb (matches r)) rows)
  end.

Record cleanup_result := {
  downloadJobs : Z;
  webhookEvents : Z;
  discoveryBatches : Z;
  total : Z
}.

Section Clock.
(** [d.setDate(d.getDate() - days)]: the instant [days] calendar days before
    [now] in the server's time zone. *)
Variable days_before : Z -> Z -> Z.

Definition cleanupDownloadJobs (now : Z) (fault : option js_error) : M database Z :=
  fun dbv =>
    let cutoffDate := days_before (r_downloadJobs RETENTION_DAYS) now in
    match deleteMany fault (old_job cutoffDate) (downloadJob dbv) with
    | (result, rows) =>
        (result, {| downloadJob := rows; webhookEvent := webhookEvent dbv;
                    discoveryBatch := discoveryBatch dbv |})
    end.

Definition cleanupWebhookEvents (now : Z) (fault : option js_error) : M database Z :=
  fun dbv =>
    let cutoffDate := days_before (r_webhookEvents RETENTION_DAYS) now in
    match deleteMany fault (old_event cutoffDate) (webhookEvent dbv) with
    | (result, rows) =>
        (result, {| downloadJob := downloadJob dbv; webhookEvent := rows;
                    discoveryBatch := discoveryBatch dbv |})
    end.

Definition cleanupDiscoveryBatches (now : Z) (fault : option js_error) : M database Z :=
  fun dbv =>
    let cutoffDate := days_before (r_discoveryBatches RETENTION_DAYS) now in
    match deleteMany fault (old_batch cutoffDate) (discoveryBatch dbv) with
    | (result, rows) =>
        (result, {| downloadJob := downloadJob dbv; webhookEvent := webhookEvent dbv;
                    discoveryBatch := rows |})
    end.

(** The clock readings of the three steps and the faults they meet. *)
Record run_env := {
  now1 : Z; now2 : Z; now3 : Z;
  fault1 : option js_error; fault2 : option js_error; fault3 : option js_error
}.

Definition runDataCleanup (env : run_env) : M database cleanup_result :=
  bind (cleanupDownloadJobs (now1 env) (fault1 env)) (fun jobsDeleted =>
  bind (cleanupWebhookEvents (now2 env) (fault2 env)) (fun eventsDeleted =>
  bind (cleanupDiscoveryBatches (now3 env) (fault3 env)) (fun batchesDeleted =>
  ret {| downloadJobs := jobsDeleted;
         webhookEvents := eventsDeleted;
         discoveryBatches := batchesDeleted;
         total := jobsDeleted + eventsDeleted + batchesDeleted |}))).

(** The callback that [startDataCleanupCron] schedules: the same three
    steps inside [try { ... } catch (error) { logger.error(...) }]. *)
Definition cron_callback (env : run_env) : M database unit :=
  try_catch
    (bind (cleanupDownloadJobs (now1 env) (fault1 env)) (fun jobsDeleted =>
     bind (cleanupWebhookEvents (now2 env) (fault2 env)) (fun eventsDeleted =>
     bind (cleanupDiscoveryBatches (now3 env) (fault3 env)) (fun batchesDeleted =>
     ret tt))))
    (fun _ => ret tt).

End Clock.

Definition healthy (env : run_env) : Prop :=
  fault1 env = None /\ fault2 env = None /\ fault3 env = None.

(** Rows the cleanup has no business with. *)
Definition live_job (j : DownloadJobRow) : Prop :=
  (job_status j <> "completed" /\ job_status j <> "failed") \/ job_completedAt j = None.
Definition live_event (e : WebhookEventRow) : Prop := processed e = false.
Definition live_batch (b : DiscoveryBatchRow) : Prop :=
  batch_status b <> "completed" \/ batch_completedAt b = None.

(** Sample data: the instants are days times 86400000. *)
Definition utc_days_before (days now : Z) : Z := now - days * 86400000.

Definition sample_database : database :=
  {| downloadJob :=
       [ {| job_id := 1; job_status := "completed"; job_completedAt := Some 0 |};
         {| job_id := 2; job_status := "processing"; job_completedAt := None |};
         {| job_id := 3; job_status := "failed"; job_completedAt := Some 8000000000 |} ];
     webhookEvent :=
       [ {| event_id := 1; processed := true; createdAt := 0 |};
         {| event_id := 2; processed := false; createdAt := 0 |} ];
     discoveryBatch :=
       [ {| batch_id := 1; batch_status := "completed"; batch_completedAt := Some 0 |};
         {| batch_id := 2; batch_status := "downloading"; batch_completedAt := None |} ] |}.

(** A run one hundred days after instant 0, all steps at the same instant. *)
Definition sample_env (f2 : option js_error) : run_env :=
  {| now1 := 8640000000; now2 := 8640000000; now3 := 8640000000;
     fault1 := None; fault2 := f2; fault3 := None |}.

End DataCleanup.

(** ** The playback state machine *)

Module PlaybackStateMachine.

Inductive PlaybackState := IDLE | LOADING | READY | PLAYING | BUFFERING | ERROR.

#[global] Instance PlaybackState_eq_dec : EqDecision PlaybackState.
Proof. solve_decision. Defined.

Record StateContext := {
  state : PlaybackState;
  previousState : option PlaybackState;
  error : option string;
  errorCode : option Z;
  lastTransitionTime : Z
}.

(** Valid state transitions - anything not listed is invalid. *)
Definition VALID_TRANSITIONS (from : PlaybackState) : list PlaybackState :=
  match from with
  | IDLE => [LOADING]
  | LOADING => [READY; PLAYING; ERROR; IDLE]
  | READY => [PLAYING; LOADING; IDLE]
  | PLAYING => [READY; BUFFERING; LOADING; ERROR; IDLE]
  | BUFFERING => [PLAYING; READY; ERROR; IDLE]
  | ERROR => [LOADING; IDLE]
  end.

(** [options?: { error?: string; errorCode?: number }] *)
Record transition_options := { o_error : option string; o_errorCode : option Z }.

(** The machine: its context, the set of listeners in insertion order (a
    listener is named by a number) and, as a record of what the machine
    did, the calls it made to listeners with the context each was given.
    A listener that throws is caught by [notify]; thrown from inside
    [subscribe] the error reaches the subscriber, after the listener has
    been added. Listeners are taken not to call back into the machine
    while they are being notified, so the calls are all the machine sees
    of them. *)
Record machine := {
  context : StateContext;
  listeners : list nat;
  calls : list (nat * StateContext)
}.

(** [new PlaybackStateMachine()] at the instant [now]. *)
Definition new_PlaybackStateMachine (now : Z) : machine :=
  {| context := {| state := IDLE; previousState := None; error := None;
                   errorCode := None; lastTransitionTime := now |};
     listeners := [];
     calls := [] |}.

Definition getState (this : machine) : PlaybackState := state (context this).
Definition getContext (this : machine) : StateContext := context this.

Definition canTransition (this : machine) (to : PlaybackState) : bool :=
  bool_decide (to ∈ VALID_TRANSITIONS (state (context this))).

Definition notify (this : machine) : machine :=
  let ctx := getContext this in
  {| context := context this;
     listeners := listeners this;
     calls := calls this ++ ((fun fn => (fn, ctx)) <$> listeners this) |}.

(** [to === 'ERROR' ? (options?.error ?? 'Unknown error') : null] *)
Definition error_for (to : PlaybackState) (options : option transition_options)
  : option string :=
  match to with
  | ERROR => Some (default "Unknown error" (options ≫= o_error))
  | _ => None
  end.

(** [to === 'ERROR' ? (options?.errorCode ?? null) : null] *)
Definition errorCode_for (to : PlaybackState) (options : option transition_options)
  : option Z :=
  match to with
  | ERROR => options ≫= o_errorCode
  | _ => None
  end.

Definition transition (now : Z) (to : PlaybackState) (options : option transition_options)
    (this : machine) : bool * machine :=
  if negb (canTransition this to) then (false, this)
  else
    let from := state (context this) in
    let error := error_for to options in
    let errorCode := errorCode_for to options in
    (true,
     notify {| context := {| state := to; previousState := Some from; error := error;
                             errorCode := errorCode; lastTransitionTime := now |};
               listeners := listeners this;
               calls := calls this |}).

Definition forceTransition (now : Z) (to : PlaybackState)
    (options : option transition_options) (this : machine) : machine :=
  let from := state (context this) in
  notify {| context := {| state := to; previousState := Some from;
                          error := error_for to options;
                          errorCode := errorCode_for to options;
                          lastTransitionTime := now |};
            listeners := listeners this;
            calls := calls this |}.

(** [this.listeners.add(listener); listener(this.getContext())] *)
Definition subscribe (listener : nat) (this : machine) : machine :=
  {| context := context this;
     listeners := if bool_decide (listener ∈ listeners this) then listeners this
                  else listeners this ++ [listener];
     calls := calls this ++ [(listener, getContext this)] |}.

(** The function [subscribe] returns: [() => this.listeners.delete(listener)]. *)
Definition unsubscribe (listener : nat) (this : machine) : machine :=
  {| context := context this;
     listeners := List.filter (fun fn => negb (bool_decide (fn = listener))) (listeners this);
     calls := calls this |}.

Definition reset (now : Z) (this : machine) : machine :=
  notify {| context := {| state := IDLE; previousState := None; error := None;
                          errorCode := None; lastTransitionTime := now |};
            listeners := listeners this;
            calls := calls this |}.

Definition hasError (this : machine) : bool := bool_decide (state (context this) = ERROR).
Definition canPlay (this : machine) : bool :=
  bool_decide (state (context this) = READY) || bool_decide (state (context this) = PLAYING).

(** What a client can do to a machine, and a client's session. *)
Inductive command :=
| Transition (now : Z) (to : PlaybackState) (options : option transition_options)
| ForceTransition (now : Z) (to : PlaybackState) (options : option transition_options)
| Reset (now : Z)
| Subscribe (listener : nat)
| Unsubscribe (listener : nat).

Definition exec (this : machine) (c : command) : machine :=
  match c with
  | Transition now to options => (transition now to options this).2
  | ForceTransition now to options => forceTransition now to options this
  | Reset now => reset now this
  | Subscribe listener => subscribe listener this
  | Unsubscribe listener => unsubscribe listener this
  end.

Definition session (commands : list command) (this : machine) : machine :=
  foldl exec this commands.

(** The calls made to one listener. *)
Definition calls_to (listener : nat) (this : machine) : list StateContext :=
  snd <$> List.filter (fun c => bool_decide (c.1 = listener)) (calls this).

(** The error fields say [ERROR] exactly when the state does. *)
Definition error_matches_state (ctx : StateContext) : Prop :=
  (is_Some (error ctx) <-> state ctx = ERROR) /\
  (is_Some (errorCode ctx) -> state ctx = ERROR).

(** The last change of state was one of the listed transitions. *)
Definition last_step_valid (ctx : StateContext) : Prop :=
  match previousState ctx with
  | None => state ctx = IDLE
  | Some from => state ctx ∈ VALID_TRANSITIONS from
  end.

Definition is_validated (c : command) : bool :=
  match c with
  | Transition _ _ _ | Subscribe _ | Unsubscribe _ => true
  | ForceTransition _ _ _ | Reset _ => false
  end.

Definition subscribes (listener : nat) (c : command) : bool :=
  match c with
  | Subscribe fn => bool_decide (fn = listener)
  | _ => false
  end.

(** The command changes the context: a forced transition, a reset or a
    transition the table allows. *)
Definition changes (this : machine) (c : command) : bool :=
  match c with
  | Transition _ to _ => canTransition this to
  | ForceTransition _ _ _ | Reset _ => true
  | Subscribe _ | Unsubscribe _ => false
  end.

(** The shortest listed way from [IDLE] to a state, and from any state to
    any other by way of [IDLE]. *)
Definition way_from_idle (target : PlaybackState) : list PlaybackState :=
  match target with
  | IDLE => []
  | LOADING => [LOADING]
  | READY => [LOADING; READY]
  | PLAYING => [LOADING; PLAYING]
  | BUFFERING => [LOADING; PLAYING; BUFFERING]
  | ERROR => [LOADING; ERROR]
  end.

Definition way (from target : PlaybackState) : list PlaybackState :=
  if bool_decide (target ∈ VALID_TRANSITIONS from) then [target]
  else if bool_decide (from = target) then []
  else if bool_decide (from = IDLE) then way_from_idle target
  else IDLE :: way_from_idle target.

Definition sample_session : list command :=
  [Subscribe 7; Transition 10 LOADING None; Transition 20 BUFFERING None;
   Transition 30 PLAYING None; Subscribe 7; Unsubscribe 9;
   Transition 40 ERROR (Some {| o_error := Some "decode failed"; o_errorCode := Some 4 |})].

End PlaybackStateMachine.

(** * Properties of the distributed lock *)

Module DistributedLockFacts.
Import Redis DistributedLock.

Lemma lockKey_inj a b : lockKey a = lockKey b -> a = b.
Proof. unfold lockKey. cbn. intros H. by simplify_eq. Qed.

Lemma get_insert_eq s k v t :
  get {| keys := <[k := Entry v t]> (keys s); clock := clock s |} k
  = if clock s <? t then Some v else None.
Proof. unfold get. cbn. by rewrite lookup_insert_eq. Qed.

Lemma get_insert_ne s k k' e :
  k <> k' ->
  get {| keys := <[k := e]> (keys s); clock := clock s |} k' = get s k'.
Proof. intros Hne. unfold get. cbn. by rewrite lookup_insert_ne. Qed.

Lemma get_delete_eq s k :
  get {| keys := delete k (keys s); clock := clock s |} k = None.
Proof. unfold get. cbn. by rewrite lookup_delete_eq. Qed.

Lemma get_delete_ne s k k' :
  k <> k' ->
  get {| keys := delete k (keys s); clock := clock s |} k' = get s k'.
Proof. intros Hne. unfold get. cbn. by rewrite lookup_delete_ne. Qed.

(** The server side of [SET .. NX] leaves every live key as it is. *)
Lemma exec_set_preserves k v ttl s k' v' :
  get s k' = Some v' ->
  get (snd (exec_set_nx_px k v ttl s)) k' = Some v'.
Proof.
  intros Hlive. unfold exec_set_nx_px.
  destruct (ttl <=? 0); [done|].
  destruct (get s k) eqn:Hk; [done|]. cbn.
  rewrite get_insert_ne; [done|]. intros ->. congruence.
Qed.

Lemma exec_set_held k v ttl s v' :
  get s k = Some v' ->
  exec_set_nx_px k v ttl s = (Returned ReplyNull, s)
  \/ exec_set_nx_px k v ttl s = (Thrown invalid_expire, s).
Proof.
  intros Hlive. unfold exec_set_nx_px.
  destruct (ttl <=? 0); [by right|]. rewrite Hlive. by left.
Qed.

Lemma exec_release_other k arg s k' :
  k <> k' -> get (snd (exec_release_script k arg s)) k' = get s k'.
Proof.
  intros Hne. unfold exec_release_script.
  destruct (get s k) as [v|]; [|done].
  destruct (String.eqb v arg); [|done]. cbn. by apply get_delete_ne.
Qed.

Lemma acquire_unfold this key ttl f s :
  acquire this key ttl f s =
  match f with
  | Healthy =>
      match exec_set_nx_px (lockKey key) (lockValue this) ttl s with
      | (Returned ReplyOK, s1) => (Returned true, s1)
      | (Returned ReplyNull, s1) => (Returned false, s1)
      | (Thrown _, s1) => (Returned false, s1)
      end
  | Unreachable => (Returned false, s)
  | ReplyLost =>
      (Returned false, snd (exec_set_nx_px (lockKey key) (lockValue this) ttl s))
  end.
Proof.
  unfold acquire, try_catch, bind, set_nx_px, call, ret.
  destruct f; try done.
  destruct (exec_set_nx_px _ _ _ _) as [[[]|] ?]; done.
Qed.

Lemma release_unfold this key f s :
  release this key f s =
  match f with
  | Healthy =>
      match exec_release_script (lockKey key) (lockValue this) s with
      | (Returned n, s1) => (Returned (n =? 1), s1)
      | (Thrown _, s1) => (Returned false, s1)
      end
  | Unreachable => (Returned false, s)
  | ReplyLost =>
      (Returned false, snd (exec_release_script (lockKey key) (lockValue this) s))
  end.
Proof.
  unfold release, try_catch, bind, eval_release, call, ret.
  destruct f; try done.
  destruct (exec_release_script _ _ _) as [[|] ?]; done.
Qed.

Lemma acquire_preserves this key ttl f s k' v' :
  get s k' = Some v' -> get (snd (acquire this key ttl f s)) k' = Some v'.
Proof.
  intros Hlive. rewrite acquire_unfold. destruct f; cbn; [|done|].
  - pose proof (exec_set_preserves (lockKey key) (lockValue this) ttl s _ _ Hlive) as H.
    destruct (exec_set_nx_px _ _ _ _) as [[[]|] ?]; exact H.
  - by apply exec_set_preserves.
Qed.

Lemma acquire_held this key ttl f s v' :
  get s (lockKey key) = Some v' ->
  fst (acquire this key ttl f s) = Returned false.
Proof.
  intros Hlive. rewrite acquire_unfold. destruct f; cbn; try done.
  destruct (exec_set_held (lockKey key) (lockValue this) ttl s _ Hlive) as [-> | ->]; done.
Qed.

Lemma acquire_won this key ttl f s :
  fst (acquire this key ttl f s) = Returned true ->
  f = Healthy /\ 0 < ttl /\ get s (lockKey key) = None /\
  snd (acquire this key ttl f s) =
    {| keys := <[lockKey key := Entry (lockValue this) (clock s + ttl)]> (keys s);
       clock := clock s |}.
Proof.
  rewrite acquire_unfold. destruct f; cbn; try done.
  unfold exec_set_nx_px. destruct (ttl <=? 0) eqn:Httl; [done|].
  destruct (get s (lockKey key)); [done|]. cbn. intros _.
  repeat split; try done. apply Z.leb_gt in Httl. lia.
Qed.

Lemma acquire_won_holds this key ttl f s :
  fst (acquire this key ttl f s) = Returned true ->
  get (snd (acquire this key ttl f s)) (lockKey key) = Some (lockValue this).
Proof.
  intros Hwon. destruct (acquire_won _ _ _ _ _ Hwon) as (_ & Httl & _ & ->).
  rewrite get_insert_eq.
  destruct (clock s <? clock s + ttl) eqn:E; [done|].
  apply Z.ltb_ge in E. lia.
Qed.

Lemma release_other this key f s k' :
  lockKey key <> k' -> get (snd (release this key f s)) k' = get s k'.
Proof.
  intros Hne. rewrite release_unfold. destruct f; cbn; [|done|].
  - pose proof (exec_release_other (lockKey key) (lockValue this) s k' Hne) as H.
    destruct (exec_release_script _ _ _) as [[|] ?]; exact H.
  - by apply exec_release_other.
Qed.

Lemma get_elapse_Some ms s k v :
  get (elapse ms s) k = Some v -> get s k = Some v.
Proof.
  unfold get, elapse. cbn. destruct (keys s !! k) as [e|]; [|done].
  destruct (clock s + Z.of_N ms <? expires_at e) eqn:E; [|done].
  intros [= <-]. destruct (clock s <? expires_at e) eqn:E'; [done|].
  apply Z.ltb_lt in E. apply Z.ltb_ge in E'. lia.
Qed.

Lemma snd_run_call c s :
  snd (run_call c s) =
  match c with
  | CallAcquire who key ttl f => snd (acquire who key ttl f s)
  | CallRelease who key f => snd (release who key f s)
  | Elapse ms => elapse ms s
  end.
Proof.
  destruct c as [who key ttl f|who key f|ms]; cbn; [| |done].
  - by destruct (acquire _ _ _ _ _) as [[|] ?].
  - by destruct (release _ _ _ _) as [[|] ?].
Qed.

Lemma fst_run_call_acquire who key ttl f s b :
  fst (acquire who key ttl f s) = Returned b ->
  fst (run_call (CallAcquire who key ttl f) s) = Some b.
Proof. cbn. destruct (acquire _ _ _ _ _) as [[|] ?]; cbn; congruence. Qed.

(** While nobody releases [key] and its lock does not expire, the holder's
    token stays in place and nobody else wins the key. *)
Lemma held_through_window key cs : forall s v,
  get s (lockKey key) = Some v ->
  no_release_or_expiry key cs s = true ->
  get (run_calls cs s) (lockKey key) = Some v /\ wins key cs s = 0%nat.
Proof.
  induction cs as [|c cs IH]; intros s v Hlive Hwin; [done|].
  cbn [no_release_or_expiry] in Hwin. apply andb_true_iff in Hwin as [Hc Hrest].
  cbn [run_calls wins].
  assert (get (snd (run_call c s)) (lockKey key) = Some v) as Hlive1.
  { rewrite snd_run_call in *.
    destruct c as [who key' ttl f|who key' f|ms].
    - by apply acquire_preserves.
    - apply negb_true_iff, String.eqb_neq in Hc.
      rewrite release_other; [done|].
      intros E; apply lockKey_inj in E; done.
    - rewrite Hlive in Hc. apply bool_decide_eq_true in Hc as [v' Hv'].
      rewrite Hv'. f_equal.
      apply get_elapse_Some in Hv'. congruence. }
  destruct (IH _ _ Hlive1 Hrest) as [Hfin Hno]. split; [done|].
  rewrite Hno. destruct c as [who key' ttl f| |]; try done.
  destruct (String.eqb key' key) eqn:E; [|done].
  apply String.eqb_eq in E as ->.
  by rewrite (fst_run_call_acquire _ _ _ _ _ _ (acquire_held who key ttl f s _ Hlive)).
Qed.

Lemma acquire_free who key ttl s :
  0 < ttl -> get s (lockKey key) = None ->
  fst (acquire who key ttl Healthy s) = Returned true.
Proof.
  intros Httl Hfree. rewrite acquire_unfold. unfold exec_set_nx_px.
  apply Z.leb_gt in Httl. by rewrite Httl, Hfree.
Qed.

(** C1: in any history of concurrent lock calls during which [key] is not
    released and no lock on it expires, at most one [acquire] of [key]
    returns true. *)
Theorem acquire_mutual_exclusion key cs : forall s,
  no_release_or_expiry key cs s = true -> (wins key cs s <= 1)%nat.
Proof.
  induction cs as [|c cs IH]; intros s Hwin; [cbn; lia|].
  cbn [no_release_or_expiry] in Hwin. apply andb_true_iff in Hwin as [Hc Hrest].
  cbn [wins]. specialize (IH _ Hrest).
  destruct c as [who key' ttl f| |]; try lia.
  destruct (String.eqb key' key) eqn:E; [|lia].
  apply String.eqb_eq in E as ->.
  destruct (fst (acquire who key ttl f s)) as [[|]|e] eqn:Hres.
  - rewrite (fst_run_call_acquire _ _ _ _ _ _ Hres).
    pose proof (acquire_won_holds _ _ _ _ _ Hres) as Hheld.
    rewrite snd_run_call in Hrest |- *.
    destruct (held_through_window key cs _ _ Hheld Hrest) as [_ ->]. lia.
  - rewrite (fst_run_call_acquire _ _ _ _ _ _ Hres). lia.
  - exfalso. rewrite acquire_unfold in Hres.
    destruct f; cbn in Hres; try done.
    by destruct (exec_set_nx_px _ _ _ _) as [[[]|] ?].
Qed.

Lemma acquire_mutual_exclusion_witness :
  let cs := [CallAcquire lockA "album" 5000 Healthy;
             CallAcquire lockB "album" 5000 Healthy;
             Elapse 50;
             CallAcquire lockB "album" 5000 ReplyLost;
             CallRelease lockA "other" Healthy;
             CallAcquire lockA "album" 5000 Healthy] in
  no_release_or_expiry "album" cs empty_store = true /\
  (wins "album" cs empty_store <= 1)%nat.
Proof.
  split; [vm_compute; reflexivity|].
  apply (acquire_mutual_exclusion "album"). vm_compute; reflexivity.
Defined.

(** C9: [acquire] never throws; it returns true exactly when the
    set-if-absent call answers OK (on a healthy store: the TTL is valid and
    the key is free), and plain false on contention as well as on every
    store error. *)
Theorem acquire_never_throws this key ttl f s :
  exists b,
    fst (acquire this key ttl f s) = Returned b /\
    snd (acquire this key ttl f s) =
      snd (set_nx_px f (lockKey key) (lockValue this) ttl s) /\
    (b = true <->
     fst (set_nx_px f (lockKey key) (lockValue this) ttl s) = Returned ReplyOK) /\
    (b = true <-> f = Healthy /\ 0 < ttl /\ get s (lockKey key) = None) /\
    (is_Some (get s (lockKey key)) -> b = false) /\
    (is_thrown (fst (set_nx_px f (lockKey key) (lockValue this) ttl s)) = true ->
     b = false).
Proof.
  unfold acquire, try_catch, bind, ret, set_nx_px, call, exec_set_nx_px.
  destruct f; cbn.
  - destruct (ttl <=? 0) eqn:Httl; cbn.
    + apply Z.leb_le in Httl. exists false. naive_solver lia.
    + apply Z.leb_gt in Httl.
      destruct (get s (lockKey key)) as [v|] eqn:Hget; cbn.
      * exists false. naive_solver.
      * exists true. unfold is_Some. naive_solver.
  - exists false. naive_solver.
  - exists false. naive_solver.
Qed.

(** C6: [release] changes the store only by deleting the key, and only when
    the key's live value is the releasing instance's own token; it answers
    false when the lock is not held by this instance (expired included);
    a release by an instance with another token leaves the holder's lock in
    place. *)
Theorem release_only_by_owner (holder releaser : DistributedLock) key f s :
  let r := release releaser key f s in
  (snd r = s \/
   (get s (lockKey key) = Some (lockValue releaser) /\
    snd r = {| keys := delete (lockKey key) (keys s); clock := clock s |})) /\
  (fst r = Returned true <->
   f = Healthy /\ get s (lockKey key) = Some (lockValue releaser)) /\
  (get s (lockKey key) <> Some (lockValue releaser) ->
   r = (Returned false, s)) /\
  (lockValue holder <> lockValue releaser ->
   get s (lockKey key) = Some (lockValue holder) ->
   r = (Returned false, s) /\
   get (snd r) (lockKey key) = Some (lockValue holder)).
Proof.
  cbn zeta. rewrite release_unfold. unfold exec_release_script.
  destruct (get s (lockKey key)) as [v|] eqn:Hget.
  - destruct (String.eqb v (lockValue releaser)) eqn:E.
    + apply String.eqb_eq in E as ->. destruct f; cbn; naive_solver.
    + apply String.eqb_neq in E. destruct f; cbn; naive_solver.
  - destruct f; cbn; naive_solver.
Qed.

Lemma release_only_by_owner_witness :
  let s := snd (acquire lockA "album" 5000 Healthy empty_store) in
  release lockB "album" Healthy s = (Returned false, s) /\
  get (snd (release lockB "album" Healthy s)) (lockKey "album")
    = Some (lockValue lockA).
Proof.
  apply (release_only_by_owner lockA lockB "album" Healthy).
  - vm_compute. discriminate.
  - vm_compute. reflexivity.
Defined.

(** C7, as stated, fails: a callback that outlives the TTL while another
    instance takes the key leaves that instance's lock in place, since the
    late release must not delete it; the next [acquire] then loses. *)
Lemma withLock_frees_for_every_callback_fails :
  ~ withLock_frees_for_every_callback.
Proof.
  intros Hclaim.
  specialize (Hclaim bool lockA "job" 100 overrunning_callback empty_store).
  assert (fst (acquire lockA "job" 100 Healthy empty_store) = Returned true)
    as Hwon by (vm_compute; reflexivity).
  destruct (Hclaim Hwon) as (_ & Hfree & _).
  vm_compute in Hfree. discriminate Hfree.
Qed.

(** C7 (amended): [withLock] throws the lock-unavailable error without
    running the callback when [acquire] fails; otherwise it runs the
    callback and then always calls [release], ending with the callback's
    own outcome (value or error). When that release reaches a healthy store
    and the key is then not held under another token, the key is free
    afterwards and a following [acquire] with a valid TTL wins. *)
Theorem withLock_spec {T} this key ttl (callback : M store T) fa fr s :
  let a := acquire this key ttl fa s in
  (fst a = Returned false ->
   withLock this key ttl callback fa fr s = (Thrown (lock_unavailable key), snd a)) /\
  (fst a = Returned true ->
   let c := callback (snd a) in
   let r := release this key fr (snd c) in
   withLock this key ttl callback fa fr s = (fst c, snd r) /\
   (fr = Healthy ->
    get (snd c) (lockKey key) = None \/
    get (snd c) (lockKey key) = Some (lockValue this) ->
    get (snd r) (lockKey key) = None /\
    forall who ttl', 0 < ttl' ->
      fst (acquire who key ttl' Healthy (snd r)) = Returned true)).
Proof.
  cbn zeta. unfold withLock, bind.
  destruct (acquire this key ttl fa s) as [[[|]|e] s1] eqn:Ha; cbn [fst snd negb].
  - split; [done|]. intros _. unfold try_finally.
    destruct (callback s1) as [c s2] eqn:Hc. cbn [fst snd].
    split.
    + rewrite release_unfold.
      destruct fr; cbn; try done.
      by destruct (exec_release_script _ _ _) as [[|] ?].
    + intros -> Hheld.
      assert (get (snd (release this key Healthy s2)) (lockKey key) = None) as Hfree.
      { rewrite release_unfold. unfold exec_release_script.
        destruct Hheld as [Hh | Hh]; rewrite Hh; [exact Hh|].
        rewrite String.eqb_refl. cbn. apply get_delete_eq. }
      split; [done|]. intros who ttl' Httl'. by apply acquire_free.
  - split; [done|]. done.
  - split; done.
Qed.

Lemma withLock_spec_witness :
  let failing : M store bool := throw (mkError "Test error") in
  let after := snd (withLock lockA "test-lock" 5000 failing Healthy Healthy empty_store) in
  withLock lockA "test-lock" 5000 failing Healthy Healthy empty_store
    = (Thrown (mkError "Test error"), after) /\
  fst (acquire lockA "test-lock" 5000 Healthy after) = Returned true.
Proof.
  cbn zeta.
  destruct (withLock_spec lockA "test-lock" 5000
              (throw (mkError "Test error") : M store bool)
              Healthy Healthy empty_store) as [_ Hrun].
  destruct Hrun as [Heq Hfree]; [vm_compute; reflexivity|].
  split.
  - rewrite Heq. vm_compute. reflexivity.
  - rewrite Heq. cbn [snd].
    apply Hfree; [reflexivity| right; vm_compute; reflexivity | lia].
Defined.

(** C10: the token is fixed when the instance is built and is what every
    [acquire] writes and every [release] compares, whatever the key. For
    the module's singleton: once some call path has won [key] through it,
    and for as long as the key is neither released nor expired, a
    [release] of [key] through the singleton (from any call path, on a
    healthy store) returns true and frees the key. *)
Theorem singleton_release_any_path randomBytes16 key ttl fa cs s :
  let this := distributedLock randomBytes16 in
  let s1 := snd (acquire this key ttl fa s) in
  fst (acquire this key ttl fa s) = Returned true ->
  no_release_or_expiry key cs s1 = true ->
  lockValue this = to_hex randomBytes16 /\
  get s1 (lockKey key) = Some (lockValue this) /\
  get (run_calls cs s1) (lockKey key) = Some (lockValue this) /\
  fst (release this key Healthy (run_calls cs s1)) = Returned true /\
  get (snd (release this key Healthy (run_calls cs s1))) (lockKey key) = None.
Proof.
  cbn zeta. intros Hwon Hwin.
  pose proof (acquire_won_holds _ _ _ _ _ Hwon) as Hheld.
  destruct (held_through_window key cs _ _ Hheld Hwin) as [Hstill _].
  repeat split; try done.
  - rewrite release_unfold. unfold exec_release_script.
    by rewrite Hstill, String.eqb_refl.
  - rewrite release_unfold. unfold exec_release_script.
    rewrite Hstill, String.eqb_refl. cbn. apply get_delete_eq.
Qed.

Lemma singleton_release_any_path_witness :
  let this := distributedLock (repeat Byte.x2a 16) in
  let s1 := snd (acquire this "album" 5000 Healthy empty_store) in
  let cs := [CallAcquire this "track" 5000 Healthy; Elapse 1000;
             CallAcquire lockB "album" 100 Healthy;
             CallRelease this "track" Healthy] in
  fst (release this "album" Healthy (run_calls cs s1)) = Returned true.
Proof.
  cbn zeta.
  apply (singleton_release_any_path (repeat Byte.x2a 16) "album" 5000 Healthy
           [CallAcquire (distributedLock (repeat Byte.x2a 16)) "track" 5000 Healthy;
            Elapse 1000; CallAcquire lockB "album" 100 Healthy;
            CallRelease (distributedLock (repeat Byte.x2a 16)) "track" Healthy]
           empty_store).
  - vm_compute. reflexivity.
  - vm_compute. reflexivity.
Defined.

End DistributedLockFacts.

(** * Properties of the wire codec *)

Module WireCodecFacts.
Import WireCodec.

Lemma byte_at_drop buf off k :
  0 <= off -> 0 <= k ->
  byte_at buf (off + k) = byte_val <$> drop (Z.to_nat off) buf !! Z.to_nat k.
Proof.
  intros Hoff Hk. unfold byte_at.
  destruct (off + k <? 0) eqn:E; [apply Z.ltb_lt in E; lia|].
  rewrite lookup_drop. f_equal. f_equal. lia.
Qed.

Lemma byte_at_drop0 buf off :
  0 <= off -> byte_at buf off = byte_val <$> drop (Z.to_nat off) buf !! 0%nat.
Proof.
  intros Hoff. change 0%nat with (Z.to_nat 0).
  rewrite <- (byte_at_drop buf off 0 Hoff) by lia. f_equal. lia.
Qed.

Lemma drop_long buf off (n : nat) :
  0 <= off -> off + Z.of_nat n <= len buf ->
  (n <= length (drop (Z.to_nat off) buf))%nat.
Proof. unfold len. intros Hoff Hlen. rewrite length_drop. lia. Qed.

Lemma readUInt8_le buf off :
  0 <= off -> off + 1 <= len buf ->
  readUInt8 buf off = Returned (le_value (take 1 (drop (Z.to_nat off) buf))).
Proof.
  intros Hoff Hlen. pose proof (drop_long buf off 1 Hoff Hlen) as Hl.
  unfold readUInt8. rewrite byte_at_drop0 by done.
  destruct (drop (Z.to_nat off) buf) as [|b0 rest]; cbn in *; [lia|].
  rewrite take_0. cbn. f_equal. lia.
Qed.

Lemma readUInt32LE_le buf off :
  0 <= off -> off + 4 <= len buf ->
  readUInt32LE buf off = Returned (le_value (take 4 (drop (Z.to_nat off) buf))).
Proof.
  intros Hoff Hlen. pose proof (drop_long buf off 4 Hoff Hlen) as Hl.
  unfold readUInt32LE.
  rewrite (byte_at_drop0 buf off), (byte_at_drop buf off 1),
    (byte_at_drop buf off 2), (byte_at_drop buf off 3) by lia.
  change (Z.to_nat 1) with 1%nat. change (Z.to_nat 2) with 2%nat.
  change (Z.to_nat 3) with 3%nat.
  destruct (drop (Z.to_nat off) buf) as [|b0 [|b1 [|b2 [|b3 rest]]]];
    cbn in *; try lia.
  rewrite take_0. cbn. f_equal. lia.
Qed.

Lemma readBigUInt64LE_le buf off :
  0 <= off -> off + 8 <= len buf ->
  readBigUInt64LE buf off = Returned (le_value (take 8 (drop (Z.to_nat off) buf))).
Proof.
  intros Hoff Hlen. pose proof (drop_long buf off 8 Hoff Hlen) as Hl.
  unfold readBigUInt64LE.
  rewrite (byte_at_drop0 buf off), (byte_at_drop buf off 1),
    (byte_at_drop buf off 2), (byte_at_drop buf off 3),
    (byte_at_drop buf off 4), (byte_at_drop buf off 5),
    (byte_at_drop buf off 6), (byte_at_drop buf off 7) by lia.
  change (Z.to_nat 1) with 1%nat. change (Z.to_nat 2) with 2%nat.
  change (Z.to_nat 3) with 3%nat. change (Z.to_nat 4) with 4%nat.
  change (Z.to_nat 5) with 5%nat. change (Z.to_nat 6) with 6%nat.
  change (Z.to_nat 7) with 7%nat.
  destruct (drop (Z.to_nat off) buf)
    as [|b0 [|b1 [|b2 [|b3 [|b4 [|b5 [|b6 [|b7 rest]]]]]]]];
    cbn [length] in *; try lia.
  cbn. rewrite take_0. cbn [le_value].
  rewrite Z.shiftl_mul_pow2 by lia. f_equal. lia.
Qed.

Lemma le_value_nonneg bs : 0 <= le_value bs.
Proof.
  induction bs as [|b bs IH]; cbn; [lia|]. unfold byte_val. lia.
Qed.

Lemma toString_span_in_range buf p size :
  0 <= p -> 0 <= size -> p + size <= len buf ->
  toString_span buf p (p + size)
  = take (Z.to_nat size) (drop (Z.to_nat p) buf).
Proof.
  intros Hp Hsize Hfit. unfold toString_span.
  destruct (p <=? 0) eqn:E0.
  - apply Z.leb_le in E0. assert (p = 0) as -> by lia. cbn [andb Z.ltb Z.compare].
    destruct (0 + size >? len buf) eqn:E1; [apply Z.gtb_lt in E1; lia|].
    destruct (0 + size <=? 0) eqn:E2.
    + apply Z.leb_le in E2. assert (size = 0) as -> by lia. by rewrite take_0.
    + do 2 f_equal. lia.
  - apply Z.leb_gt in E0.
    destruct (0 <? p) eqn:E3; [|apply Z.ltb_ge in E3; lia].
    destruct (p >=? len buf) eqn:E4; cbn [andb].
    + apply Z.geb_le in E4. assert (size = 0) as -> by lia. by rewrite take_0.
    + destruct (p + size >? len buf) eqn:E1; [apply Z.gtb_lt in E1; lia|].
      destruct (p + size <=? p) eqn:E2.
      * apply Z.leb_le in E2. assert (size = 0) as -> by lia. by rewrite take_0.
      * do 2 f_equal. lia.
Qed.

Lemma read_fixed_spec width what read this :
  (0 <= pointer this -> pointer this + width <= len (data this) ->
   read (data this) (pointer this) = Returned (le_value (span this width))) ->
  0 <= pointer this ->
  read_fixed width what read this =
    if remaining this <? width
    then (Thrown (underflow what), this)
    else (Returned (le_value (span this width)),
          set_pointer this (pointer this + width)).
Proof.
  intros Hread Hp. unfold read_fixed, remaining.
  destruct (pointer this + width >? len (data this)) eqn:E.
  - apply Z.gtb_lt in E.
    destruct (len (data this) - pointer this <? width) eqn:E'; [done|].
    apply Z.ltb_ge in E'. lia.
  - assert (pointer this + width <= len (data this)) as Hfit.
    { destruct (Z.gtb_spec (pointer this + width) (len (data this))); [done|lia]. }
    rewrite (Hread Hp Hfit).
    destruct (len (data this) - pointer this <? width) eqn:E'; [|done].
    apply Z.ltb_lt in E'. lia.
Qed.

Section Utf8.
Variable text : Type.
Variable utf8 : list Byte.byte -> text.

Lemma str_spec this :
  0 <= pointer this ->
  str text utf8 this =
    if remaining this <? 4
    then (Thrown (underflow "string length"), this)
    else
      let size := le_value (span this 4) in
      let this1 := set_pointer this (pointer this + 4) in
      if remaining this1 <? size
      then (Thrown (underflow "string data"), this1)
      else (Returned (utf8 (span this1 size)),
            set_pointer this (pointer this + 4 + size)).
Proof.
  intros Hp. unfold str, remaining.
  destruct (pointer this + 4 >? len (data this)) eqn:E.
  - apply Z.gtb_lt in E.
    destruct (len (data this) - pointer this <? 4) eqn:E'; [done|].
    apply Z.ltb_ge in E'. lia.
  - assert (pointer this + 4 <= len (data this)) as Hfit.
    { destruct (Z.gtb_spec (pointer this + 4) (len (data this))); [done|lia]. }
    destruct (len (data this) - pointer this <? 4) eqn:E';
      [apply Z.ltb_lt in E'; lia|].
    rewrite readUInt32LE_le by done.
    change (take 4 (drop (Z.to_nat (pointer this)) (data this)))
      with (span this 4).
    cbn zeta. cbn [data pointer set_pointer].
    pose proof (le_value_nonneg (span this 4)) as Hsize.
    destruct (pointer this + 4 + le_value (span this 4) >? len (data this)) eqn:E2.
    + apply Z.gtb_lt in E2.
      destruct (len (data this) - (pointer this + 4) <? le_value (span this 4)) eqn:E3;
        [done|]. apply Z.ltb_ge in E3. lia.
    + assert (pointer this + 4 + le_value (span this 4) <= len (data this)) as Hfit2.
      { destruct (Z.gtb_spec (pointer this + 4 + le_value (span this 4))
                    (len (data this))); [done|lia]. }
      destruct (len (data this) - (pointer this + 4) <? le_value (span this 4)) eqn:E3;
        [apply Z.ltb_lt in E3; lia|].
      rewrite toString_span_in_range by lia. done.
Qed.

(** C4 (amended): at a cursor position that is not in front of the buffer
    (an offset of 0 or more, possibly past the end) and for a size that is
    not negative, every read throws its underflow error exactly when fewer
    bytes remain than it needs, and then leaves the cursor where the failed
    check found it; otherwise it returns the value of all the bytes of the
    span at the cursor, never fewer, and the cursor is then exactly that
    many bytes further. [str] checks the four-byte length prefix first and
    the declared payload length second. No read changes the buffer. *)
Theorem read_underflow_or_advance (this : MessageParser) (size : Z) :
  0 <= pointer this -> 0 <= size -> read_contract text utf8 this size.
Proof.
  intros Hp Hsize.
  assert (forall n, 0 <= n -> (remaining this <? n) = false ->
            length (span this n) = Z.to_nat n) as Hfull.
  { intros n Hn Hfit. apply Z.ltb_ge in Hfit. unfold remaining, span, len in *.
    rewrite length_take, length_drop. lia. }
  assert (forall width what read,
            (forall this, 0 <= pointer this -> pointer this + width <= len (data this) ->
               read (data this) (pointer this) = Returned (le_value (span this width))) ->
            0 <= width ->
            reads_as (read_fixed width what read this) this width what le_value) as Hfixed.
  { intros width what read Hread Hwidth. unfold reads_as.
    rewrite (read_fixed_spec width what read this) by (try done; by apply Hread).
    destruct (remaining this <? width) eqn:E; cbn [fst snd set_pointer data pointer];
      [done|]. repeat split. by apply Hfull. }
  unfold read_contract. split; [|split; [|split; [|split]]].
  - apply Hfixed; [|lia]. intros ? ? ?. by apply readUInt8_le.
  - apply Hfixed; [|lia]. intros ? ? ?. by apply readUInt32LE_le.
  - apply Hfixed; [|lia]. intros ? ? ?. by apply readBigUInt64LE_le.
  - unfold str_reads_as. rewrite str_spec by done.
    destruct (remaining this <? 4) eqn:E4; cbn [fst snd]; [done|]. cbn zeta.
    pose proof (le_value_nonneg (span this 4)) as Hn.
    change (remaining (set_pointer this (pointer this + 4)))
      with (len (data this) - (pointer this + 4)).
    replace (len (data this) - (pointer this + 4)) with (remaining this - 4)
      by (unfold remaining; lia).
    destruct (remaining this - 4 <? le_value (span this 4)) eqn:En;
      cbn [fst snd set_pointer data pointer]; [done|].
    repeat split.
    apply Z.ltb_ge in E4, En. unfold bytes_at, remaining, len in *.
    rewrite length_take, length_drop. lia.
  - unfold reads_as.
    assert (rawHexStr size this
            = if remaining this <? size
              then (Thrown (underflow "raw hex string"), this)
              else (Returned (to_hex (span this size)),
                    set_pointer this (pointer this + size))) as ->.
    { unfold rawHexStr, remaining.
      destruct (pointer this + size >? len (data this)) eqn:E.
      - apply Z.gtb_lt in E.
        destruct (len (data this) - pointer this <? size) eqn:E'; [done|].
        apply Z.ltb_ge in E'. lia.
      - assert (pointer this + size <= len (data this)) as Hfit.
        { destruct (Z.gtb_spec (pointer this + size) (len (data this))); [done|lia]. }
        destruct (len (data this) - pointer this <? size) eqn:E';
          [apply Z.ltb_lt in E'; lia|].
        by rewrite toString_span_in_range. }
    destruct (remaining this <? size) eqn:E; cbn [fst snd set_pointer data pointer];
      [done|]. repeat split. by apply Hfull.
Qed.

End Utf8.

Lemma read_underflow_or_advance_witness :
  let this := {| data := [Byte.x01; Byte.x02; Byte.x03]; pointer := 0 |} in
  int32 this = (Thrown (underflow "int32"), this) /\
  fst (int8 this) = Returned 1 /\ pointer (snd (int8 this)) = 1 /\
  fst (rawHexStr 2 this) = Returned "0102" /\ pointer (snd (rawHexStr 2 this)) = 2.
Proof.
  cbn zeta.
  destruct (read_underflow_or_advance string string_of_list_byte
              {| data := [Byte.x01; Byte.x02; Byte.x03]; pointer := 0 |} 2)
    as ((_ & H8) & (Hdata & H32) & _ & _ & (_ & Hhex)); [cbn; lia | lia |].
  change (remaining {| data := [Byte.x01; Byte.x02; Byte.x03]; pointer := 0 |} <? 1)
    with false in H8.
  change (remaining {| data := [Byte.x01; Byte.x02; Byte.x03]; pointer := 0 |} <? 4)
    with true in H32.
  change (remaining {| data := [Byte.x01; Byte.x02; Byte.x03]; pointer := 0 |} <? 2)
    with false in Hhex.
  destruct H8 as (H8 & _ & H8'), H32 as (H32 & H32'), Hhex as (Hhex & _ & Hhex').
  split; [|split; [exact H8|split; [exact H8'|split; [exact Hhex|exact Hhex']]]].
  destruct (int32 {| data := [Byte.x01; Byte.x02; Byte.x03]; pointer := 0 |})
    as [r [d p']]. cbn in Hdata, H32, H32'. by subst.
Defined.

(** C4, as stated for every cursor position, fails. A [rawHexStr(-1)] on a
    new parser moves the cursor in front of the buffer; there, with three
    bytes counted as remaining, [int8] neither throws an underflow error
    nor returns a value (the runtime throws its range error), and
    [rawHexStr(2)] returns one byte for two. *)
Lemma read_contract_at_every_cursor_fails : ~ read_contract_at_every_cursor.
Proof.
  intros Hclaim.
  destruct (Hclaim string string_of_list_byte rewound 2) as ((_ & H8) & _); [lia|].
  change (remaining rewound <? 1) with false in H8.
  destruct H8 as [H8 _]. vm_compute in H8. discriminate H8.
Qed.

End WireCodecFacts.

(** * Properties of the optimistic batch update *)

Module OptimisticBatchUpdateFacts.
Import OptimisticBatchUpdate.

Lemma step_finished t r fault db :
  at_ t = Finished r -> updateBatchStatus_step t fault db = (t, db, false).
Proof. intros H. unfold updateBatchStatus_step. by rewrite H. Qed.

Lemma budget_finished t : budget t = 0%nat -> exists r, at_ t = Finished r.
Proof. unfold budget. destruct (at_ t); try lia. eauto. Qed.

Lemma on_error_budget t e (n : nat) :
  (3 * Z.to_nat (t_maxRetries t + 1 - t_retries t) < n + 3)%nat ->
  t_retries t <= t_maxRetries t ->
  (budget (on_error t e) < n + 3)%nat.
Proof.
  intros Hn Hle. unfold on_error.
  destruct (isVersionConflict e); [|cbn; lia].
  destruct (t_retries t + 1 >? t_maxRetries t) eqn:E; [cbn; lia|].
  assert (t_retries t + 1 <= t_maxRetries t) as Hle'.
  { destruct (Z.gtb_spec (t_retries t + 1) (t_maxRetries t)); [done|lia]. }
  unfold budget. cbn. unfold t_maxRetries in *. cbn. lia.
Qed.

Lemma on_error_budget_last t e :
  t_maxRetries t < t_retries t ->
  budget (on_error t e) = 0%nat.
Proof.
  intros Hlt. unfold on_error.
  destruct (isVersionConflict e); [|done].
  destruct (t_retries t + 1 >? t_maxRetries t) eqn:E; [done|].
  destruct (Z.gtb_spec (t_retries t + 1) (t_maxRetries t)); [done|lia].
Qed.

(** Every step of a call that has not returned brings it closer to
    returning. *)
Lemma step_budget t fault db :
  (budget t = 0 \/ budget (updateBatchStatus_step t fault db).1.1 < budget t)%nat.
Proof.
  unfold updateBatchStatus_step. destruct (at_ t) as [|cv| |r] eqn:Hat.
  - right. destruct (t_retries t <=? t_maxRetries t) eqn:Hle.
    + apply Z.leb_le in Hle.
      destruct (findUnique fault (batchId t) db) as [[current|]|e]; cbn [fst].
      * unfold budget at 2. rewrite Hat. unfold budget. cbn. unfold t_maxRetries. cbn. lia.
      * unfold budget at 2. rewrite Hat. cbn. lia.
      * unfold budget at 2. rewrite Hat.
        replace (3 * Z.to_nat (t_maxRetries t + 1 - t_retries t) + 2)%nat
          with (3 * Z.to_nat (t_maxRetries t + 1 - t_retries t) - 1 + 3)%nat by lia.
        apply on_error_budget; lia.
    + unfold budget at 2. rewrite Hat. cbn. lia.
  - right.
    destruct (update fault (batchId t) cv (data t) (cv + 1) db) as [[updated|e] db'];
      cbn [fst].
    + unfold budget at 2. rewrite Hat. cbn. lia.
    + unfold budget at 2. rewrite Hat.
      destruct (Z_le_gt_dec (t_retries t) (t_maxRetries t)) as [Hle|Hgt].
      * destruct (decide (t_retries t = t_maxRetries t)) as [Heq|Hne].
        -- unfold on_error. destruct (isVersionConflict e); [|cbn; lia].
           destruct (t_retries t + 1 >? t_maxRetries t) eqn:E; [cbn; lia|].
           destruct (Z.gtb_spec (t_retries t + 1) (t_maxRetries t)); [done|lia].
        -- replace (3 * Z.to_nat (t_maxRetries t + 1 - t_retries t) + 1)%nat
             with (3 * Z.to_nat (t_maxRetries t + 1 - t_retries t) - 2 + 3)%nat by lia.
           apply on_error_budget; lia.
      * rewrite on_error_budget_last by lia. lia.
  - right. cbn [fst]. unfold budget at 2. rewrite Hat.
    unfold budget. cbn. unfold t_maxRetries. cbn. lia.
  - left. unfold budget. by rewrite Hat.
Qed.

Lemma turns_cons i j fault schedule :
  turns i ((j, fault) :: schedule)
  = if decide (j = i) then S (turns i schedule) else turns i schedule.
Proof.
  unfold turns. rewrite filter_cons. cbn [fst].
  by destruct (decide (j = i)).
Qed.

Lemma turn_other i j fault σ :
  i <> j -> tasks (turn j fault σ) !! i = tasks σ !! i.
Proof.
  intros Hne. unfold turn. destruct (tasks σ !! j) as [t|]; [|done].
  destruct (updateBatchStatus_step t fault (db σ)) as [[t' db'] wrote]. cbn.
  by rewrite list_lookup_insert_ne.
Qed.

Lemma turn_self i fault σ t :
  tasks σ !! i = Some t ->
  tasks (turn i fault σ) !! i = Some (updateBatchStatus_step t fault (db σ)).1.1.
Proof.
  intros Ht. unfold turn. rewrite Ht.
  destruct (updateBatchStatus_step t fault (db σ)) as [[t' db'] wrote]. cbn.
  apply list_lookup_insert_eq. by eapply lookup_lt_Some.
Qed.

(** Whatever the other callers and the store do, a call returns once it
    has been given [budget] turns. *)
Lemma run_returns schedule : forall σ i t,
  tasks σ !! i = Some t ->
  (budget t <= turns i schedule)%nat ->
  exists t' r, tasks (run schedule σ) !! i = Some t' /\ at_ t' = Finished r.
Proof.
  induction schedule as [|[j fault] schedule IH]; intros σ i t Ht Hturns.
  - cbn in Hturns. destruct (budget_finished t) as [r Hr]; [lia|]. by exists t, r.
  - rewrite turns_cons in Hturns. cbn [run].
    destruct (decide (j = i)) as [->|Hne].
    + pose proof (turn_self i fault σ t Ht) as Ht1.
      apply (IH _ _ _ Ht1).
      destruct (step_budget t fault (db σ)) as [H0|Hlt]; [|lia].
      destruct (budget_finished t H0) as [r Hr].
      rewrite (step_finished t r) by done. cbn. lia.
    + apply (IH _ i t); [|done]. by rewrite turn_other.
Qed.

Lemma isVersionConflict_record_not_found :
  isVersionConflict record_not_found = true.
Proof. vm_compute. reflexivity. Qed.

Lemma conflicting_round id d o r row dbv lg rest :
  dbv !! id = Some row ->
  r <= default DEFAULT_MAX_RETRIES (maxRetries o) ->
  run ((0%nat, None) :: (0%nat, Some record_not_found) :: (0%nat, None) :: rest)
      {| db := dbv; tasks := [Build_task id d o r LoopHead]; log := lg |}
  = run rest
      {| db := dbv;
         tasks := [if r + 1 >? default DEFAULT_MAX_RETRIES (maxRetries o)
                   then Build_task id d o (r + 1)
                          (Finished {| success := false; r_version := None;
                                       retries := r + 1;
                                       error := Some ("Max retries reached after "
                                                      +:+ show_Z (default DEFAULT_MAX_RETRIES (maxRetries o))
                                                      +:+ " attempts") |})
                   else Build_task id d o (r + 1) LoopHead];
         log := lg |}.
Proof.
  intros Hrow Hle. cbn [run]. f_equal.
  unfold turn at 3. cbn [tasks lookup list_lookup db log].
  unfold updateBatchStatus_step at 1. cbn [at_ t_retries batchId]. unfold t_maxRetries. cbn [options].
  apply Z.leb_le in Hle. rewrite Hle. unfold findUnique. rewrite Hrow.
  cbn [fmap option_fmap option_map]. cbn [insert list_insert].
  unfold turn at 2. cbn [tasks lookup list_lookup db log goto batchId data options t_retries].
  unfold updateBatchStatus_step at 1. cbn [at_ batchId data t_retries goto update].
  cbn [insert list_insert].
  unfold turn at 1. cbn [tasks lookup list_lookup db log].
  unfold on_error. rewrite isVersionConflict_record_not_found.
  unfold t_maxRetries. cbn [goto options t_retries batchId data].
  destruct (r + 1 >? default DEFAULT_MAX_RETRIES (maxRetries o)); reflexivity.
Qed.

Lemma conflicting_rounds (k : nat) : forall id d o r row dbv lg rest,
  dbv !! id = Some row ->
  r + Z.of_nat k <= default DEFAULT_MAX_RETRIES (maxRetries o) ->
  run (always_conflicting k ++ rest)
      {| db := dbv; tasks := [Build_task id d o r LoopHead]; log := lg |}
  = run rest
      {| db := dbv; tasks := [Build_task id d o (r + Z.of_nat k) LoopHead]; log := lg |}.
Proof.
  induction k as [|k IH]; intros id d o r row dbv lg rest Hrow Hle.
  - cbn [always_conflicting replicate mjoin list_join app].
    by replace (r + Z.of_nat 0) with r by lia.
  - change (always_conflicting (S k) ++ rest)%list
      with ((0%nat, @None js_error) :: (0%nat, Some record_not_found)
            :: (0%nat, None) :: (always_conflicting k ++ rest)%list).
    rewrite (conflicting_round id d o r row) by (done || lia).
    destruct (Z.gtb_spec (r + 1) (default DEFAULT_MAX_RETRIES (maxRetries o)));
      [lia|].
    rewrite (IH id d o (r + 1) row) by (done || lia).
    by replace (r + 1 + Z.of_nat k) with (r + Z.of_nat (S k)) by lia.
Qed.

Lemma run_finished_single schedule : forall t r dbv lg,
  at_ t = Finished r ->
  run schedule {| db := dbv; tasks := [t]; log := lg |}
  = {| db := dbv; tasks := [t]; log := lg |}.
Proof.
  induction schedule as [|[i fault] schedule IH]; intros t r dbv lg Hat; [done|].
  cbn [run]. unfold turn. cbn [tasks db log].
  destruct i as [|i]; cbn [lookup list_lookup]; [|by eapply IH].
  rewrite (step_finished t r) by done. cbn [insert list_insert].
  by eapply IH.
Qed.

(** Under persistent conflict a lone caller makes [maxRetries + 1]
    attempts and then returns the max-retries failure. *)
Lemma persistent_conflict id d o row dbv :
  dbv !! id = Some row ->
  0 <= default DEFAULT_MAX_RETRIES (maxRetries o) ->
  let m := default DEFAULT_MAX_RETRIES (maxRetries o) in
  let σ := {| db := dbv; tasks := [updateBatchStatus id d o]; log := [] |} in
  run (always_conflicting (Z.to_nat m)) σ
    = {| db := dbv; tasks := [Build_task id d o m LoopHead]; log := [] |} /\
  forall extra,
    run (always_conflicting (Z.to_nat m + 1 + extra)) σ
    = {| db := dbv;
         tasks := [Build_task id d o (m + 1) (Finished (max_retries_result o))];
         log := [] |}.
Proof.
  intros Hrow Hm. cbn zeta. unfold updateBatchStatus. split.
  - rewrite <- (app_nil_r (always_conflicting _)).
    rewrite (conflicting_rounds _ id d o 0 row) by (done || lia).
    cbn [run]. do 3 f_equal. lia.
  - intros extra.
    replace (always_conflicting (Z.to_nat (default DEFAULT_MAX_RETRIES (maxRetries o)) + 1 + extra))
      with (always_conflicting (Z.to_nat (default DEFAULT_MAX_RETRIES (maxRetries o)))
            ++ ((0%nat, @None js_error) :: (0%nat, Some record_not_found)
                :: (0%nat, None) :: always_conflicting extra))%list.
    2:{ unfold always_conflicting. rewrite <- !Nat.add_assoc, replicate_add.
        rewrite join_app. done. }
    rewrite (conflicting_rounds _ id d o 0 row) by (done || lia).
    rewrite (conflicting_round id d o _ row) by (done || lia).
    destruct (Z.gtb_spec (0 + Z.of_nat (Z.to_nat (default DEFAULT_MAX_RETRIES (maxRetries o))) + 1)
                (default DEFAULT_MAX_RETRIES (maxRetries o))); [|lia].
    erewrite run_finished_single by done.
    unfold max_retries_result.
    replace (0 + Z.of_nat (Z.to_nat (default DEFAULT_MAX_RETRIES (maxRetries o))) + 1)
      with (default DEFAULT_MAX_RETRIES (maxRetries o) + 1) by lia.
    done.
Qed.

(** C5: the failure modes of [updateBatchStatus] are returned results.
    (1) Whatever the schedule and the store do, a call that gets its turns
    ends with a result. (2) On a missing record the first step already
    returns a failure with zero retries. (3) An error that is not a version
    conflict ends the call at once with the retry count unchanged. (4) A
    version conflict counts one retry and either backs off or, past
    [maxRetries], returns the max-retries failure carrying the count; a
    stale version is such a conflict. (5) Under persistent conflict a lone
    caller is back at the loop head after [maxRetries] rounds and returns
    the failure with [maxRetries + 1] retries in the next one. *)
Theorem updateBatchStatus_failure_modes :
  (forall schedule σ i t,
      tasks σ !! i = Some t -> (budget t <= turns i schedule)%nat ->
      exists t' r, tasks (run schedule σ) !! i = Some t' /\ at_ t' = Finished r) /\
  (forall id d o (dbv : table),
      dbv !! id = None ->
      exists r,
        updateBatchStatus_step (updateBatchStatus id d o) None dbv = (goto (updateBatchStatus id d o) 0 (Finished r), dbv, false) /\
        success r = false /\ retries r = 0 /\
        (0 <= default DEFAULT_MAX_RETRIES (maxRetries o) ->
         error r = Some ("Batch " +:+ id +:+ " not found"))) /\
  (forall t e (dbv : table),
      isVersionConflict e = false ->
      (at_ t = LoopHead /\ t_retries t <= t_maxRetries t) \/
      (exists cv, at_ t = HaveCurrent cv) ->
      updateBatchStatus_step t (Some e) dbv
      = (goto t (t_retries t)
           (Finished {| success := false; r_version := None; retries := t_retries t;
                        error := Some ("Unexpected error: " +:+ show_message (message e)) |}),
         dbv, false)) /\
  (forall t cv fault (dbv : table) e,
      at_ t = HaveCurrent cv ->
      update fault (batchId t) cv (data t) (cv + 1) dbv = (Thrown e, dbv) ->
      isVersionConflict e = true ->
      updateBatchStatus_step t fault dbv
      = (if t_retries t + 1 >? t_maxRetries t
         then goto t (t_retries t + 1)
                (Finished {| success := false; r_version := None;
                             retries := t_retries t + 1;
                             error := Some ("Max retries reached after "
                                            +:+ show_Z (t_maxRetries t) +:+ " attempts") |})
         else goto t (t_retries t + 1) Backoff,
         dbv, false)) /\
  (forall id cv d (dbv : table) row,
      dbv !! id = Some row -> version row <> Some cv ->
      update None id cv d (cv + 1) dbv = (Thrown record_not_found, dbv) /\
      isVersionConflict record_not_found = true) /\
  (forall id d o row (dbv : table),
      dbv !! id = Some row ->
      0 <= default DEFAULT_MAX_RETRIES (maxRetries o) ->
      let m := default DEFAULT_MAX_RETRIES (maxRetries o) in
      let σ := {| db := dbv; tasks := [updateBatchStatus id d o]; log := [] |} in
      run (always_conflicting (Z.to_nat m)) σ
        = {| db := dbv; tasks := [Build_task id d o m LoopHead]; log := [] |} /\
      forall extra,
        run (always_conflicting (Z.to_nat m + 1 + extra)) σ
        = {| db := dbv;
             tasks := [Build_task id d o (m + 1) (Finished (max_retries_result o))];
             log := [] |}).
Proof.
  split; [|split; [|split; [|split; [|split]]]].
  - intros schedule σ i t. apply run_returns.
  - intros id d o dbv Hnone. unfold updateBatchStatus_step, updateBatchStatus, t_maxRetries, findUnique.
    cbn [at_ t_retries options batchId]. rewrite Hnone. cbn [fmap option_fmap option_map].
    destruct (0 <=? default DEFAULT_MAX_RETRIES (maxRetries o)) eqn:E.
    + eexists. split; [reflexivity|]. cbn. done.
    + eexists. split; [reflexivity|]. cbn. repeat split; try done.
      intros Hm. apply Z.leb_gt in E. lia.
  - intros t e dbv Hnc [[Hat Hle] | [cv Hat]]; unfold updateBatchStatus_step; rewrite Hat.
    + apply Z.leb_le in Hle. rewrite Hle. cbn [findUnique].
      unfold on_error. by rewrite Hnc.
    + cbn [update]. unfold on_error. by rewrite Hnc.
  - intros t cv fault dbv e Hat Hupd Hc. unfold updateBatchStatus_step. rewrite Hat, Hupd.
    unfold on_error. rewrite Hc.
    by destruct (t_retries t + 1 >? t_maxRetries t).
  - intros id cv d dbv row Hrow Hver. split; [|apply isVersionConflict_record_not_found].
    unfold update. rewrite Hrow. by rewrite bool_decide_eq_false_2.
  - intros id d o row dbv Hrow Hm. by apply (persistent_conflict id d o row).
Qed.

Lemma updateBatchStatus_failure_modes_witness :
  let o := {| maxRetries := Some 5; retryDelayMs := None |} in
  let σ := {| db := {[ "batch-1" := sample_batch ]};
              tasks := [updateBatchStatus "batch-1" no_change o]; log := [] |} in
  run (always_conflicting 6) σ
  = {| db := {[ "batch-1" := sample_batch ]};
       tasks := [Build_task "batch-1" no_change o 6 (Finished (max_retries_result o))];
       log := [] |}.
Proof.
  cbn zeta.
  destruct updateBatchStatus_failure_modes as (_ & _ & _ & _ & _ & Hpersist).
  destruct (Hpersist "batch-1" no_change {| maxRetries := Some 5; retryDelayMs := None |}
              sample_batch {[ "batch-1" := sample_batch ]}) as [_ Hend].
  - vm_compute. reflexivity.
  - cbn. lia.
  - exact (Hend 0%nat).
Defined.

(** *** Contention on one record *)

Lemma on_error_not_succeeded t e :
  succeeded (on_error t e) = false
  /\ batchId (on_error t e) = batchId t /\ data (on_error t e) = data t.
Proof.
  unfold on_error. destruct (isVersionConflict e); [|done].
  by destruct (t_retries t + 1 >? t_maxRetries t).
Qed.

(** What a step can do: nothing to the table and nothing to the success
    of the call, or one conditional write that matched the row's version
    and makes the call succeed. *)
Lemma step_cases t fault (dbv : table) :
  let '(t', dbv', wrote) := updateBatchStatus_step t fault dbv in
  batchId t' = batchId t /\ data t' = data t /\
  ((wrote = false /\ dbv' = dbv /\ succeeded t' = succeeded t) \/
   (wrote = true /\ succeeded t = false /\ succeeded t' = true /\
    exists cv row,
      dbv !! batchId t = Some row /\ version row = Some cv /\
      dbv' = <[batchId t := write_row (data t) (cv + 1) row]> dbv)).
Proof.
  unfold updateBatchStatus_step. destruct (at_ t) as [|cv| |r] eqn:Hat.
  - assert (succeeded t = false) as Hs by (unfold succeeded; by rewrite Hat).
    destruct (t_retries t <=? t_maxRetries t).
    + destruct (findUnique fault (batchId t) dbv) as [[current|]|e].
      * rewrite Hs. naive_solver.
      * rewrite Hs. naive_solver.
      * destruct (on_error_not_succeeded t e) as (? & ? & ?). rewrite Hs. naive_solver.
    + rewrite Hs. naive_solver.
  - assert (succeeded t = false) as Hs by (unfold succeeded; by rewrite Hat).
    unfold update. destruct fault as [e|].
    + destruct (on_error_not_succeeded t e) as (? & ? & ?). rewrite Hs. naive_solver.
    + destruct (dbv !! batchId t) as [row|] eqn:Hrow.
      * destruct (bool_decide (version row = Some cv)) eqn:Hv.
        -- apply bool_decide_eq_true in Hv.
           split; [done|]. split; [done|]. right. naive_solver.
        -- destruct (on_error_not_succeeded t record_not_found) as (? & ? & ?).
           rewrite Hs. naive_solver.
      * destruct (on_error_not_succeeded t record_not_found) as (? & ? & ?).
        rewrite Hs. naive_solver.
  - assert (succeeded t = false) as Hs by (unfold succeeded; by rewrite Hat).
    rewrite Hs. naive_solver.
  - naive_solver.
Qed.

Section Contention.
Variable id : string.
Variable row0 : Batch.
Variable calls : list task.

Lemma replay_snoc order i row :
  replay calls (order ++ [i]) row
  = match calls !! i with
    | Some t => write_row (data t)
                  (default 0 (version (replay calls order row)) + 1)
                  (replay calls order row)
    | None => replay calls order row
    end.
Proof. unfold replay. by rewrite foldl_app. Qed.

Lemma turn_consistent i fault σ :
  consistent id row0 calls σ -> consistent id row0 calls (turn i fault σ).
Proof.
  intros [Hargs Hrow Hver Hnd Hlog]. unfold turn.
  destruct (tasks σ !! i) as [t|] eqn:Ht; [|by constructor].
  pose proof (step_cases t fault (db σ)) as Hstep.
  destruct (updateBatchStatus_step t fault (db σ)) as [[t' dbv'] wrote].
  destruct Hstep as (Hid & Hdata & Hcase).
  destruct (Hargs i t Ht) as (Htid & t0 & Ht0 & Hd0).
  assert (i < length (tasks σ))%nat as Hi by (by eapply lookup_lt_Some).
  assert (forall j u, <[i:=t']> (tasks σ) !! j = Some u ->
            (j = i /\ u = t') \/ (j <> i /\ tasks σ !! j = Some u)) as Hlk.
  { intros j u Hu. destruct (decide (j = i)) as [->|Hne].
    - rewrite list_lookup_insert_eq in Hu by done. left. by simplify_eq.
    - rewrite list_lookup_insert_ne in Hu by done. by right. }
  destruct Hcase as [(-> & -> & Hsame) | (-> & Hno & Hyes & cv & row & Hr & Hv & ->)].
  - constructor; cbn [db tasks log]; try done.
    + intros j u Hu. destruct (Hlk j u Hu) as [[-> ->]|[_ Hu']]; [|by eapply Hargs].
      split; [congruence|]. exists t0. split; [done|congruence].
    + intros j. rewrite Hlog. split.
      * intros (u & Hu & Hsu). destruct (decide (j = i)) as [->|Hne].
        -- exists t'. rewrite list_lookup_insert_eq by done.
           split; [done|]. simplify_eq. congruence.
        -- exists u. by rewrite list_lookup_insert_ne.
      * intros (u & Hu & Hsu). destruct (Hlk j u Hu) as [[-> ->]|[_ Hu']].
        -- exists t. split; [done|congruence].
        -- by exists u.
  - rewrite Htid in Hr. rewrite Hrow in Hr. injection Hr as <-.
    assert (i ∉ log σ) as Hnotin.
    { rewrite Hlog. intros (u & Hu & Hsu). simplify_eq. congruence. }
    assert (replay calls (log σ ++ [i]) row0
            = write_row (data t) (cv + 1) (replay calls (log σ) row0)) as Hreplay.
    { rewrite replay_snoc, Ht0, Hv, Hd0. done. }
    constructor; cbn [db tasks log].
    + intros j u Hu. destruct (Hlk j u Hu) as [[-> ->]|[_ Hu']]; [|by eapply Hargs].
      split; [congruence|]. exists t0. split; [done|congruence].
    + rewrite Htid, lookup_insert_eq. by rewrite Hreplay.
    + rewrite Hreplay. cbn [version write_row]. rewrite length_app. cbn [length].
      rewrite Hver in Hv. f_equal. simplify_eq. lia.
    + apply NoDup_app. split; [done|]. split; [|apply NoDup_singleton].
      intros x Hx Hx'. apply list_elem_of_singleton in Hx'. by subst.
    + intros j. rewrite elem_of_app, list_elem_of_singleton, Hlog. split.
      * intros [(u & Hu & Hsu) | ->].
        -- destruct (decide (j = i)) as [->|Hne]; [simplify_eq; congruence|].
           exists u. by rewrite list_lookup_insert_ne.
        -- exists t'. by rewrite list_lookup_insert_eq.
      * intros (u & Hu & Hsu). destruct (Hlk j u Hu) as [[-> ->]|[_ Hu']].
        -- by right.
        -- left. by exists u.
Qed.

Lemma run_consistent schedule : forall σ,
  consistent id row0 calls σ -> consistent id row0 calls (run schedule σ).
Proof.
  induction schedule as [|[i fault] schedule IH]; intros σ Hσ; [done|].
  cbn [run]. apply IH. by apply turn_consistent.
Qed.

Lemma turn_length i fault σ : length (tasks (turn i fault σ)) = length (tasks σ).
Proof.
  unfold turn. destruct (tasks σ !! i) as [t|]; [|done].
  destruct (updateBatchStatus_step t fault (db σ)) as [[t' dbv'] wrote]. cbn.
  apply length_insert.
Qed.

Lemma run_length schedule : forall σ,
  length (tasks (run schedule σ)) = length (tasks σ).
Proof.
  induction schedule as [|[i fault] schedule IH]; intros σ; [done|].
  cbn [run]. by rewrite IH, turn_length.
Qed.

(** When every call has succeeded the log is a rearrangement of all of
    them. *)
Lemma all_succeeded_log σ :
  consistent id row0 calls σ ->
  Forall (fun t => succeeded t = true) (tasks σ) ->
  log σ ≡ₚ seq 0 (length (tasks σ)).
Proof.
  intros [_ _ _ Hnd Hlog] Hall.
  apply NoDup_Permutation; [done|apply NoDup_seq|].
  intros i. rewrite Hlog, elem_of_seq. split.
  - intros (t & Ht & _). apply lookup_lt_Some in Ht. lia.
  - intros [_ Hi]. destruct (lookup_lt_is_Some_2 (tasks σ) i) as [t Ht]; [lia|].
    exists t. split; [done|].
    rewrite Forall_forall in Hall. apply Hall. by eapply list_elem_of_lookup_2.
Qed.

End Contention.

Lemma initial_consistent id row0 (requests : list (BatchUpdateData * UpdateOptions))
    (dbv : table) :
  dbv !! id = Some row0 -> version row0 = Some 0 ->
  consistent id row0 ((fun rq => updateBatchStatus id rq.1 rq.2) <$> requests)
    {| db := dbv; tasks := (fun rq => updateBatchStatus id rq.1 rq.2) <$> requests; log := [] |}.
Proof.
  intros Hrow Hver. constructor; cbn [db tasks log]; try done.
  - intros i t Ht. split; [|by exists t].
    rewrite list_lookup_fmap in Ht.
    destruct (requests !! i) as [rq|]; by simplify_eq/=.
  - apply NoDup_nil_2.
  - intros i. split; [by intros ?%elem_of_nil|].
    intros (t & Ht & Hs). rewrite list_lookup_fmap in Ht.
    destruct (requests !! i) as [rq|]; by simplify_eq/=.
Qed.

Lemma replay_last_set {A} (get : Batch -> A) (field : BatchUpdateData -> option A)
    (requests : list (BatchUpdateData * UpdateOptions)) id :
  (forall d v r, get (write_row d v r) = default (get r) (field d)) ->
  forall order row0,
  get (replay ((fun rq => updateBatchStatus id rq.1 rq.2) <$> requests) order row0)
  = last_set field requests.*1 order (get row0).
Proof.
  intros Hwrite order row0. induction order as [|i order IH] using rev_ind; [done|].
  rewrite replay_snoc. unfold last_set in *. rewrite omap_app.
  assert (omap (fun j => requests.*1 !! j ≫= field) [i]
          = match requests !! i ≫= (fun rq => field rq.1) with
            | Some x => [x]
            | None => []
            end) as ->.
  { cbn. rewrite list_lookup_fmap. by destruct (requests !! i). }
  rewrite list_lookup_fmap.
  destruct (requests !! i) as [rq|]; cbn [fmap option_fmap option_map mbind option_bind].
  - rewrite Hwrite, IH. cbn [updateBatchStatus data].
    destruct (field rq.1) as [x|].
    + by rewrite last_snoc.
    + by rewrite app_nil_r.
  - by rewrite IH, app_nil_r.
Qed.

Lemma replay_fields_applied (requests : list (BatchUpdateData * UpdateOptions)) id order row0 :
  fields_applied requests.*1 order row0
    (replay ((fun rq => updateBatchStatus id rq.1 rq.2) <$> requests) order row0).
Proof.
  unfold fields_applied. repeat split.
  - by apply (replay_last_set status d_status).
  - by apply (replay_last_set totalAlbums d_totalAlbums).
  - by apply (replay_last_set completedAlbums d_completedAlbums).
  - by apply (replay_last_set failedAlbums d_failedAlbums).
  - apply (replay_last_set finalSongCount (fun d => Some <$> d_finalSongCount d)).
    intros d v r. cbn. by destruct (d_finalSongCount d).
  - by apply (replay_last_set errorMessage d_errorMessage).
  - apply (replay_last_set completedAt (fun d => Some <$> d_completedAt d)).
    intros d v r. cbn. by destruct (d_completedAt d).
Qed.

(** C2: take any number of concurrent [updateBatchStatus] calls on one
    record whose version is 0, under any schedule and any store faults.
    At every moment the record is the initial row after the logged writes
    in order; field by field, it holds what the last logged call that sets
    the field asked for, and the initial value where no logged call sets
    the field; its version is the number of logged writes; and the log
    lists exactly the calls that have returned success, each once. Hence,
    when all calls report success, the final version is their number and
    every call's field update was applied, exactly once. *)
Theorem concurrent_updates_all_applied id row0
    (requests : list (BatchUpdateData * UpdateOptions)) (dbv : table) schedule :
  dbv !! id = Some row0 -> version row0 = Some 0 ->
  let calls := (fun rq => updateBatchStatus id rq.1 rq.2) <$> requests in
  let σ := run schedule {| db := dbv; tasks := calls; log := [] |} in
  (exists row,
      db σ !! id = Some row /\
      row = replay calls (log σ) row0 /\
      fields_applied requests.*1 (log σ) row0 row /\
      version row = Some (Z.of_nat (length (log σ))) /\
      NoDup (log σ) /\
      (forall i, i ∈ log σ <-> exists t, tasks σ !! i = Some t /\ succeeded t = true)) /\
  (Forall (fun t => succeeded t = true) (tasks σ) ->
   log σ ≡ₚ seq 0 (length requests) /\
   version <$> db σ !! id = Some (Some (Z.of_nat (length requests)))).
Proof.
  intros Hrow Hver. cbn zeta.
  pose proof (run_consistent id row0 _ schedule _
                (initial_consistent id row0 requests dbv Hrow Hver)) as Hc.
  split.
  - destruct Hc as [_ Hr Hv Hnd Hlog].
    eexists. split; [exact Hr|]. split; [reflexivity|].
    split; [apply replay_fields_applied|]. done.
  - intros Hall.
    pose proof (all_succeeded_log id row0 _ _ Hc Hall) as Hperm.
    rewrite run_length in Hperm. cbn [tasks] in Hperm.
    rewrite length_fmap in Hperm. split; [done|].
    destruct Hc as [_ Hr Hv _ _]. rewrite Hr. cbn. rewrite Hv.
    by rewrite Hperm, length_seq.
Qed.

Lemma concurrent_updates_all_applied_witness :
  let requests := [(set_completed 5, default_options); (set_failed 2, default_options)] in
  let σ := run racing_schedule
             {| db := {[ "batch-1" := sample_batch ]};
                tasks := (fun rq => updateBatchStatus "batch-1" rq.1 rq.2) <$> requests;
                log := [] |} in
  log σ ≡ₚ [0; 1]%nat /\
  exists row, db σ !! "batch-1" = Some row /\
    completedAlbums row = 5 /\ failedAlbums row = 2 /\ totalAlbums row = 0 /\
    status row = "downloading" /\ version row = Some 2.
Proof.
  cbn zeta.
  destruct (concurrent_updates_all_applied "batch-1" sample_batch
              [(set_completed 5, default_options); (set_failed 2, default_options)]
              {[ "batch-1" := sample_batch ]} racing_schedule)
    as [(row & Hrow & _ & Hfields & Hver & _) Hall].
  - vm_compute. reflexivity.
  - reflexivity.
  - destruct Hall as [Hlog _]; [vm_compute; repeat constructor|].
    split; [exact Hlog|]. exists row. split; [exact Hrow|].
    destruct Hfields as (Hstatus & Htotal & Hcompleted & Hfailed & _).
    rewrite Hstatus, Htotal, Hcompleted, Hfailed, Hver.
    vm_compute. repeat split.
Defined.

End OptimisticBatchUpdateFacts.

(** * Properties of the webhook route *)

Module WebhookFacts.
Import Webhook.

Ltac run_collaborators :=
  repeat match goal with
         | |- context [match ?x with _ => _ end] => destruct x eqn:?; cbn in *; simplify_eq
         | H : context [match ?x with _ => _ end] |- _ => destruct x eqn:?; cbn in *; simplify_eq
         end.

Section Route.
Variable E : env.

(** Processing never touches the response. *)
Lemma processing_no_response eventId eventType p :
  forallb (fun e => negb (is_response e))
          (snd (processWebhookEvent E eventId eventType p)) = true.
Proof.
  unfold processWebhookEvent, process_try, handleGrab, handleDownload,
    handleImportFailure, bindW, perform, emit, retW.
  destruct (switch eventType); run_collaborators; reflexivity.
Qed.

(** An error of the [try] block is handed to [markFailed]. *)
Lemma processing_records_failure eventId eventType p e :
  fst (process_try E eventId eventType p) = Thrown e ->
  MarkFailed eventId (message e) ∈ snd (processWebhookEvent E eventId eventType p).
Proof.
  unfold processWebhookEvent. intros Hthrown.
  destruct (process_try E eventId eventType p) as [[|e'] t1]; cbn in Hthrown; [done|].
  simplify_eq. cbn. rewrite !elem_of_app, !list_elem_of_In. cbn. tauto.
Qed.

(** The route's [.catch] only ever sees an error of [markFailed]. *)
Lemma processing_escape eventId eventType p e :
  fst (processWebhookEvent E eventId eventType p) = Thrown e ->
  exists e0, fst (process_try E eventId eventType p) = Thrown e0 /\
             markFailed E eventId (message e0) = Thrown e.
Proof.
  unfold processWebhookEvent.
  destruct (process_try E eventId eventType p) as [[|e0] t1]; cbn; [done|].
  unfold perform. destruct (markFailed E eventId (message e0)) as [|e1] eqn:Hm; cbn; [done|].
  intros [= <-]. by exists e0.
Qed.

(** C8 (amended): for a request that passes the route's guards,
    [storeEvent] is called first. When it answers, the success response is
    sent next and processing runs only after it; processing sends no
    response; an error thrown by an event handler or by [markProcessed] is
    caught and handed to [markFailed]; an error of [markFailed] itself is
    caught by the route and only logged. When [storeEvent] throws, no
    success response is sent. In every case the route itself returns
    normally. *)
Theorem store_respond_then_process (req : request) :
  accepted E req = true ->
  let type_ := eventType (body req) in
  match storeEvent E "lidarr" type_ (body req) with
  | Returned eventId =>
      let processing := processWebhookEvent E eventId type_ (body req) in
      post_lidarr E req
      = (Returned tt,
         [GetSystemSettings; StoreEvent "lidarr" type_ (body req);
          Respond (Stored eventId)]
         ++ snd processing
         ++ match fst processing with
            | Thrown e => [LogError "[WEBHOOK] Failed to process event" (message e)]
            | Returned _ => []
            end) /\
      forallb (fun e => negb (is_response e)) (snd processing) = true /\
      (forall e, fst (process_try E eventId type_ (body req)) = Thrown e ->
                 MarkFailed eventId (message e) ∈ snd processing) /\
      (forall e, fst processing = Thrown e ->
                 exists e0, fst (process_try E eventId type_ (body req)) = Thrown e0 /\
                            markFailed E eventId (message e0) = Thrown e)
  | Thrown e =>
      post_lidarr E req
      = (Returned tt,
         [GetSystemSettings; StoreEvent "lidarr" type_ (body req); Rejected e;
          LogError "Webhook error:" (message e); Respond Failed])
  end.
Proof.
  unfold accepted. intros Hacc. cbn zeta.
  destruct (getSystemSettings E) as [[st|]|] eqn:Hst; try done.
  apply andb_true_iff in Hacc as [Hen Hsec]. apply negb_true_iff in Hsec.
  unfold post_lidarr. rewrite Hst. unfold perform, emit. cbn [bindW catchW].
  rewrite Hen. cbn [negb option_bind mbind]. rewrite Hsec.
  destruct (storeEvent E "lidarr" (eventType (body req)) (body req)) as [eventId|e];
    [|done].
  split; [|split; [|split]].
  - destruct (processWebhookEvent E eventId (eventType (body req)) (body req))
      as [[[]|e] t]; cbn; [by rewrite app_nil_r|done].
  - apply processing_no_response.
  - intros e. apply processing_records_failure.
  - intros e. apply processing_escape.
Qed.


End Route.

(** C8, as stated, fails: with the event store down, the error that
    [markFailed] throws during processing is not handed to [markFailed];
    the route only logs it. *)
Lemma every_processing_error_reaches_markFailed_fails :
  ~ every_processing_error_reaches_markFailed.
Proof.
  intros Hclaim.
  specialize (Hclaim all_down_env "evt-1" "Grab" (body grab_request) store_down).
  assert (snd (processWebhookEvent all_down_env "evt-1" "Grab" (body grab_request))
          = [OnDownloadGrabbed (body grab_request); Rejected manager_down;
             LogError "[WEBHOOK] Event processing failed:" (message manager_down);
             MarkFailed "evt-1" (message manager_down); Rejected store_down;
             Metrics "Grab" "failed"]) as Htrace by (vm_compute; reflexivity).
  rewrite Htrace in Hclaim.
  assert (MarkFailed "evt-1" (message store_down)
          ∈ [OnDownloadGrabbed (body grab_request); Rejected manager_down;
             LogError "[WEBHOOK] Event processing failed:" (message manager_down);
             MarkFailed "evt-1" (message manager_down); Rejected store_down;
             Metrics "Grab" "failed"]) as Hin.
  { apply Hclaim. do 4 apply list_elem_of_further. apply list_elem_of_here. }
  repeat (apply elem_of_cons in Hin as [Hin|Hin]; [discriminate Hin|]).
  by apply elem_of_nil in Hin.
Qed.

Lemma store_respond_then_process_witness :
  post_lidarr failing_env grab_request
  = (Returned tt,
     [GetSystemSettings; StoreEvent "lidarr" "Grab" (body grab_request);
      Respond (Stored "evt-1");
      OnDownloadGrabbed (body grab_request); Rejected manager_down;
      LogError "[WEBHOOK] Event processing failed:" (message manager_down);
      MarkFailed "evt-1" (message manager_down);
      Metrics "Grab" "failed"]).
Proof.
  pose proof (store_respond_then_process failing_env grab_request) as H.
  cbn zeta in H. change (storeEvent failing_env "lidarr" (eventType (body grab_request))
                           (body grab_request)) with (@Returned string "evt-1") in H.
  cbn iota in H. destruct H as [-> _]; [vm_compute; reflexivity|].
  vm_compute. reflexivity.
Defined.

End WebhookFacts.

(** * Properties of the job de-duplication *)

Module AcquisitionFacts.
Import Acquisition.

Lemma find_snoc_None {A} (f : A -> bool) l x :
  List.find f l = None ->
  List.find f (l ++ [x]) = if f x then Some x else None.
Proof.
  induction l as [|y l IH]; cbn; [done|].
  destruct (f y); [done|]. exact IH.
Qed.

Lemma find_active_new k jobs0 :
  find_active k jobs0 = None ->
  find_active k (jobs0 ++ [new_job k jobs0]) = Some (new_job k jobs0).
Proof.
  intros Hnone. unfold find_active. rewrite find_snoc_None by done.
  unfold active_for. cbn. by rewrite bool_decide_eq_true_2.
Qed.

Lemma fresh_id_above jobs j : j ∈ jobs -> (id j < fresh_id jobs)%nat.
Proof.
  unfold fresh_id. induction jobs as [|x jobs IH]; intros Hin.
  - by apply elem_of_nil in Hin.
  - apply elem_of_cons in Hin as [->|Hin]; cbn; [lia|].
    specialize (IH Hin). lia.
Qed.

Section SameTuple.
Variable k : tuple.
Variable jobs0 : list DownloadJob.

Lemma insert_lookup_cases (l : list call) i c' j c :
  <[i:=c']> l !! j = Some c ->
  (j = i /\ c = c') \/ (j <> i /\ l !! j = Some c).
Proof.
  intros H. destruct (decide (j = i)) as [->|Hne].
  - left. split; [done|].
    destruct (decide (i < length l)%nat).
    + rewrite list_lookup_insert_eq in H by done. by simplify_eq.
    + rewrite list_insert_ge in H by lia.
      apply lookup_lt_Some in H. lia.
  - right. by rewrite list_lookup_insert_ne in H.
Qed.

(** Replacing a call by one with the same standing towards the lock. *)
Lemma inv_replace σ i c c' jobs' :
  inv k jobs0 σ -> calls σ !! i = Some c ->
  key c' = k -> in_critical_section c' = in_critical_section c ->
  phase k jobs0 {| jobs := jobs'; locks := locks σ; calls := <[i:=c']> (calls σ) |} ->
  inv k jobs0 {| jobs := jobs'; locks := locks σ; calls := <[i:=c']> (calls σ) |}.
Proof.
  intros [Hkey Hlock Hmutex _] Hc Hk Hcs Hphase.
  assert (i < length (calls σ))%nat as Hi by (by eapply lookup_lt_Some).
  constructor; cbn [jobs locks calls]; [| | |done].
  - intros j cj Hj. apply insert_lookup_cases in Hj as [[-> ->]|[_ Hj]]; [done|eauto].
  - rewrite Hlock. split.
    + intros (j & cj & Hj & Hcj). destruct (decide (j = i)) as [->|Hne].
      * exists i, c'. rewrite list_lookup_insert_eq by done.
        split; [done|]. simplify_eq. congruence.
      * exists j, cj. by rewrite list_lookup_insert_ne.
    + intros (j & cj & Hj & Hcj).
      apply insert_lookup_cases in Hj as [[-> ->]|[_ Hj]]; [|eauto].
      exists i, c. split; [done|congruence].
  - intros a b ca cb Ha Hb Hca Hcb.
    apply insert_lookup_cases in Ha as [[-> ->]|[_ Ha]];
      apply insert_lookup_cases in Hb as [[-> ->]|[_ Hb]]; try done.
    + apply (Hmutex i b c cb); congruence.
    + apply (Hmutex a i ca c); congruence.
    + by apply (Hmutex a b ca cb).
Qed.

Lemma turn_inv i σ : inv k jobs0 σ -> inv k jobs0 (turn i σ).
Proof.
  intros Hinv. pose proof Hinv as [Hkey Hlock Hmutex Hphase]. unfold turn.
  destruct (calls σ !! i) as [c|] eqn:Hc; [|done].
  pose proof (Hkey i c Hc) as Hk.
  assert (i < length (calls σ))%nat as Hi by (by eapply lookup_lt_Some).
  unfold createDownloadJob_step.
  destruct (at_ c) as [| | |j|j] eqn:Hat.
  - (* Waiting *)
    destruct (bool_decide (key c ∈ locks σ)) eqn:Hheld.
    { rewrite list_insert_id by done. by destruct σ. }
    apply bool_decide_eq_false in Hheld. rewrite Hk in Hheld |- *.
    assert (forall j cj, calls σ !! j = Some cj -> in_critical_section cj = false) as Hnone.
    { intros j cj Hcj. destruct (in_critical_section cj) eqn:E; [|done].
      exfalso. apply Hheld, Hlock. eauto. }
    constructor; cbn [jobs locks calls].
    + intros j cj Hj. apply insert_lookup_cases in Hj as [[-> ->]|[_ Hj]]; [done|eauto].
    + split; [|set_solver]. intros _. exists i, {| key := k; at_ := Checking |}.
      by rewrite list_lookup_insert_eq.
    + intros a b ca cb Ha Hb Hca Hcb.
      apply insert_lookup_cases in Ha as [[-> ->]|[_ Ha]];
        apply insert_lookup_cases in Hb as [[-> ->]|[_ Hb]]; try done.
      * rewrite (Hnone _ _ Hb) in Hcb. done.
      * rewrite (Hnone _ _ Ha) in Hca. done.
      * rewrite (Hnone _ _ Ha) in Hca. done.
    + destruct Hphase as [[Hj Hp]|(Hn & Hj & Hp)]; [left|right]; repeat split; try done.
      all: intros a ca Ha; apply insert_lookup_cases in Ha as [[-> ->]|[_ Ha]];
        [done|by eapply Hp].
  - (* Checking *)
    rewrite Hk.
    assert (in_critical_section c = true) as Hcs by (unfold in_critical_section; by rewrite Hat).
    destruct (find_active k (jobs σ)) as [existing|] eqn:Hfind.
    + apply (inv_replace σ i c); try done.
      destruct Hphase as [[Hj Hp]|(Hn & Hj & Hp)]; [left|right]; cbn [jobs calls];
        repeat split; try done.
      * intros a ca Ha. apply insert_lookup_cases in Ha as [[-> ->]|[_ Ha]];
          [cbn; congruence|by eapply Hp].
      * intros a ca Ha. apply insert_lookup_cases in Ha as [[-> ->]|[_ Ha]];
          [|by eapply Hp].
        cbn. rewrite Hj, find_active_new in Hfind by done. congruence.
    + apply (inv_replace σ i c); try done.
      destruct Hphase as [[Hj Hp]|(Hn & Hj & Hp)]; cbn [jobs calls].
      * left. split; [done|].
        intros a ca Ha. apply insert_lookup_cases in Ha as [[-> ->]|[_ Ha]];
          [cbn; congruence|by eapply Hp].
      * rewrite Hj, find_active_new in Hfind by done. done.
  - (* Inserting *)
    rewrite Hk.
    assert (in_critical_section c = true) as Hcs by (unfold in_critical_section; by rewrite Hat).
    apply (inv_replace σ i c); try done.
    destruct Hphase as [[Hj Hp]|(Hn & Hj & Hp)].
    + pose proof (Hp i c Hc) as Hnone. rewrite Hat in Hnone.
      right. cbn [jobs calls]. rewrite Hj. repeat split; try done.
      intros a ca Ha. apply insert_lookup_cases in Ha as [[-> ->]|[Hne Ha]]; [done|].
      pose proof (Hp a ca Ha) as Hca.
      destruct (at_ ca) eqn:Hata; try done; try congruence.
      exfalso. apply Hne. symmetry. apply (Hmutex i a c ca); try done.
      unfold in_critical_section. by rewrite Hata.
    + exfalso. pose proof (Hp i c Hc) as Hf. by rewrite Hat in Hf.
  - (* Releasing *)
    rewrite Hk.
    assert (in_critical_section c = true) as Hcs by (unfold in_critical_section; by rewrite Hat).
    constructor; cbn [jobs locks calls].
    + intros a ca Ha. apply insert_lookup_cases in Ha as [[-> ->]|[_ Ha]]; [done|eauto].
    + split; [set_solver|]. intros (a & ca & Ha & Hca). exfalso.
      apply insert_lookup_cases in Ha as [[-> ->]|[Hne Ha]]; [done|].
      apply Hne. by apply (Hmutex a i ca c).
    + intros a b ca cb Ha Hb Hca Hcb.
      apply insert_lookup_cases in Ha as [[-> ->]|[_ Ha]];
        apply insert_lookup_cases in Hb as [[-> ->]|[_ Hb]]; try done.
      by apply (Hmutex a b ca cb).
    + destruct Hphase as [[Hj Hp]|(Hn & Hj & Hp)]; [left|right]; repeat split; try done.
      all: intros a ca Ha; apply insert_lookup_cases in Ha as [[-> ->]|[_ Ha]];
        [|by eapply Hp].
      all: pose proof (Hp i c Hc) as Hci; by rewrite Hat in Hci.
  - (* Resolved *)
    rewrite list_insert_id by done. by destruct σ.
Qed.

Lemma run_inv schedule : forall σ, inv k jobs0 σ -> inv k jobs0 (run schedule σ).
Proof.
  induction schedule as [|i schedule IH]; intros σ Hσ; [done|].
  cbn [run]. apply IH. by apply turn_inv.
Qed.

Lemma two_calls_inv : inv k jobs0 (two_calls k jobs0).
Proof.
  constructor; cbn.
  - intros [|[|i]] c Hc; by simplify_eq/=.
  - split; [set_solver|]. intros ([|[|i]] & c & Hc & Hcs); by simplify_eq/=.
  - intros [|[|i]] j ci cj Hci; by simplify_eq/=.
  - left. split; [done|]. intros [|[|i]] c Hc; by simplify_eq/=.
Qed.

Lemma calls_turn_other i j σ : i <> j -> calls (turn j σ) !! i = calls σ !! i.
Proof.
  intros Hne. unfold turn. destruct (calls σ !! j) as [c|]; [|done].
  destruct (createDownloadJob_step c (jobs σ) (locks σ)) as [[c' jobs'] locks'].
  cbn. by rewrite list_lookup_insert_ne.
Qed.

Lemma calls_turn_length i σ : length (calls (turn i σ)) = length (calls σ).
Proof.
  unfold turn. destruct (calls σ !! i) as [c|]; [|done].
  destruct (createDownloadJob_step c (jobs σ) (locks σ)) as [[c' jobs'] locks'].
  cbn. apply length_insert.
Qed.

Lemma turn_progress i σ c :
  calls σ !! i = Some c ->
  (at_ c = Waiting -> k ∉ locks σ) -> key c = k ->
  exists c', calls (turn i σ) !! i = Some c' /\
             (steps_left c' <= steps_left c - 1)%nat /\ at_ c' <> Waiting.
Proof.
  intros Hc Hfree Hk. unfold turn. rewrite Hc.
  assert (i < length (calls σ))%nat as Hi by (by eapply lookup_lt_Some).
  unfold createDownloadJob_step, steps_left.
  destruct (at_ c) as [| | |j|j] eqn:Hat.
  - rewrite bool_decide_eq_false_2 by (rewrite Hk; auto).
    cbn. rewrite list_lookup_insert_eq by done. eexists. split; [done|]. cbn. split; [lia|done].
  - destruct (find_active (key c) (jobs σ)); cbn;
      rewrite list_lookup_insert_eq by done; eexists; (split; [done|]); cbn;
      (split; [lia|done]).
  - cbn. rewrite list_lookup_insert_eq by done. eexists. split; [done|]. cbn. split; [lia|done].
  - cbn. rewrite list_lookup_insert_eq by done. eexists. split; [done|]. cbn. split; [lia|done].
  - cbn. rewrite list_lookup_insert_eq by done. exists c. rewrite Hat. split; [done|].
    split; [lia|done].
Qed.

(** A call that is not kept waiting resolves within four turns of its
    own. *)
Lemma solo_run (n : nat) : forall i σ c,
  inv k jobs0 σ -> calls σ !! i = Some c ->
  (at_ c = Waiting -> k ∉ locks σ) ->
  exists c', calls (run (replicate n i) σ) !! i = Some c' /\
             (steps_left c' <= steps_left c - n)%nat.
Proof.
  induction n as [|n IH]; intros i σ c Hinv Hc Hfree.
  - exists c. cbn. split; [done|lia].
  - cbn [replicate run].
    destruct (turn_progress i σ c Hc Hfree (inv_key _ _ _ Hinv _ _ Hc)) as (c1 & Hc1 & Hm & Hnw).
    destruct (IH i (turn i σ) c1 (turn_inv i σ Hinv) Hc1) as (c2 & Hc2 & Hm2); [done|].
    exists c2. split; [done|lia].
Qed.

Lemma steps_left_0 c : steps_left c = 0%nat -> exists j, at_ c = Resolved j.
Proof. unfold steps_left. destruct (at_ c); try done. eauto. Qed.

Lemma run_other schedule : forall i σ,
  Forall (fun j => j <> i) schedule ->
  calls (run schedule σ) !! i = calls σ !! i.
Proof.
  induction schedule as [|j schedule IH]; intros i σ Hall; [done|].
  apply Forall_cons in Hall as [Hj Hall]. cbn [run].
  rewrite IH by done. by apply calls_turn_other.
Qed.

Lemma run_blocked (n : nat) i σ c :
  calls σ !! i = Some c -> at_ c = Waiting -> key c ∈ locks σ ->
  run (replicate n i) σ = σ.
Proof.
  intros Hc Hat Hheld. induction n as [|n IH]; [done|].
  cbn [replicate run].
  assert (turn i σ = σ) as ->; [|done].
  unfold turn. rewrite Hc. unfold createDownloadJob_step. rewrite Hat.
  rewrite bool_decide_eq_true_2 by done.
  rewrite list_insert_id by done. by destruct σ.
Qed.

Lemma calls_run_length schedule : forall σ,
  length (calls (run schedule σ)) = length (calls σ).
Proof.
  induction schedule as [|i schedule IH]; intros σ; [done|].
  cbn [run]. by rewrite IH, calls_turn_length.
Qed.

(** With two calls in flight, the lock is free once neither is in its
    critical section. *)
Lemma lock_free σ c0 c1 :
  inv k jobs0 σ -> calls σ = [c0; c1] ->
  in_critical_section c0 = false -> in_critical_section c1 = false ->
  k ∉ locks σ.
Proof.
  intros Hinv Hcalls H0 H1 Hheld.
  apply (inv_lock _ _ _ Hinv) in Hheld as (i & c & Hc & Hcs).
  rewrite Hcalls in Hc. destruct i as [|[|i]]; simplify_eq/=; congruence.
Qed.

Lemma resolved_not_critical c j : at_ c = Resolved j -> in_critical_section c = false.
Proof. unfold in_critical_section. by intros ->. Qed.

Lemma waiting_blocked_dec c (σ : system) :
  (at_ c = Waiting /\ k ∈ locks σ) \/ ~ (at_ c = Waiting /\ k ∈ locks σ).
Proof.
  destruct (at_ c) eqn:Hat; try (right; intros [? _]; done).
  destruct (decide (k ∈ locks σ)); [by left|]. right. by intros [_ ?].
Qed.

Lemma run_app s1 : forall s2 σ, run (s1 ++ s2) σ = run s2 (run s1 σ).
Proof. induction s1 as [|x s1 IH]; intros; cbn; [done|apply IH]. Qed.

Lemma run_two σ a b schedule :
  calls σ = [a; b] -> exists a' b', calls (run schedule σ) = [a'; b'].
Proof.
  intros Hσ. pose proof (calls_run_length schedule σ) as Hlen. rewrite Hσ in Hlen.
  destruct (calls (run schedule σ)) as [|a' [|b' [|]]]; try done. eauto.
Qed.

(** Four turns of its own resolve a call unless the other one holds the
    lock. *)
Lemma four_turns i σ c :
  inv k jobs0 σ -> calls σ !! i = Some c ->
  ~ (at_ c = Waiting /\ k ∈ locks σ) ->
  exists c' j, calls (run (replicate 4 i) σ) !! i = Some c' /\ at_ c' = Resolved j.
Proof.
  intros Hinv Hc Hen.
  destruct (solo_run 4 i σ c Hinv Hc) as (c' & Hc' & Hm); [naive_solver|].
  destruct (steps_left_0 c') as [j Hj].
  { unfold steps_left in *. destruct (at_ c); lia. }
  by exists c', j.
Qed.

(** After [drain] both calls have resolved. *)
Lemma drain_resolves σ c0 c1 :
  inv k jobs0 σ -> calls σ = [c0; c1] ->
  exists d0 d1 j0 j1,
    calls (run drain σ) = [d0; d1] /\ at_ d0 = Resolved j0 /\ at_ d1 = Resolved j1.
Proof.
  intros Hinv Hcalls.
  change drain with (replicate 4 0%nat ++ replicate 4 1%nat ++ replicate 4 0%nat).
  rewrite !run_app.
  remember (run (replicate 4 0%nat) σ) as σ1 eqn:E1.
  remember (run (replicate 4 1%nat) σ1) as σ2 eqn:E2.
  remember (run (replicate 4 0%nat) σ2) as σ3 eqn:E3.
  assert (inv k jobs0 σ1) as Hinv1 by (subst σ1; by apply run_inv).
  assert (inv k jobs0 σ2) as Hinv2 by (subst σ2; by apply run_inv).
  destruct (run_two σ c0 c1 (replicate 4 0%nat) Hcalls) as (a1 & b1 & Hc1).
  rewrite <- E1 in Hc1.
  destruct (run_two σ1 a1 b1 (replicate 4 1%nat) Hc1) as (a2 & b2 & Hc2).
  rewrite <- E2 in Hc2.
  destruct (run_two σ2 a2 b2 (replicate 4 0%nat) Hc2) as (a3 & b3 & Hc3).
  rewrite <- E3 in Hc3.
  exists a3, b3.
  (* the second call resolves during its own turns *)
  assert (exists j1, at_ b2 = Resolved j1) as [j1 Hb2].
  { destruct (waiting_blocked_dec b1 σ1) as [[Hw Hheld]|Hen].
    - (* it would be kept waiting only by the first call, which has had
         its four turns *)
      exfalso.
      destruct (waiting_blocked_dec c0 σ) as [[Hw0 Hheld0]|Hen0].
      + assert (σ1 = σ) as Heq.
        { rewrite E1. apply (run_blocked 4 0 σ c0); [by rewrite Hcalls|done|].
          by rewrite (inv_key _ _ _ Hinv 0%nat c0) by (by rewrite Hcalls). }
        rewrite Heq, Hcalls in Hc1. injection Hc1 as <- <-.
        apply (inv_lock _ _ _ Hinv) in Hheld0 as (i & c & Hc & Hcs).
        rewrite Hcalls in Hc. unfold in_critical_section in Hcs.
        destruct i as [|[|i]]; cbn in Hc; try done;
          injection Hc as <-; [by rewrite Hw0 in Hcs|by rewrite Hw in Hcs].
      + destruct (four_turns 0 σ c0 Hinv) as (c' & j & Hc' & Hj);
          [by rewrite Hcalls|done|].
        rewrite <- E1, Hc1 in Hc'. injection Hc' as <-.
        apply (lock_free σ1 a1 b1 Hinv1 Hc1); [by eapply resolved_not_critical| |done].
        unfold in_critical_section. by rewrite Hw.
    - destruct (four_turns 1 σ1 b1 Hinv1) as (c' & j & Hc' & Hj);
        [by rewrite Hc1|done|].
      rewrite <- E2, Hc2 in Hc'. injection Hc' as <-. by exists j. }
  (* turns of one call leave the other as it is *)
  assert (a2 = a1) as ->.
  { pose proof (run_other (replicate 4 1%nat) 0 σ1) as H.
    rewrite <- E2, Hc1, Hc2 in H. cbn in H.
    assert (Some a2 = Some a1) as [=]; [|done].
    apply H. by repeat constructor. }
  assert (b3 = b2) as ->.
  { pose proof (run_other (replicate 4 0%nat) 1 σ2) as H.
    rewrite <- E3, Hc2, Hc3 in H. cbn in H.
    assert (Some b3 = Some b2) as [=]; [|done].
    apply H. by repeat constructor. }
  assert (exists j0, at_ a3 = Resolved j0) as [j0 Ha3].
  { destruct (four_turns 0 σ2 a1 Hinv2) as (c' & j & Hc' & Hj); [by rewrite Hc2| |].
    { intros [Hw Hheld]. apply (lock_free σ2 a1 b2 Hinv2 Hc2); [| |done].
      - unfold in_critical_section. by rewrite Hw.
      - by eapply resolved_not_critical. }
    rewrite <- E3, Hc3 in Hc'. injection Hc' as <-. by exists j. }
  exists j0, j1. done.
Qed.

(** Two resolved calls hold the same job: the job that was already
    active, with the table untouched, or the one new row. *)
Lemma resolved_agree σ c0 c1 j0 j1 :
  inv k jobs0 σ -> calls σ = [c0; c1] ->
  at_ c0 = Resolved j0 -> at_ c1 = Resolved j1 ->
  j0 = j1 /\
  match find_active k jobs0 with
  | Some existing => j0 = existing /\ jobs σ = jobs0
  | None => j0 = new_job k jobs0 /\ jobs σ = jobs0 ++ [j0]
  end.
Proof.
  intros Hinv Hcalls H0 H1.
  destruct (inv_phase _ _ _ Hinv) as [[Hj Hp]|(Hn & Hj & Hp)].
  - pose proof (Hp 0%nat c0) as P0. pose proof (Hp 1%nat c1) as P1.
    rewrite Hcalls in P0, P1. specialize (P0 eq_refl). specialize (P1 eq_refl).
    rewrite H0 in P0. rewrite H1 in P1. rewrite P0 in P1 |- *. by simplify_eq.
  - pose proof (Hp 0%nat c0) as P0. pose proof (Hp 1%nat c1) as P1.
    rewrite Hcalls in P0, P1. specialize (P0 eq_refl). specialize (P1 eq_refl).
    rewrite H0 in P0. rewrite H1 in P1. rewrite Hn. by subst.
Qed.

End SameTuple.

Lemma turn_single J L c :
  turn 0 {| jobs := J; locks := L; calls := [c] |}
  = let '(c', J', L') := createDownloadJob_step c J L in
    {| jobs := J'; locks := L'; calls := [c'] |}.
Proof. reflexivity. Qed.

Lemma single_call k jobs0 :
  find_active k jobs0 = None ->
  run [0; 0; 0; 0]%nat {| jobs := jobs0; locks := ∅; calls := [createDownloadJob k] |}
  = {| jobs := jobs0 ++ [new_job k jobs0]; locks := ∅;
       calls := [{| key := k; at_ := Resolved (new_job k jobs0) |}] |}.
Proof.
  intros Hnone. cbn [run]. unfold createDownloadJob.
  rewrite turn_single. unfold createDownloadJob_step at 1. cbn [at_ key].
  rewrite bool_decide_eq_false_2 by set_solver.
  rewrite turn_single. unfold createDownloadJob_step at 1. cbn [at_ key].
  rewrite Hnone.
  rewrite turn_single. unfold createDownloadJob_step at 1. cbn [at_ key].
  rewrite turn_single. unfold createDownloadJob_step at 1. cbn [at_ key].
  f_equal. set_solver.
Qed.

(** C3: take two concurrent calls of [createDownloadJob] for one (owner,
    batch, target) tuple, under any interleaving of their steps. Once both
    have had their turns, both have resolved, to the same job: the job of
    the tuple that was already active, the table being left as it was, or
    else the one row that was inserted. At no moment do two resolved calls
    disagree. When the tuple has no active job (its prior jobs are
    terminal), a call inserts a new job whose id differs from every
    earlier one. *)
Theorem createDownloadJob_deduplicates (k : tuple) (jobs0 : list DownloadJob)
    (schedule : list nat) :
  (exists c0 c1 j,
      let σ := run (schedule ++ drain) (two_calls k jobs0) in
      calls σ = [c0; c1] /\ at_ c0 = Resolved j /\ at_ c1 = Resolved j /\
      match find_active k jobs0 with
      | Some existing => j = existing /\ jobs σ = jobs0
      | None => j = new_job k jobs0 /\ jobs σ = jobs0 ++ [j]
      end) /\
  (forall c0 c1 j0 j1,
      let σ := run schedule (two_calls k jobs0) in
      calls σ = [c0; c1] -> at_ c0 = Resolved j0 -> at_ c1 = Resolved j1 ->
      j0 = j1 /\
      match find_active k jobs0 with
      | Some existing => j0 = existing /\ jobs σ = jobs0
      | None => j0 = new_job k jobs0 /\ jobs σ = jobs0 ++ [j0]
      end) /\
  (find_active k jobs0 = None ->
   (forall prior, prior ∈ jobs0 -> id (new_job k jobs0) <> id prior) /\
   run [0; 0; 0; 0]%nat {| jobs := jobs0; locks := ∅; calls := [createDownloadJob k] |}
   = {| jobs := jobs0 ++ [new_job k jobs0]; locks := ∅;
        calls := [{| key := k; at_ := Resolved (new_job k jobs0) |}] |}).
Proof.
  split; [|split].
  - cbn zeta. rewrite run_app.
    pose proof (run_inv k jobs0 schedule _ (two_calls_inv k jobs0)) as Hinv.
    destruct (run_two (two_calls k jobs0) _ _ schedule eq_refl) as (a & b & Hab).
    destruct (drain_resolves k jobs0 _ a b Hinv Hab) as (d0 & d1 & j0 & j1 & Hd & H0 & H1).
    pose proof (run_inv k jobs0 drain _ Hinv) as Hinv'.
    destruct (resolved_agree k jobs0 _ d0 d1 j0 j1 Hinv' Hd H0 H1) as [<- Hjobs].
    by exists d0, d1, j0.
  - cbn zeta. intros c0 c1 j0 j1 Hc H0 H1.
    pose proof (run_inv k jobs0 schedule _ (two_calls_inv k jobs0)) as Hinv.
    by apply (resolved_agree k jobs0 _ c0 c1).
  - intros Hnone. split; [|by apply single_call].
    intros prior Hin Heq. pose proof (fresh_id_above jobs0 prior Hin) as Hlt.
    cbn in Heq. lia.
Qed.

Lemma createDownloadJob_deduplicates_witness :
  id (new_job album [finished_job]) <> id finished_job /\
  run [0; 0; 0; 0]%nat
      {| jobs := [finished_job]; locks := ∅; calls := [createDownloadJob album] |}
  = {| jobs := [finished_job; new_job album [finished_job]]; locks := ∅;
       calls := [{| key := album; at_ := Resolved (new_job album [finished_job]) |}] |}.
Proof.
  destruct (createDownloadJob_deduplicates album [finished_job] []) as (_ & _ & Hnew).
  destruct Hnew as [Hfresh Hrun]; [vm_compute; reflexivity|].
  split; [|exact Hrun].
  apply Hfresh. apply list_elem_of_singleton. reflexivity.
Defined.

End AcquisitionFacts.

(** * Further laws of the distributed lock *)

Module DistributedLockLaws.
Import Redis DistributedLock DistributedLockFacts.

Lemma get_elapse s k ms :
  get (elapse ms s) k =
  match keys s !! k with
  | Some e => if clock s + Z.of_N ms <? expires_at e then Some (value e) else None
  | None => None
  end.
Proof. reflexivity. Qed.

(** [acquire] leaves every other key as it is. *)
Lemma acquire_other this key ttl f s k' :
  lockKey key <> k' -> get (snd (acquire this key ttl f s)) k' = get s k'.
Proof.
  intros Hne. rewrite acquire_unfold. unfold exec_set_nx_px.
  destruct f; cbn; try done.
  - destruct (ttl <=? 0); [done|]. destruct (get s (lockKey key)); [done|].
    cbn. by apply get_insert_ne.
  - destruct (ttl <=? 0); [done|]. destruct (get s (lockKey key)); [done|].
    cbn. by apply get_insert_ne.
Qed.

Lemma acquire_clock this key ttl f s : clock (snd (acquire this key ttl f s)) = clock s.
Proof.
  rewrite acquire_unfold. unfold exec_set_nx_px.
  destruct f; cbn; try done.
  all: destruct (ttl <=? 0); [done|]; by destruct (get s (lockKey key)).
Qed.

Lemma release_clock this key f s : clock (snd (release this key f s)) = clock s.
Proof.
  rewrite release_unfold. unfold exec_release_script.
  destruct f; cbn; try done.
  all: destruct (get s (lockKey key)) as [v|]; [|done];
    by destruct (String.eqb v (lockValue this)).
Qed.

Lemma release_held this key s :
  get s (lockKey key) = Some (lockValue this) ->
  release this key Healthy s
  = (Returned true, {| keys := delete (lockKey key) (keys s); clock := clock s |}).
Proof.
  intros Hheld. rewrite release_unfold. unfold exec_release_script.
  by rewrite Hheld, String.eqb_refl.
Qed.

Lemma release_free this key f s :
  get s (lockKey key) = None -> release this key f s = (Returned false, s).
Proof.
  intros Hfree. rewrite release_unfold. unfold exec_release_script.
  rewrite Hfree. by destruct f.
Qed.

(** X1: a lock that was won with a TTL and is never released keeps every
    other [acquire] of the key out until the TTL has elapsed, and lets one in
    from then on; its holder's late [release] then answers false and changes
    nothing. *)
Theorem lock_expires_after_ttl holder other key ttl ttl' fa f (early late : N) s :
  fst (acquire holder key ttl fa s) = Returned true ->
  Z.of_N early < ttl -> ttl <= Z.of_N late -> 0 < ttl' ->
  let s1 := snd (acquire holder key ttl fa s) in
  fst (acquire other key ttl' f (elapse early s1)) = Returned false /\
  fst (acquire other key ttl' Healthy (elapse late s1)) = Returned true /\
  release holder key f (elapse late s1) = (Returned false, elapse late s1).
Proof.
  intros Hwon Hearly Hlate Httl'. cbn zeta.
  destruct (acquire_won _ _ _ _ _ Hwon) as (_ & Httl & _ & ->).
  assert (forall ms,
    get (elapse ms {| keys := <[lockKey key := Entry (lockValue holder) (clock s + ttl)]> (keys s);
                      clock := clock s |}) (lockKey key)
    = if Z.of_N ms <? ttl then Some (lockValue holder) else None) as Hget.
  { intros ms. rewrite get_elapse. cbn. rewrite lookup_insert_eq. cbn.
    destruct (Z.ltb_spec (clock s + Z.of_N ms) (clock s + ttl));
      destruct (Z.ltb_spec (Z.of_N ms) ttl); (done || lia). }
  repeat split.
  - eapply acquire_held. rewrite Hget.
    destruct (Z.ltb_spec (Z.of_N early) ttl); [done|lia].
  - apply acquire_free; [done|]. rewrite Hget.
    destruct (Z.ltb_spec (Z.of_N late) ttl); [lia|done].
  - apply release_free. rewrite Hget.
    destruct (Z.ltb_spec (Z.of_N late) ttl); [lia|done].
Qed.

Lemma lock_expires_after_ttl_witness :
  let s1 := snd (acquire lockA "test-lock" 100 Healthy empty_store) in
  fst (acquire lockB "test-lock" 5000 Healthy (elapse 50 s1)) = Returned false /\
  fst (acquire lockB "test-lock" 5000 Healthy (elapse 150 s1)) = Returned true /\
  release lockA "test-lock" Healthy (elapse 150 s1) = (Returned false, elapse 150 s1).
Proof.
  apply (lock_expires_after_ttl lockA lockB "test-lock" 100 5000 Healthy Healthy
           50 150 empty_store); [vm_compute; reflexivity|lia..].
Defined.

(** X2: taking a free lock and releasing it again is invisible: the release
    answers true, every key of the store reads as before the [acquire], and
    a second release answers false without changing anything. *)
Theorem acquire_release_roundtrip this key ttl fa f s :
  fst (acquire this key ttl fa s) = Returned true ->
  let s1 := snd (acquire this key ttl fa s) in
  let s2 := snd (release this key Healthy s1) in
  fst (release this key Healthy s1) = Returned true /\
  (forall k, get s2 k = get s k) /\ clock s2 = clock s /\
  release this key f s2 = (Returned false, s2).
Proof.
  intros Hwon. cbn zeta.
  pose proof (acquire_won_holds _ _ _ _ _ Hwon) as Hheld.
  destruct (acquire_won _ _ _ _ _ Hwon) as (_ & _ & Hfree & _).
  rewrite (release_held _ _ _ Hheld). cbn [fst snd].
  assert (get {| keys := delete (lockKey key) (keys (snd (acquire this key ttl fa s)));
                 clock := clock (snd (acquire this key ttl fa s)) |} (lockKey key) = None)
    as Hgone by apply get_delete_eq.
  repeat split; try done.
  - intros k. destruct (decide (lockKey key = k)) as [<-|Hne].
    + by rewrite Hgone, Hfree.
    + rewrite get_delete_ne by done. by apply acquire_other.
  - cbn. apply acquire_clock.
  - by apply release_free.
Qed.

Lemma acquire_release_roundtrip_witness :
  let s1 := snd (acquire lockA "test-lock" 5000 Healthy empty_store) in
  let s2 := snd (release lockA "test-lock" Healthy s1) in
  fst (release lockA "test-lock" Healthy s1) = Returned true /\
  (forall k, get s2 k = get empty_store k) /\ clock s2 = clock empty_store /\
  release lockA "test-lock" Healthy s2 = (Returned false, s2).
Proof.
  apply (acquire_release_roundtrip lockA "test-lock" 5000 Healthy Healthy empty_store).
  vm_compute. reflexivity.
Defined.

(** X3: the lock operations stay inside their own key: whatever the
    instance, the TTL and the fate of the store call, [acquire] and [release]
    of [key] leave every key other than [lock:key] and the clock as they
    are. *)
Theorem lock_calls_touch_own_key_only this key ttl f s k' :
  k' <> lockKey key ->
  get (snd (acquire this key ttl f s)) k' = get s k' /\
  get (snd (release this key f s)) k' = get s k' /\
  clock (snd (acquire this key ttl f s)) = clock s /\
  clock (snd (release this key f s)) = clock s.
Proof.
  intros Hne. repeat split.
  - by apply acquire_other.
  - by apply release_other.
  - apply acquire_clock.
  - apply release_clock.
Qed.

Lemma lock_calls_touch_own_key_only_witness :
  let s := snd (acquire lockB "other" 5000 Healthy empty_store) in
  get (snd (acquire lockA "album" 5000 ReplyLost s)) (lockKey "other") = get s (lockKey "other") /\
  get (snd (release lockA "album" ReplyLost s)) (lockKey "other") = get s (lockKey "other") /\
  clock (snd (acquire lockA "album" 5000 ReplyLost s)) = clock s /\
  clock (snd (release lockA "album" ReplyLost s)) = clock s.
Proof.
  apply (lock_calls_touch_own_key_only lockA "album" 5000 ReplyLost).
  vm_compute. discriminate.
Defined.

(** X4: [withLock] is not re-entrant. Called again for the same key from
    inside its own callback (through the same instance, on a healthy store),
    the inner call throws the lock-unavailable error without running its
    callback; the outer call releases the lock, passes that error on, and
    leaves every key as it found it. *)
Theorem withLock_not_reentrant {T} this key ttl ttl' (callback : M store T) fa fr s :
  0 < ttl -> get s (lockKey key) = None ->
  let nested := withLock this key ttl (withLock this key ttl' callback fa fr)
                  Healthy Healthy s in
  fst nested = Thrown (lock_unavailable key) /\
  (forall k, get (snd nested) k = get s k) /\
  clock (snd nested) = clock s.
Proof.
  intros Httl Hfree. cbn zeta.
  pose proof (acquire_free this key ttl s Httl Hfree) as Hwon.
  pose proof (acquire_won_holds _ _ _ _ _ Hwon) as Hheld.
  pose proof (acquire_held this key ttl' fa _ _ Hheld) as Hinner.
  destruct (acquire this key ttl Healthy s) as [[[|]|] s1] eqn:Ha; cbn in Hwon; try done.
  cbn [fst snd] in *.
  assert (withLock this key ttl' callback fa fr s1 = (Thrown (lock_unavailable key), s1))
    as Hnested.
  { unfold withLock, bind.
    assert (snd (acquire this key ttl' fa s1) = s1) as Hsame.
    { rewrite acquire_unfold. unfold exec_set_nx_px. rewrite Hheld.
      destruct fa; cbn; try done; by destruct (ttl' <=? 0). }
    destruct (acquire this key ttl' fa s1) as [[[|]|] s1'] eqn:Ha'; cbn in *; by simplify_eq. }
  assert (withLock this key ttl (withLock this key ttl' callback fa fr) Healthy Healthy s
          = (Thrown (lock_unavailable key),
             {| keys := delete (lockKey key) (keys s1); clock := clock s1 |})) as ->.
  { unfold withLock at 1. unfold bind. rewrite Ha. cbn [negb]. unfold try_finally.
    rewrite Hnested. by rewrite (release_held _ _ _ Hheld). }
  cbn [fst snd]. repeat split.
  - intros k. destruct (decide (lockKey key = k)) as [<-|Hne].
    + by rewrite get_delete_eq, Hfree.
    + rewrite get_delete_ne by done.
      pose proof (acquire_other this key ttl Healthy s k Hne) as H. by rewrite Ha in H.
  - cbn. pose proof (acquire_clock this key ttl Healthy s) as H. by rewrite Ha in H.
Qed.

Lemma withLock_not_reentrant_witness :
  fst (withLock lockA "job" 5000 (withLock lockA "job" 5000 (ret true) Healthy Healthy)
         Healthy Healthy empty_store)
  = Thrown (lock_unavailable "job").
Proof.
  apply (withLock_not_reentrant lockA "job" 5000 5000 (ret true) Healthy Healthy empty_store).
  - lia.
  - vm_compute. reflexivity.
Defined.

Lemma hex_digit_inj n m :
  (n < 16)%N -> (m < 16)%N -> hex_digit n = hex_digit m -> n = m.
Proof.
  intros Hn Hm H.
  assert (forall a b : nat, (a < 16)%nat -> (b < 16)%nat ->
            hex_digit (N.of_nat a) = hex_digit (N.of_nat b) -> a = b) as Hnat.
  { clear. intros a b Ha Hb.
    do 16 (destruct a as [|a];
           [do 16 (destruct b as [|b];
                   [vm_compute; intros E; (reflexivity || discriminate E)|]); lia|]).
    lia. }
  apply N2Nat.inj, Hnat; [lia | lia | by rewrite !N2Nat.id].
Qed.

Lemma to_hex_inj a : forall b, to_hex a = to_hex b -> a = b.
Proof.
  induction a as [|x a IH]; intros [|y b] H; cbn in H; try done.
  injection H as Hhi Hlo Hrest. f_equal; [|by apply IH].
  pose proof (Byte.to_N_bounded x). pose proof (Byte.to_N_bounded y).
  apply hex_digit_inj in Hhi; [|apply N.Div0.div_lt_upper_bound; lia..].
  apply hex_digit_inj in Hlo; [|apply N.mod_lt; lia..].
  assert (Byte.to_N x = Byte.to_N y) as Heq.
  { rewrite (N.div_mod' (Byte.to_N x) 16), (N.div_mod' (Byte.to_N y) 16). congruence. }
  pose proof (Byte.of_to_N x) as Hx. rewrite Heq, Byte.of_to_N in Hx. congruence.
Qed.

Lemma to_hex_length bs : String.length (to_hex bs) = (2 * length bs)%nat.
Proof. induction bs as [|b bs IH]; cbn; [done|]. rewrite IH. lia. Qed.

(** X9: instances built from different random bytes carry different tokens,
    32 hexadecimal characters for 16 bytes, so that neither can release a
    lock the other has won: the release answers false and the lock stays. *)
Theorem fresh_instances_cannot_release_each_other randomA randomB key ttl fa f s :
  randomA <> randomB ->
  let a := new_DistributedLock randomA in
  let b := new_DistributedLock randomB in
  fst (acquire a key ttl fa s) = Returned true ->
  let s1 := snd (acquire a key ttl fa s) in
  lockValue a <> lockValue b /\
  (length randomA = 16%nat -> String.length (lockValue a) = 32%nat) /\
  release b key f s1 = (Returned false, s1) /\
  get (snd (release b key f s1)) (lockKey key) = Some (lockValue a).
Proof.
  intros Hne. cbn zeta. intros Hwon.
  pose proof (acquire_won_holds _ _ _ _ _ Hwon) as Hheld.
  assert (to_hex randomA <> to_hex randomB) as Htok
    by (intros E; by apply Hne, to_hex_inj).
  assert (release (new_DistributedLock randomB) key f
            (snd (acquire (new_DistributedLock randomA) key ttl fa s))
          = (Returned false, snd (acquire (new_DistributedLock randomA) key ttl fa s)))
    as Hrel.
  { rewrite release_unfold. unfold exec_release_script. rewrite Hheld.
    cbn [lockValue new_DistributedLock].
    destruct (String.eqb_spec (to_hex randomA) (to_hex randomB)); [done|].
    by destruct f. }
  repeat split.
  - done.
  - intros Hlen. cbn. rewrite to_hex_length, Hlen. done.
  - done.
  - by rewrite Hrel.
Qed.

Lemma fresh_instances_cannot_release_each_other_witness :
  let s1 := snd (acquire lockA "album" 5000 Healthy empty_store) in
  lockValue lockA <> lockValue lockB /\
  (length (repeat Byte.x0a 16) = 16%nat -> String.length (lockValue lockA) = 32%nat) /\
  release lockB "album" Healthy s1 = (Returned false, s1) /\
  get (snd (release lockB "album" Healthy s1)) (lockKey "album") = Some (lockValue lockA).
Proof.
  apply (fresh_instances_cannot_release_each_other (repeat Byte.x0a 16) (repeat Byte.x0b 16)
           "album" 5000 Healthy Healthy empty_store).
  - vm_compute. discriminate.
  - vm_compute. reflexivity.
Defined.

End DistributedLockLaws.

(** * Further laws of the wire codec *)

Module WireCodecLaws.
Import WireCodec WireCodecReads WireCodecFacts.

Lemma le_value_bound bs : 0 <= le_value bs < 256 ^ Z.of_nat (length bs).
Proof.
  induction bs as [|b bs IH]; [cbn; lia|].
  cbn [le_value length]. rewrite Nat2Z.inj_succ, Z.pow_succ_r by lia.
  assert (0 <= byte_val b < 256) as Hb.
  { unfold byte_val. pose proof (Byte.to_N_bounded b). lia. }
  lia.
Qed.

Lemma le_value_app a b :
  le_value (a ++ b) = le_value a + 256 ^ Z.of_nat (length a) * le_value b.
Proof.
  induction a as [|x a IH]; [cbn; lia|].
  cbn [app le_value length]. rewrite IH, Nat2Z.inj_succ, Z.pow_succ_r by lia. lia.
Qed.

Lemma span_length this w :
  0 <= pointer this -> 0 <= w -> w <= remaining this ->
  length (span this w) = Z.to_nat w.
Proof.
  unfold remaining, span, len. intros Hp Hw Hfit.
  rewrite length_take, length_drop. lia.
Qed.

Lemma span_bound this w :
  0 <= w -> 0 <= le_value (span this w) < 256 ^ w.
Proof.
  intros Hw. pose proof (le_value_bound (span this w)) as [H0 H1]. split; [done|].
  eapply Z.lt_le_trans; [exact H1|].
  apply Z.pow_le_mono_r; [lia|]. unfold span. rewrite length_take. lia.
Qed.

Lemma int8_spec this :
  0 <= pointer this ->
  int8 this = if remaining this <? 1 then (Thrown (underflow "int8"), this)
              else (Returned (le_value (span this 1)), set_pointer this (pointer this + 1)).
Proof. intros Hp. apply read_fixed_spec; [|done]. intros ? ?. by apply readUInt8_le. Qed.

Lemma int32_spec this :
  0 <= pointer this ->
  int32 this = if remaining this <? 4 then (Thrown (underflow "int32"), this)
               else (Returned (le_value (span this 4)), set_pointer this (pointer this + 4)).
Proof. intros Hp. apply read_fixed_spec; [|done]. intros ? ?. by apply readUInt32LE_le. Qed.

Lemma int64_spec this :
  0 <= pointer this ->
  int64 this = if remaining this <? 8 then (Thrown (underflow "int64"), this)
               else (Returned (le_value (span this 8)), set_pointer this (pointer this + 8)).
Proof. intros Hp. apply read_fixed_spec; [|done]. intros ? ?. by apply readBigUInt64LE_le. Qed.

(** X5: the integers the parser returns are unsigned and fit their width:
    below 2^8 for [int8], 2^32 for [int32] and 2^64 for [int64]. *)
Theorem read_values_in_range this this' v :
  0 <= pointer this ->
  (int8 this = (Returned v, this') -> 0 <= v < 2 ^ 8) /\
  (int32 this = (Returned v, this') -> 0 <= v < 2 ^ 32) /\
  (int64 this = (Returned v, this') -> 0 <= v < 2 ^ 64).
Proof.
  intros Hp. split; [|split].
  - rewrite int8_spec by done. destruct (remaining this <? 1); intros [= <- _].
    pose proof (span_bound this 1 ltac:(lia)) as H.
    by change (256 ^ 1) with (2 ^ 8) in H.
  - rewrite int32_spec by done. destruct (remaining this <? 4); intros [= <- _].
    pose proof (span_bound this 4 ltac:(lia)) as H.
    by change (256 ^ 4) with (2 ^ 32) in H.
  - rewrite int64_spec by done. destruct (remaining this <? 8); intros [= <- _].
    pose proof (span_bound this 8 ltac:(lia)) as H.
    by change (256 ^ 8) with (2 ^ 64) in H.
Qed.

Lemma read_values_in_range_witness :
  let this := {| data := [Byte.xff; Byte.xff; Byte.xff; Byte.xff]; pointer := 0 |} in
  int32 this = (Returned 4294967295, set_pointer this 4) /\ 0 <= 4294967295 < 2 ^ 32.
Proof.
  cbn zeta. split; [vm_compute; reflexivity|].
  destruct (read_values_in_range
              {| data := [Byte.xff; Byte.xff; Byte.xff; Byte.xff]; pointer := 0 |}
              (set_pointer {| data := [Byte.xff; Byte.xff; Byte.xff; Byte.xff]; pointer := 0 |} 4)
              4294967295) as (_ & H32 & _); [cbn; lia|].
  apply H32. vm_compute. reflexivity.
Defined.

(** X6: an [int64] is the two [int32]s at the same place, low word first:
    where eight bytes remain, reading two [int32]s in a row gives [lo] and
    [hi], and reading an [int64] instead gives [lo + 2^32 * hi] and ends at
    the same cursor. *)
Theorem int64_is_two_int32 this :
  0 <= pointer this -> 8 <= remaining this ->
  exists lo hi,
    int32 this = (Returned lo, set_pointer this (pointer this + 4)) /\
    int32 (set_pointer this (pointer this + 4))
      = (Returned hi, set_pointer this (pointer this + 8)) /\
    int64 this = (Returned (lo + 2 ^ 32 * hi), set_pointer this (pointer this + 8)).
Proof.
  intros Hp Hrem.
  exists (le_value (span this 4)), (le_value (span (set_pointer this (pointer this + 4)) 4)).
  assert (remaining (set_pointer this (pointer this + 4)) = remaining this - 4) as Hrem'
    by (unfold remaining; cbn; lia).
  split; [|split].
  - rewrite int32_spec by done.
    destruct (Z.ltb_spec (remaining this) 4); [lia|done].
  - rewrite int32_spec by (cbn; lia). rewrite Hrem'.
    destruct (Z.ltb_spec (remaining this - 4) 4); [lia|].
    f_equal. unfold set_pointer. cbn [data pointer]. f_equal. lia.
  - rewrite int64_spec by done.
    destruct (Z.ltb_spec (remaining this) 8); [lia|]. do 2 f_equal.
    assert (span this 8 = span this 4 ++ span (set_pointer this (pointer this + 4)) 4) as ->.
    { unfold span. cbn [data pointer set_pointer].
      replace (Z.to_nat (pointer this + 4)) with (Z.to_nat (pointer this) + 4)%nat by lia.
      rewrite <- drop_drop.
      change (Z.to_nat 8) with (4 + 4)%nat. change (Z.to_nat 4) with 4%nat.
      by rewrite take_take_drop. }
    rewrite le_value_app, span_length by lia.
    change (256 ^ Z.of_nat (Z.to_nat 4)) with (2 ^ 32). done.
Qed.

Lemma int64_is_two_int32_witness :
  let this := {| data := [Byte.x01; Byte.x00; Byte.x00; Byte.x00;
                          Byte.x02; Byte.x00; Byte.x00; Byte.x00]; pointer := 0 |} in
  exists lo hi,
    int32 this = (Returned lo, set_pointer this 4) /\
    int32 (set_pointer this 4) = (Returned hi, set_pointer this 8) /\
    int64 this = (Returned (lo + 2 ^ 32 * hi), set_pointer this 8).
Proof.
  apply (int64_is_two_int32
           {| data := [Byte.x01; Byte.x00; Byte.x00; Byte.x00;
                       Byte.x02; Byte.x00; Byte.x00; Byte.x00]; pointer := 0 |});
    [cbn; lia | vm_compute; discriminate].
Defined.

Lemma rawHexStr_in_buffer (size : N) this :
  in_buffer this ->
  in_buffer (snd (rawHexStr (Z.of_N size) this))
  /\ data (snd (rawHexStr (Z.of_N size) this)) = data this
  /\ pointer this <= pointer (snd (rawHexStr (Z.of_N size) this)).
Proof.
  unfold in_buffer, rawHexStr. intros Hin.
  destruct (Z.gtb_spec (pointer this + Z.of_N size) (len (data this)));
    cbn [fst snd data pointer set_pointer]; repeat split; (done || lia).
Qed.

Section Utf8.
Variable text : Type.
Variable utf8 : list Byte.byte -> text.

Lemma after_read_in_buffer r this :
  in_buffer this ->
  in_buffer (after_read text utf8 r this)
  /\ data (after_read text utf8 r this) = data this
  /\ pointer this <= pointer (after_read text utf8 r this).
Proof.
  intros Hin. pose proof Hin as [Hp Hlen]. unfold in_buffer in *.
  destruct r as [| | | |size]; cbn [after_read].
  - rewrite int8_spec by done. unfold remaining.
    destruct (Z.ltb_spec (len (data this) - pointer this) 1);
      cbn [fst snd data pointer set_pointer]; repeat split; (done || lia).
  - rewrite int32_spec by done. unfold remaining.
    destruct (Z.ltb_spec (len (data this) - pointer this) 4);
      cbn [fst snd data pointer set_pointer]; repeat split; (done || lia).
  - rewrite int64_spec by done. unfold remaining.
    destruct (Z.ltb_spec (len (data this) - pointer this) 8);
      cbn [fst snd data pointer set_pointer]; repeat split; (done || lia).
  - rewrite str_spec by done. unfold remaining.
    destruct (Z.ltb_spec (len (data this) - pointer this) 4); cbn [fst snd];
      [repeat split; (done || lia)|].
    cbn zeta. cbn [data pointer set_pointer].
    pose proof (le_value_nonneg (span this 4)).
    destruct (Z.ltb_spec (len (data this) - (pointer this + 4)) (le_value (span this 4)));
      cbn [fst snd data pointer set_pointer]; repeat split; (done || lia).
  - by apply rawHexStr_in_buffer.
Qed.

(** X7: reads neither leave the buffer nor change it. After any sequence of
    [int8], [int32], [int64], [str] and [rawHexStr] calls with sizes that are
    not negative on a new parser, whether they returned or threw, the cursor
    lies between 0 and the length of the buffer, and the buffer is the one
    the parser was built on. *)
Theorem cursor_stays_in_buffer (rs : list read) (buf : list Byte.byte) :
  let this := after_reads text utf8 rs (new_MessageParser buf) in
  data this = buf /\ 0 <= pointer this <= len buf.
Proof.
  cbn zeta. unfold after_reads.
  assert (forall p, in_buffer p ->
            in_buffer (foldl (fun p r => after_read text utf8 r p) p rs)
            /\ data (foldl (fun p r => after_read text utf8 r p) p rs) = data p) as Hgen.
  { induction rs as [|r rs IH]; intros p Hp; [done|]. cbn [foldl].
    destruct (after_read_in_buffer r p Hp) as (Hin & Hdata & _).
    destruct (IH _ Hin) as [Hin' Hdata']. split; [done|congruence]. }
  destruct (Hgen (new_MessageParser buf)) as [Hin Hdata].
  { unfold in_buffer, new_MessageParser, len. cbn. lia. }
  split; [done|]. unfold in_buffer in Hin. by rewrite Hdata in Hin.
Qed.

End Utf8.

(** X8: [rawHexStr] does not reject a negative size: with the cursor inside
    the buffer it returns the empty string and moves the cursor back by that
    amount. A cursor that has become negative this way makes [int8] throw
    the runtime's range error, not an underflow error. *)
Theorem rawHexStr_negative_size this size :
  size < 0 -> 0 <= pointer this <= len (data this) ->
  rawHexStr size this = (Returned "", set_pointer this (pointer this + size)) /\
  (pointer this + size < 0 ->
   int8 (set_pointer this (pointer this + size))
   = (Thrown out_of_range, set_pointer this (pointer this + size))).
Proof.
  intros Hsize [Hp Hlen]. split.
  - unfold rawHexStr.
    destruct (Z.gtb_spec (pointer this + size) (len (data this))); [lia|].
    assert (toString_span (data this) (pointer this) (pointer this + size) = []) as ->; [|done].
    unfold toString_span.
    destruct (Z.leb_spec (pointer this) 0).
    + cbn [andb Z.ltb Z.compare].
      destruct (Z.gtb_spec (pointer this + size) (len (data this))); [lia|].
      destruct (Z.leb_spec (pointer this + size) 0); [done|lia].
    + destruct (Z.ltb_spec 0 (pointer this)); [|lia].
      destruct (pointer this >=? len (data this)); [done|]. cbn [andb].
      destruct (Z.gtb_spec (pointer this + size) (len (data this))); [lia|].
      destruct (Z.leb_spec (pointer this + size) (pointer this)); [done|lia].
  - intros Hneg. unfold int8, read_fixed. cbn [data pointer set_pointer].
    destruct (Z.gtb_spec (pointer this + size + 1) (len (data this))); [lia|].
    unfold readUInt8, byte_at.
    destruct (Z.ltb_spec (pointer this + size) 0); [done|lia].
Qed.

Lemma rawHexStr_negative_size_witness :
  let this := new_MessageParser [Byte.x01; Byte.x02] in
  rawHexStr (-1) this = (Returned "", set_pointer this (-1)) /\
  int8 (set_pointer this (-1)) = (Thrown out_of_range, set_pointer this (-1)).
Proof.
  cbn zeta.
  destruct (rawHexStr_negative_size (new_MessageParser [Byte.x01; Byte.x02]) (-1))
    as [Hraw Hint]; [lia | unfold len; cbn; lia |].
  split; [exact Hraw|]. apply Hint. cbn. lia.
Defined.

End WireCodecLaws.

(** * Further laws of the optimistic batch update *)

Module OptimisticBatchUpdateLaws.
Import OptimisticBatchUpdate OptimisticBatchUpdateRuns OptimisticBatchUpdateFacts.

Lemma alone_succeeds id d o row v (dbv : table) :
  dbv !! id = Some row -> version row = Some v ->
  0 <= default DEFAULT_MAX_RETRIES (maxRetries o) ->
  alone id d o dbv
  = {| db := <[id := write_row d (v + 1) row]> dbv;
       tasks := [Build_task id d o 0 (Finished (succeeded_with (v + 1)))];
       log := [0%nat] |}.
Proof.
  intros Hrow Hv Hmax. unfold alone, updateBatchStatus. cbn [run].
  unfold turn at 2. cbn [tasks lookup list_lookup db log].
  unfold updateBatchStatus_step at 1. cbn [at_ t_retries batchId].
  unfold t_maxRetries. cbn [options].
  apply Z.leb_le in Hmax. rewrite Hmax. unfold findUnique. rewrite Hrow.
  cbn [fmap option_fmap option_map insert list_insert]. rewrite Hv. cbn [default].
  unfold turn. cbn [tasks lookup list_lookup db log goto batchId data options t_retries].
  unfold updateBatchStatus_step. cbn [at_ batchId data t_retries goto].
  unfold update. rewrite Hrow, bool_decide_eq_true_2 by done.
  cbn [insert list_insert version write_row default app]. reflexivity.
Qed.

(** X10: calls made one after another on a record each succeed at the first
    attempt. Starting from version [v], the i-th call returns success with
    version [v + i] and no retries; at the end the record is the initial row
    after all the writes in order, its version is [v] plus the number of
    calls, and every other record is as it was. *)
Theorem sequential_updates id (requests : list (BatchUpdateData * UpdateOptions)) :
  forall row v (dbv : table),
  dbv !! id = Some row -> version row = Some v ->
  Forall (fun rq => 0 <= default DEFAULT_MAX_RETRIES (maxRetries rq.2)) requests ->
  let dbv' := (one_after_another id requests dbv).1 in
  let final := foldl (fun r rq => write_row rq.1 (default 0 (version r) + 1) r)
                     row requests in
  dbv' !! id = Some final /\
  version final = Some (v + Z.of_nat (length requests)) /\
  (one_after_another id requests dbv).2
  = (fun i => Some (succeeded_with (v + Z.of_nat i + 1))) <$> seq 0 (length requests) /\
  forall id', id' <> id -> dbv' !! id' = dbv !! id'.
Proof.
  induction requests as [|rq rest IH]; intros row v dbv Hrow Hv Hmax; cbn zeta.
  - cbn. rewrite Z.add_0_r. done.
  - apply Forall_cons in Hmax as [Hrq Hrest].
    cbn [one_after_another]. rewrite (alone_succeeds id _ _ row v) by done.
    cbn [db tasks].
    specialize (IH (write_row rq.1 (v + 1) row) (v + 1)
                   (<[id := write_row rq.1 (v + 1) row]> dbv)).
    destruct IH as (Hfin & Hver & Hres & Hother); [by rewrite lookup_insert_eq|done|done|].
    destruct (one_after_another id rest (<[id := write_row rq.1 (v + 1) row]> dbv))
      as [dbv' results]. cbn [fst snd] in *.
    cbn [foldl length]. rewrite Hv. change (default 0 (Some v)) with v.
    split; [done|]. split; [rewrite Hver; f_equal; lia|]. split.
    + cbn [fmap list_fmap result_of at_ app seq]. rewrite Z.add_0_r. f_equal.
      rewrite Hres, <- fmap_S_seq, <- list_fmap_compose.
      apply list_fmap_ext. intros _ i _. cbn. do 2 f_equal. lia.
    + intros id' Hne. rewrite Hother by done. by rewrite lookup_insert_ne.
Qed.

Lemma sequential_updates_witness :
  let requests := [(set_completed 3, default_options); (set_failed 1, default_options)] in
  let dbv' := (one_after_another "batch-1" requests {[ "batch-1" := sample_batch ]}).1 in
  version <$> dbv' !! "batch-1" = Some (Some 2) /\
  (one_after_another "batch-1" requests {[ "batch-1" := sample_batch ]}).2
  = [Some (succeeded_with 1); Some (succeeded_with 2)].
Proof.
  cbn zeta.
  destruct (sequential_updates "batch-1"
              [(set_completed 3, default_options); (set_failed 1, default_options)]
              sample_batch 0 {[ "batch-1" := sample_batch ]})
    as (Hfin & Hver & Hres & _).
  - vm_compute. reflexivity.
  - reflexivity.
  - constructor; [vm_compute; congruence|].
    constructor; [vm_compute; congruence|]. constructor.
  - split; [|exact Hres]. rewrite Hfin. cbn [fmap option_fmap option_map].
    by rewrite Hver.
Defined.

(** X11: calls only ever write the record they were made for: whatever the
    schedule and the faults, a record that none of the calls in flight names
    is at the end what it was at the start. *)
Theorem other_records_untouched schedule : forall σ id',
  Forall (fun t => batchId t <> id') (tasks σ) ->
  db (run schedule σ) !! id' = db σ !! id'.
Proof.
  induction schedule as [|[i fault] schedule IH]; intros σ id' Hall; [done|].
  cbn [run]. unfold turn.
  destruct (tasks σ !! i) as [t|] eqn:Ht; [|by apply IH].
  pose proof (step_cases t fault (db σ)) as Hstep.
  destruct (updateBatchStatus_step t fault (db σ)) as [[t' dbv'] wrote].
  destruct Hstep as (Hid & _ & Hcase).
  assert (batchId t <> id') as Hne.
  { rewrite Forall_forall in Hall. apply Hall. by eapply list_elem_of_lookup_2. }
  rewrite IH; cbn [db tasks].
  - destruct Hcase as [(_ & -> & _) | (_ & _ & _ & cv & row & _ & _ & ->)]; [done|].
    by rewrite lookup_insert_ne.
  - apply Forall_insert; [done|congruence].
Qed.

Lemma other_records_untouched_witness :
  db (run racing_schedule
        {| db := {[ "batch-1" := sample_batch; "batch-2" := sample_batch ]};
           tasks := [updateBatchStatus "batch-1" (set_completed 5) default_options;
                     updateBatchStatus "batch-1" (set_failed 2) default_options];
           log := [] |}) !! "batch-2"
  = Some sample_batch.
Proof.
  rewrite (other_records_untouched racing_schedule _ "batch-2").
  - vm_compute. reflexivity.
  - constructor; [vm_compute; discriminate|].
    constructor; [vm_compute; discriminate|]. constructor.
Defined.

Lemma on_error_sound t e :
  0 <= t_retries t -> t_retries t <= t_maxRetries t -> sound (on_error t e).
Proof.
  intros H0 Hle. unfold on_error.
  destruct (isVersionConflict e).
  - destruct (Z.gtb_spec (t_retries t + 1) (t_maxRetries t)); unfold sound, t_maxRetries in *;
      cbn; repeat split; intros; try done; try lia; eauto.
  - unfold sound, t_maxRetries in *. cbn. repeat split; intros; try done; try lia; eauto.
Qed.

Lemma step_sound t fault (dbv : table) :
  sound t -> sound (updateBatchStatus_step t fault dbv).1.1.
Proof.
  intros [H0 Hat]. unfold updateBatchStatus_step.
  destruct (at_ t) as [|cv| |r] eqn:E.
  - destruct (Z.leb_spec (t_retries t) (t_maxRetries t)).
    + destruct (findUnique fault (batchId t) dbv) as [[current|]|e]; cbn [fst].
      * unfold sound, t_maxRetries in *. cbn. split; [done|lia].
      * unfold sound, t_maxRetries in *. cbn. repeat split; intros; try done; try lia; eauto.
      * by apply on_error_sound.
    + cbn [fst]. unfold sound, t_maxRetries in *. cbn.
      repeat split; intros; try done; try lia; eauto.
  - destruct (update fault (batchId t) cv (data t) (cv + 1) dbv) as [[updated|e] dbv'];
      cbn [fst].
    + unfold sound, t_maxRetries in *. cbn. repeat split; intros; try done; try lia; eauto.
    + by apply on_error_sound.
  - cbn [fst]. unfold sound, t_maxRetries in *. cbn. split; [done|lia].
  - cbn [fst]. unfold sound. by rewrite E.
Qed.

Lemma run_sound schedule : forall σ,
  Forall sound (tasks σ) -> Forall sound (tasks (run schedule σ)).
Proof.
  induction schedule as [|[i fault] schedule IH]; intros σ Hall; [done|].
  cbn [run]. apply IH. unfold turn.
  destruct (tasks σ !! i) as [t|] eqn:Ht; [|done].
  pose proof (step_sound t fault (db σ)) as Hstep.
  destruct (updateBatchStatus_step t fault (db σ)) as [[t' dbv'] wrote]. cbn [tasks].
  apply Forall_insert; [done|]. apply Hstep.
  rewrite Forall_forall in Hall. apply Hall. by eapply list_elem_of_lookup_2.
Qed.

(** X12: whatever the schedule, the faults and the table, what a call
    returns is well formed. Its retry count is never negative and never
    above [maxRetries + 1] (or 0 when [maxRetries] is negative); a success
    carries a version, no error and at most [maxRetries] retries; a failure
    carries an error message and no version. *)
Theorem results_well_formed
    (requests : list (string * BatchUpdateData * UpdateOptions)) (dbv : table)
    schedule i t r :
  let σ := run schedule
             {| db := dbv;
                tasks := (fun rq => updateBatchStatus rq.1.1 rq.1.2 rq.2) <$> requests;
                log := [] |} in
  tasks σ !! i = Some t -> at_ t = Finished r ->
  0 <= retries r <= Z.max 0 (t_maxRetries t + 1) /\
  (success r = true ->
   retries r <= t_maxRetries t /\ is_Some (r_version r) /\ error r = None) /\
  (success r = false -> r_version r = None /\ is_Some (error r)).
Proof.
  cbn zeta. intros Ht Hat.
  assert (Forall sound ((fun rq => updateBatchStatus rq.1.1 rq.1.2 rq.2) <$> requests))
    as Hinit.
  { apply Forall_fmap, Forall_forall. intros rq _. unfold sound, updateBatchStatus. cbn.
    split; [done|by left]. }
  pose proof (run_sound schedule {| db := dbv; tasks := _; log := [] |} Hinit) as Hall.
  rewrite Forall_forall in Hall.
  destruct (Hall t) as [H0 Hs]; [by eapply list_elem_of_lookup_2|].
  rewrite Hat in Hs. destruct Hs as (Hr & Hb & Hok & Hko).
  rewrite Hr. repeat split; try lia; try naive_solver.
Qed.

Lemma results_well_formed_witness :
  let r := max_retries_result {| maxRetries := Some 5; retryDelayMs := None |} in
  0 <= retries r <= 6 /\ (success r = false -> r_version r = None /\ is_Some (error r)).
Proof.
  cbn zeta.
  pose proof (results_well_formed
                [("batch-1", no_change, {| maxRetries := Some 5; retryDelayMs := None |})]
                {[ "batch-1" := sample_batch ]} (always_conflicting 6) 0
                (Build_task "batch-1" no_change {| maxRetries := Some 5; retryDelayMs := None |} 6
                   (Finished (max_retries_result {| maxRetries := Some 5; retryDelayMs := None |})))
                (max_retries_result {| maxRetries := Some 5; retryDelayMs := None |})) as H.
  cbn zeta in H.
  destruct H as (Hb & _ & Hko); [vm_compute; reflexivity | reflexivity |].
  split; [exact Hb | exact Hko].
Defined.

End OptimisticBatchUpdateLaws.

(** * Further laws of the webhook route *)

Module WebhookLaws.
Import Webhook WebhookTraces WebhookFacts.

Lemma no_response_filter (t : list effect) :
  forallb (fun e => negb (is_response e)) t = true -> List.filter is_response t = [].
Proof.
  induction t as [|x t IH]; [done|]. cbn. intros H.
  apply andb_true_iff in H as [Hx Ht]. apply negb_true_iff in Hx. rewrite Hx. by apply IH.
Qed.

Section Route.
Variable E : env.

(** X13: every request gets exactly one response, and the route never
    throws, whatever the collaborators do. *)
Theorem exactly_one_response (req : request) :
  fst (post_lidarr E req) = Returned tt /\
  count is_response (snd (post_lidarr E req)) = 1%nat.
Proof.
  unfold post_lidarr, perform, emit.
  destruct (getSystemSettings E) as [st|e]; cbn [bindW catchW]; [|done].
  destruct (negb _); [done|].
  destruct (truthy _ && _); [done|].
  destruct (storeEvent E "lidarr" (eventType (body req)) (body req)) as [eventId|e];
    cbn [bindW catchW]; [|done].
  pose proof (processing_no_response E eventId (eventType (body req)) (body req)) as Hno.
  destruct (processWebhookEvent E eventId (eventType (body req)) (body req))
    as [[[]|e] t]; cbn [fst snd catchW bindW] in *.
  - split; [done|]. unfold count. cbn [List.filter is_response length app].
    by rewrite (no_response_filter t Hno).
  - split; [done|]. unfold count. cbn [List.filter is_response length app].
    rewrite List.filter_app, (no_response_filter t Hno). done.
Qed.

(** X14: a request that fails a guard is answered without anything being
    stored or processed. An instance that is not configured answers 202
    whatever the secret; a configured one with a secret set answers 401
    when the header is missing or different; when the settings cannot be
    read the answer is 500. *)
Theorem refused_requests_store_nothing (req : request) :
  accepted E req = false ->
  count touches_event (snd (post_lidarr E req)) = 0%nat /\
  match getSystemSettings E with
  | Returned st =>
      snd (post_lidarr E req)
      = [GetSystemSettings;
         Respond (if configured st then Unauthorized else Ignored)]
  | Thrown e =>
      snd (post_lidarr E req)
      = [GetSystemSettings; Rejected e; LogError "Webhook error:" (message e);
         Respond Failed]
  end.
Proof.
  unfold accepted, post_lidarr, perform, emit, configured.
  destruct (getSystemSettings E) as [[st|]|e]; cbn [bindW catchW]; intros Hacc; try done.
  destruct (lidarrEnabled st && truthy (lidarrUrl st) && truthy (lidarrApiKey st));
    cbn [negb andb] in *; [|done].
  apply negb_false_iff in Hacc. cbn [option_bind mbind]. by rewrite Hacc.
Qed.

(** X15: how processing ends. The metrics are updated exactly once, as the
    last thing, with status 'failed' if the [try] block threw and 'success'
    otherwise; [markFailed] is called exactly when it threw; at most one
    callback of the download manager and at most one [markProcessed] are
    made. *)
Theorem processing_ends_once (eventId type_ : string) (p : payload) :
  let attempt := process_try E eventId type_ p in
  let trace := snd (processWebhookEvent E eventId type_ p) in
  last trace = Some (Metrics type_ (if is_thrown (fst attempt) then "failed" else "success")) /\
  count is_metrics trace = 1%nat /\
  count is_mark_failed trace = (if is_thrown (fst attempt) then 1 else 0)%nat /\
  (count is_manager_call trace <= 1)%nat /\
  (count is_mark_processed trace <= 1)%nat.
Proof.
  cbn zeta.
  unfold processWebhookEvent, process_try, handleGrab, handleDownload,
    handleImportFailure, bindW, perform, emit, retW, count.
  destruct (switch type_); run_collaborators; cbn; repeat split; lia.
Qed.

(** X16: an event without a download id is only acknowledged. Whatever its
    type, when [downloadId] is missing or empty no handler reaches the
    download manager, the cleaner or the scan queue: the event is marked
    processed without a correlation id. *)
Theorem no_download_id_only_acknowledged (eventId type_ : string) (p : payload) :
  truthy (downloadId p) = false ->
  process_try E eventId type_ p
  = perform (MarkProcessed eventId None) (markProcessed E eventId None).
Proof.
  intros Hno. unfold process_try, handleGrab, handleDownload, handleImportFailure.
  rewrite Hno. cbn [negb]. unfold bindW, retW, perform.
  destruct (switch type_); by destruct (markProcessed E eventId None).
Qed.

End Route.

Lemma refused_requests_store_nothing_witness :
  let req := {| x_webhook_secret := Some "guess"; body := body grab_request |} in
  count touches_event (snd (post_lidarr failing_env req)) = 0%nat /\
  snd (post_lidarr failing_env req) = [GetSystemSettings; Respond Unauthorized].
Proof.
  cbn zeta.
  destruct (refused_requests_store_nothing failing_env
              {| x_webhook_secret := Some "guess"; body := body grab_request |})
    as [Hnone Htrace]; [vm_compute; reflexivity|].
  split; [exact Hnone|exact Htrace].
Defined.

Lemma no_download_id_only_acknowledged_witness :
  let p := {| eventType := "Grab"; downloadId := Some ""; p_message := None |} in
  processWebhookEvent failing_env "evt-1" "Grab" p
  = (Returned tt, [MarkProcessed "evt-1" None; Metrics "Grab" "success"]).
Proof.
  cbn zeta. unfold processWebhookEvent.
  rewrite (no_download_id_only_acknowledged failing_env "evt-1" "Grab"
             {| eventType := "Grab"; downloadId := Some ""; p_message := None |});
    reflexivity.
Defined.

End WebhookLaws.

(** * Properties of the data cleanup job *)

Module DataCleanupLaws.
Import DataCleanup.

Lemma deleteMany_healthy {A} (matches : A -> bool) (rows : list A) :
  deleteMany None matches rows
  = (Returned (Z.of_nat (length rows) - Z.of_nat (length (List.filter (fun r => negb (matches r)) rows))),
     List.filter (fun r => negb (matches r)) rows).
Proof.
  unfold deleteMany. do 2 f_equal.
  pose proof (List.filter_length matches rows) as H. lia.
Qed.

Lemma deleteMany_keeps {A} (fault : option js_error) (matches : A -> bool) (rows : list A) (r : A) :
  In r rows -> matches r = false -> In r (snd (deleteMany fault matches rows)).
Proof.
  intros Hin Hm. destruct fault as [e|]; cbn; [done|].
  apply List.filter_In. split; [done|]. by rewrite Hm.
Qed.

Lemma deleteMany_subset {A} (fault : option js_error) (matches : A -> bool) (rows : list A) (r : A) :
  In r (snd (deleteMany fault matches rows)) -> In r rows.
Proof.
  destruct fault as [e|]; cbn; [done|]. intros H. by apply List.filter_In in H as [H _].
Qed.

Lemma filter_kept_none {A} (matches : A -> bool) (rows : list A) :
  List.filter matches (List.filter (fun r => negb (matches r)) rows) = [].
Proof.
  induction rows as [|r rows IH]; [done|]. cbn.
  destruct (matches r) eqn:Hm; cbn; [done|]. by rewrite Hm.
Qed.

Lemma filter_kept_all {A} (matches : A -> bool) (rows : list A) :
  List.filter (fun r => negb (matches r)) (List.filter (fun r => negb (matches r)) rows)
  = List.filter (fun r => negb (matches r)) rows.
Proof.
  induction rows as [|r rows IH]; [done|]. cbn.
  destruct (matches r) eqn:Hm; cbn; [done|]. rewrite Hm. cbn. by rewrite IH.
Qed.

Lemma deleteMany_again {A} (matches : A -> bool) (rows : list A) :
  deleteMany None matches (List.filter (fun r => negb (matches r)) rows)
  = (Returned 0, List.filter (fun r => negb (matches r)) rows).
Proof.
  unfold deleteMany. by rewrite filter_kept_none, filter_kept_all.
Qed.

Lemma live_job_kept (cutoff : Z) (j : DownloadJobRow) : live_job j -> old_job cutoff j = false.
Proof.
  unfold live_job, old_job. intros [[Hc Hf] | Hn].
  - apply String.eqb_neq in Hc, Hf. by rewrite Hc, Hf.
  - rewrite Hn. cbn. apply andb_false_r.
Qed.

Lemma live_event_kept (cutoff : Z) (e : WebhookEventRow) : live_event e -> old_event cutoff e = false.
Proof. unfold live_event, old_event. by intros ->. Qed.

Lemma live_batch_kept (cutoff : Z) (b : DiscoveryBatchRow) : live_batch b -> old_batch cutoff b = false.
Proof.
  unfold live_batch, old_batch. intros [Hc | Hn].
  - apply String.eqb_neq in Hc. by rewrite Hc.
  - rewrite Hn. cbn. apply andb_false_r.
Qed.

Section Clock.
Variable days_before : Z -> Z -> Z.

(** The three tables after a run, whatever the faults: each table has been
    through its own [deleteMany] or has not been touched. *)
Lemma runDataCleanup_tables (env : run_env) (dbv : database) :
  let after := snd (runDataCleanup days_before env dbv) in
  (exists f c, downloadJob after = snd (deleteMany f (old_job c) (downloadJob dbv))) /\
  (exists f c, webhookEvent after = snd (deleteMany f (old_event c) (webhookEvent dbv))) /\
  (exists f c, discoveryBatch after = snd (deleteMany f (old_batch c) (discoveryBatch dbv))).
Proof.
  destruct env as [n1 n2 n3 f1 f2 f3].
  unfold runDataCleanup, bind, ret, cleanupDownloadJobs, cleanupWebhookEvents,
    cleanupDiscoveryBatches. cbn.
  destruct f1 as [e1|]; cbn.
  { repeat split; exists (Some e1), 0; done. }
  destruct f2 as [e2|]; cbn.
  { repeat split; [by exists None; eexists | by exists (Some e2), 0 | by exists (Some e2), 0]. }
  destruct f3 as [e3|]; cbn.
  { repeat split; [by exists None; eexists | by exists None; eexists | by exists (Some e3), 0]. }
  repeat split; by exists None; eexists.
Qed.

(** X17. When the database answers, [runDataCleanup] reports for each table
    exactly the number of rows that left it, and [total] is the number of
    rows that left the database. *)
Theorem cleanup_counts_are_rows_removed (env : run_env) (dbv : database) :
  healthy env ->
  let after := snd (runDataCleanup days_before env dbv) in
  exists r, fst (runDataCleanup days_before env dbv) = Returned r /\
    downloadJobs r = Z.of_nat (length (downloadJob dbv)) - Z.of_nat (length (downloadJob after)) /\
    webhookEvents r = Z.of_nat (length (webhookEvent dbv)) - Z.of_nat (length (webhookEvent after)) /\
    discoveryBatches r
      = Z.of_nat (length (discoveryBatch dbv)) - Z.of_nat (length (discoveryBatch after)) /\
    total r = downloadJobs r + webhookEvents r + discoveryBatches r.
Proof.
  destruct env as [n1 n2 n3 f1 f2 f3]. intros (H1 & H2 & H3). cbn in H1, H2, H3. subst.
  unfold runDataCleanup, bind, ret, cleanupDownloadJobs, cleanupWebhookEvents,
    cleanupDiscoveryBatches. cbn [now1 now2 now3 fault1 fault2 fault3].
  rewrite !deleteMany_healthy. cbn.
  eexists. split; [reflexivity|]. cbn. done.
Qed.

(** X18. No run, failed or not, removes a row the retention rules do not
    cover: a job that is neither completed nor failed, an unprocessed
    webhook event, a batch that is not completed, or a job or batch without
    a completion date stays in its table. *)
Theorem cleanup_keeps_live_rows (env : run_env) (dbv : database) :
  let after := snd (runDataCleanup days_before env dbv) in
  (forall j, In j (downloadJob dbv) -> live_job j -> In j (downloadJob after)) /\
  (forall e, In e (webhookEvent dbv) -> live_event e -> In e (webhookEvent after)) /\
  (forall b, In b (discoveryBatch dbv) -> live_batch b -> In b (discoveryBatch after)).
Proof.
  destruct (runDataCleanup_tables env dbv) as ((f1 & c1 & H1) & (f2 & c2 & H2) & (f3 & c3 & H3)).
  cbn zeta. rewrite H1, H2, H3. repeat split.
  - intros j Hin Hlive. apply deleteMany_keeps; [done | by apply live_job_kept].
  - intros e Hin Hlive. apply deleteMany_keeps; [done | by apply live_event_kept].
  - intros b Hin Hlive. apply deleteMany_keeps; [done | by apply live_batch_kept].
Qed.

(** X19. A run only removes rows: every row found afterwards was there
    before. *)
Theorem cleanup_adds_nothing (env : run_env) (dbv : database) :
  let after := snd (runDataCleanup days_before env dbv) in
  (forall j, In j (downloadJob after) -> In j (downloadJob dbv)) /\
  (forall e, In e (webhookEvent after) -> In e (webhookEvent dbv)) /\
  (forall b, In b (discoveryBatch after) -> In b (discoveryBatch dbv)).
Proof.
  destruct (runDataCleanup_tables env dbv) as ((f1 & c1 & H1) & (f2 & c2 & H2) & (f3 & c3 & H3)).
  cbn zeta. rewrite H1, H2, H3. repeat split; intros r; apply deleteMany_subset.
Qed.

(** X20. Running the cleanup a second time with the same clock readings
    finds nothing left to delete and leaves the database as the first run
    left it. *)
Theorem cleanup_twice_deletes_nothing (env : run_env) (dbv : database) :
  healthy env ->
  let after := snd (runDataCleanup days_before env dbv) in
  runDataCleanup days_before env after
  = (Returned {| downloadJobs := 0; webhookEvents := 0; discoveryBatches := 0; total := 0 |},
     after).
Proof.
  destruct env as [n1 n2 n3 f1 f2 f3]. intros (H1 & H2 & H3). cbn in H1, H2, H3. subst.
  unfold runDataCleanup, bind, ret, cleanupDownloadJobs, cleanupWebhookEvents,
    cleanupDiscoveryBatches. cbn [now1 now2 now3 fault1 fault2 fault3].
  cbn [deleteMany]. cbn -[Z.add Z.of_nat List.filter old_job old_event old_batch].
  pose proof (deleteMany_again (old_job (days_before 30 n1)) (downloadJob dbv)) as Ej.
  pose proof (deleteMany_again (old_event (days_before 30 n2)) (webhookEvent dbv)) as Ee.
  pose proof (deleteMany_again (old_batch (days_before 60 n3)) (discoveryBatch dbv)) as Eb.
  unfold deleteMany in Ej, Ee, Eb.
  injection Ej as Ej1 Ej2. injection Ee as Ee1 Ee2. injection Eb as Eb1 Eb2.
  change (r_downloadJobs RETENTION_DAYS) with 30.
  change (r_webhookEvents RETENTION_DAYS) with 30.
  change (r_discoveryBatches RETENTION_DAYS) with 60.
  rewrite Ej1, Ee1, Eb1, Ej2, Ee2, Eb2. reflexivity.
Qed.


(** X22. The scheduled callback never throws, and it leaves the database
    exactly as [runDataCleanup] would under the same conditions. *)
Theorem cron_callback_contains_errors (env : run_env) (dbv : database) :
  cron_callback days_before env dbv = (Returned tt, snd (runDataCleanup days_before env dbv)).
Proof.
  destruct env as [n1 n2 n3 f1 f2 f3].
  unfold cron_callback, runDataCleanup, try_catch, bind, ret, cleanupDownloadJobs,
    cleanupWebhookEvents, cleanupDiscoveryBatches. cbn.
  destruct f1, f2, f3; reflexivity.
Qed.

End Clock.

Lemma cleanup_counts_are_rows_removed_witness :
  exists r, fst (runDataCleanup utc_days_before (sample_env None) sample_database) = Returned r /\
    total r = 3.
Proof.
  destruct (cleanup_counts_are_rows_removed utc_days_before (sample_env None) sample_database)
    as (r & Hr & Hj & He & Hb & Ht).
  { by repeat split. }
  exists r. split; [exact Hr|]. rewrite Ht, Hj, He, Hb. vm_compute. reflexivity.
Defined.

Lemma cleanup_twice_deletes_nothing_witness :
  let after := snd (runDataCleanup utc_days_before (sample_env None) sample_database) in
  fst (runDataCleanup utc_days_before (sample_env None) after)
  = Returned {| downloadJobs := 0; webhookEvents := 0; discoveryBatches := 0; total := 0 |}.
Proof.
  cbn zeta.
  rewrite (cleanup_twice_deletes_nothing utc_days_before (sample_env None) sample_database).
  - reflexivity.
  - by repeat split.
Defined.

Lemma cleanup_keeps_live_rows_witness :
  let after := snd (runDataCleanup utc_days_before (sample_env None) sample_database) in
  In {| job_id := 2; job_status := "processing"; job_completedAt := None |} (downloadJob after) /\
  In {| event_id := 2; processed := false; createdAt := 0 |} (webhookEvent after).
Proof.
  cbn zeta.
  destruct (cleanup_keeps_live_rows utc_days_before (sample_env None) sample_database)
    as (Hjobs & Hevents & _).
  split.
  - apply Hjobs; [vm_compute; tauto | by right].
  - apply Hevents; [vm_compute; tauto | reflexivity].
Defined.


End DataCleanupLaws.

(** * Properties of the playback state machine *)

Module PlaybackStateMachineLaws.
Import PlaybackStateMachine.

Lemma new_context_matches to options from now :
  error_matches_state
    {| state := to; previousState := from; error := error_for to options;
       errorCode := errorCode_for to options; lastTransitionTime := now |}.
Proof.
  unfold error_matches_state. cbn.
  destruct to; cbn; (split; [split|]); intros H; try done; try (by destruct H);
    by eexists.
Qed.

Lemma exec_error_matches this c :
  error_matches_state (context this) -> error_matches_state (context (exec this c)).
Proof.
  intros Hinv. destruct c as [now to options | now to options | now | l | l]; cbn.
  - unfold transition. destruct (negb (canTransition this to)); [done|].
    cbn. apply new_context_matches.
  - apply new_context_matches.
  - unfold error_matches_state. cbn. repeat split; intros H; try done; by destruct H.
  - done.
  - done.
Qed.

Lemma session_error_matches commands : forall this,
  error_matches_state (context this) ->
  error_matches_state (context (session commands this)).
Proof.
  induction commands as [|c rest IH]; intros this H; [done|].
  cbn. apply IH. by apply exec_error_matches.
Qed.

(** X23. The error fields follow the state. After any session on a new
    machine, whatever mix of validated and forced transitions, resets and
    subscriptions it holds, [error] is set exactly when the state is ERROR
    and [errorCode] is set only then; so [hasError] says the same as
    [error !== null]. *)
Theorem error_set_iff_error_state (now : Z) (commands : list command) :
  let this := session commands (new_PlaybackStateMachine now) in
  error_matches_state (context this) /\
  hasError this = bool_decide (is_Some (error (context this))).
Proof.
  cbn zeta.
  assert (error_matches_state (context (session commands (new_PlaybackStateMachine now))))
    as Hinv.
  { apply session_error_matches. unfold error_matches_state. cbn.
    repeat split; intros H; try done; by destruct H. }
  split; [done|]. unfold hasError. destruct Hinv as [Hiff _].
  apply bool_decide_ext. by rewrite Hiff.
Qed.

Lemma no_self_transition (s : PlaybackState) : s ∉ VALID_TRANSITIONS s.
Proof. destruct s; cbn; rewrite !not_elem_of_cons; repeat split; try done; apply not_elem_of_nil. Qed.

(** X24. A transition to the state the machine is already in is refused in
    every state: [transition] answers false, the context (also its
    timestamp) stays as it was and no listener is called. *)
Theorem transition_to_current_state_refused
    (this : machine) (now : Z) (options : option transition_options) :
  transition now (getState this) options this = (false, this).
Proof.
  unfold transition, canTransition, getState.
  rewrite bool_decide_eq_false_2; [done|]. apply no_self_transition.
Qed.

Lemma exec_last_step_valid this c :
  is_validated c = true ->
  last_step_valid (context this) -> last_step_valid (context (exec this c)).
Proof.
  intros Hc Hinv. destruct c as [now to options | now to options | now | l | l];
    try done; cbn.
  unfold transition, canTransition.
  destruct (bool_decide_reflect (to ∈ VALID_TRANSITIONS (state (context this)))); cbn; done.
Qed.

(** X25. Without [forceTransition] and [reset] the machine only ever moves
    along the table: after any session of [transition] calls and
    subscriptions on a new machine, either nothing has moved (the state is
    IDLE, no previous state) or the step from [previousState] to [state] is
    a listed transition; in particular the two are different. *)
Theorem validated_sessions_follow_the_table (now : Z) (commands : list command) :
  forallb is_validated commands = true ->
  let ctx := context (session commands (new_PlaybackStateMachine now)) in
  last_step_valid ctx /\ previousState ctx <> Some (state ctx).
Proof.
  intros Hall. cbn zeta.
  assert (last_step_valid (context (session commands (new_PlaybackStateMachine now))))
    as Hinv.
  { assert (forall this, last_step_valid (context this) ->
              last_step_valid (context (session commands this))) as Hgen.
    { clear now. induction commands as [|c rest IH]; intros this H; [done|].
      cbn in Hall. apply andb_true_iff in Hall as [Hc Hrest].
      cbn. apply IH; [done|]. by apply exec_last_step_valid. }
    apply Hgen. reflexivity. }
  split; [done|]. unfold last_step_valid in Hinv. intros Heq. rewrite Heq in Hinv.
  by apply no_self_transition in Hinv.
Qed.

Lemma validated_sessions_follow_the_table_witness :
  let ctx := context (session (List.filter is_validated sample_session)
                        (new_PlaybackStateMachine 0)) in
  last_step_valid ctx /\ previousState ctx <> Some (state ctx).
Proof.
  cbn zeta.
  apply (validated_sessions_follow_the_table 0 (List.filter is_validated sample_session)).
  vm_compute. reflexivity.
Defined.

(** X26. No state is a trap: from whatever state the machine is in, every
    state can be reached with at most four [transition] calls, none of them
    forced. *)
Theorem every_state_reachable (this : machine) (target : PlaybackState) (now : Z) :
  let path := way (getState this) target in
  (length path <= 4)%nat /\
  getState (session ((fun to => Transition now to None) <$> path) this) = target.
Proof.
  destruct this as [[s p e ec t] ls cs]. cbn zeta. unfold getState. cbn [context state].
  destruct s, target; vm_compute; (split; [lia | reflexivity]).
Qed.

Lemma filter_calls_other (l : nat) (ctx : StateContext) (ls : list nat) :
  l ∉ ls ->
  List.filter (fun c : nat * StateContext => bool_decide (c.1 = l)) ((fun fn => (fn, ctx)) <$> ls)
  = [].
Proof.
  induction ls as [|a ls IH]; [done|]. intros Hnot. apply not_elem_of_cons in Hnot as [Hne Hnot].
  cbn. rewrite bool_decide_eq_false_2 by done. by apply IH.
Qed.

Lemma filter_calls_once (l : nat) (ctx : StateContext) (ls : list nat) :
  NoDup ls -> l ∈ ls ->
  List.filter (fun c : nat * StateContext => bool_decide (c.1 = l)) ((fun fn => (fn, ctx)) <$> ls)
  = [(l, ctx)].
Proof.
  induction 1 as [|a ls Hnot Hnd IH]; intros Hin; [by apply elem_of_nil in Hin|].
  cbn. destruct (decide (a = l)) as [->|Hne].
  - rewrite bool_decide_eq_true_2 by done. by rewrite filter_calls_other.
  - rewrite bool_decide_eq_false_2 by done. apply IH.
    apply elem_of_cons in Hin as [->|Hin]; done.
Qed.

Lemma calls_to_notify_absent (l : nat) this :
  l ∉ listeners this -> calls_to l (notify this) = calls_to l this.
Proof.
  intros Hnot. unfold calls_to, notify. cbn [calls].
  by rewrite List.filter_app, filter_calls_other, app_nil_r.
Qed.

Lemma calls_to_notify_present (l : nat) this :
  NoDup (listeners this) -> l ∈ listeners this ->
  calls_to l (notify this) = calls_to l this ++ [context this].
Proof.
  intros Hnd Hin. unfold calls_to, notify. cbn [calls].
  by rewrite List.filter_app, filter_calls_once, fmap_app.
Qed.

Lemma unsubscribe_absent (l : nat) this : l ∉ listeners (unsubscribe l this).
Proof.
  unfold unsubscribe. cbn. rewrite list_elem_of_In, List.filter_In.
  intros [_ H]. apply negb_true_iff, bool_decide_eq_false in H. done.
Qed.

Lemma exec_absent (l : nat) this c :
  subscribes l c = false -> l ∉ listeners this ->
  (l ∉ listeners (exec this c)) /\ calls_to l (exec this c) = calls_to l this.
Proof.
  intros Hc Hnot. destruct c as [now to options | now to options | now | fn | fn];
    cbn [exec].
  - unfold transition. destruct (negb (canTransition this to)); [done|]. cbn [snd].
    split; [done|]. by rewrite calls_to_notify_absent.
  - split; [done|]. unfold forceTransition. by rewrite calls_to_notify_absent.
  - split; [done|]. unfold reset. by rewrite calls_to_notify_absent.
  - cbn in Hc. apply bool_decide_eq_false in Hc. split.
    + unfold subscribe. cbn [listeners].
      destruct (bool_decide (fn ∈ listeners this)); [done|].
      rewrite elem_of_app, list_elem_of_singleton. naive_solver.
    + unfold calls_to, subscribe. cbn [calls]. rewrite List.filter_app. cbn.
      rewrite bool_decide_eq_false_2 by done. by rewrite app_nil_r.
  - split; [|done]. unfold unsubscribe. cbn [listeners].
    rewrite list_elem_of_In, List.filter_In, <- list_elem_of_In. naive_solver.
Qed.

(** X27. A listener that has unsubscribed is not called again. Whatever
    happens to the machine afterwards, as long as that listener is not
    subscribed anew, the calls it has received stay what they were. *)
Theorem unsubscribed_listener_not_called (listener : nat) (commands : list command) :
  forall this,
  forallb (fun c => negb (subscribes listener c)) commands = true ->
  calls_to listener (session commands (unsubscribe listener this)) = calls_to listener this.
Proof.
  intros this Hall.
  assert (forall m, listener ∉ listeners m ->
            calls_to listener (session commands m) = calls_to listener m) as Hgen.
  { induction commands as [|c rest IH]; intros m Hnot; [done|].
    cbn in Hall. apply andb_true_iff in Hall as [Hc Hrest]. apply negb_true_iff in Hc.
    destruct (exec_absent listener m c Hc Hnot) as [Hnot' Hcalls].
    change (session (c :: rest) m) with (session rest (exec m c)).
    by rewrite IH. }
  rewrite Hgen by apply unsubscribe_absent. reflexivity.
Qed.

Lemma unsubscribed_listener_not_called_witness :
  let this := session sample_session (new_PlaybackStateMachine 0) in
  length (calls_to 7 (session [Reset 50; Subscribe 8; ForceTransition 60 PLAYING None]
                        (unsubscribe 7 this)))
  = 5%nat.
Proof.
  cbn zeta.
  rewrite (unsubscribed_listener_not_called 7
             [Reset 50; Subscribe 8; ForceTransition 60 PLAYING None]
             (session sample_session (new_PlaybackStateMachine 0))).
  - vm_compute. reflexivity.
  - vm_compute. reflexivity.
Defined.

Lemma filter_NoDup {A} (f : A -> bool) (ls : list A) : NoDup ls -> NoDup (List.filter f ls).
Proof.
  induction 1 as [|a ls Hnot Hnd IH]; cbn; [constructor|].
  destruct (f a); [|done]. constructor; [|done].
  rewrite list_elem_of_In, List.filter_In, <- list_elem_of_In. naive_solver.
Qed.

Lemma exec_NoDup this c : NoDup (listeners this) -> NoDup (listeners (exec this c)).
Proof.
  intros Hnd. destruct c as [now to options | now to options | now | fn | fn]; cbn;
    try done.
  - unfold transition. by destruct (negb (canTransition this to)).
  - destruct (bool_decide_reflect (fn ∈ listeners this)); [done|].
    apply NoDup_app. repeat split; [done| |apply NoDup_singleton].
    intros x Hx Hx'. apply list_elem_of_singleton in Hx'. by subst.
  - by apply filter_NoDup.
Qed.

Lemma session_NoDup commands : forall this,
  NoDup (listeners this) -> NoDup (listeners (session commands this)).
Proof.
  induction commands as [|c rest IH]; intros this H; [done|].
  cbn. apply IH. by apply exec_NoDup.
Qed.

(** X28. Every change of the context is delivered exactly once to every
    subscribed listener. On a machine reached by any session, also one
    where the listener subscribed more than once, a forced transition, a
    reset or an allowed transition calls the listener once, with the new
    context. *)
Theorem listener_called_once_per_change
    (now : Z) (commands : list command) (listener : nat) (c : command) :
  let this := session commands (new_PlaybackStateMachine now) in
  listener ∈ listeners this ->
  changes this c = true ->
  calls_to listener (exec this c) = calls_to listener this ++ [context (exec this c)].
Proof.
  cbn zeta. intros Hin Hc.
  pose proof (session_NoDup commands (new_PlaybackStateMachine now) (NoDup_nil_2)) as Hnd.
  remember (session commands (new_PlaybackStateMachine now)) as this eqn:E. clear E.
  destruct c as [t to options | t to options | t | fn | fn]; cbn in Hc; try done; cbn [exec].
  - unfold transition. rewrite Hc. cbn [negb snd]. by rewrite calls_to_notify_present.
  - unfold forceTransition. by rewrite calls_to_notify_present.
  - unfold reset. by rewrite calls_to_notify_present.
Qed.

Lemma listener_called_once_per_change_witness :
  let this := session sample_session (new_PlaybackStateMachine 0) in
  length (calls_to 7 (exec this (Reset 50))) = 6%nat.
Proof.
  cbn zeta.
  rewrite (listener_called_once_per_change 0 sample_session 7 (Reset 50)).
  - vm_compute. reflexivity.
  - apply list_elem_of_In. vm_compute. by left.
  - reflexivity.
Defined.

End PlaybackStateMachineLaws.
